(** * LensReverse: the schema-less protobuf codec of [lensProto.py]

    A shallow embedding of [ProtoReader], [ProtoWriter] and [ProtoBuf]
    (parse, serialize, accessors, dict import, export along a template
    and automatic dict export),
    followed by the properties of the codec.

    Conventions of the embedding:
    - a Python [int] is a [Z] (arbitrary precision, [&], [|], [<<], [>>]
      are [Z.land], [Z.lor], [Z.shiftl], [Z.shiftr]);
    - [bytes] / [bytearray] is a [list byte];
    - a raised exception is the [Raise] outcome of the [result] type;
    - [ProtoReader] is the unread suffix of its buffer, so that
      [isRemain n] is [n <= length suffix]; the position is only ever
      used inside error messages, which are modelled by their kind;
    - the recursive methods come twice: as written, the calls nesting
      as deep as the input asks, and in the module [Stack] with the end
      of the interpreter's stack, where the call that no longer fits
      raises [RecursionError]. *)

From Stdlib Require Import ZArith List Lia Bool Btauto.
From coqutil Require Import Byte Word.LittleEndianList Z.bitblast.
Import ListNotations.
Local Open Scope Z_scope.
Set Warnings "-register-all".

(** ** Exceptions and outcomes *)

(** [ProtoFieldType(IntEnum)] *)
Inductive ProtoFieldType : Set :=
| VARINT | INT64 | STRING | GROUPSTART | GROUPEND | INT32.

Definition type_value (t : ProtoFieldType) : Z :=
  match t with
  | VARINT => 0 | INT64 => 1 | STRING => 2
  | GROUPSTART => 3 | GROUPEND => 4 | INT32 => 5
  end.

(** [ProtoFieldType(wire_type_val)]: [None] stands for the [ValueError]. *)
Definition ProtoFieldType_of_value (v : Z) : option ProtoFieldType :=
  if v =? 0 then Some VARINT
  else if v =? 1 then Some INT64
  else if v =? 2 then Some STRING
  else if v =? 3 then Some GROUPSTART
  else if v =? 4 then Some GROUPEND
  else if v =? 5 then Some INT32
  else None.

Definition type_eqb (a b : ProtoFieldType) : bool :=
  type_value a =? type_value b.

(** The messages of [ProtoError], one constructor per [raise] site. *)
Inductive ProtoMsg : Set :=
| VarintTooLong
| InvalidStringLength
| TruncatedSkippingGroup
| TruncatedSkippingGroupField
| ErrorSkippingGroupField (e : ProtoMsg)
| StandaloneGroupEnd
| CannotSkipUnknownWireType (wire_type : Z)
| InvalidFieldIndex0
| ErrorSkippingUnknownField (field_idx wire_type : Z) (e : ProtoMsg)
| TruncatedSkippingUnknownField (field_idx wire_type : Z)
| UnterminatedGroup (field_idx : Z)
| UnexpectedGroupEnd (field_idx : Z)
| DataTruncated
| ParsingNear (e : ProtoMsg)
| UnexpectedErrorParsing
| CannotSerializeNonBytes (field_idx : Z)
| GroupValueNotProtoBuf (field_idx : Z)
| NotIntegerType (idx : Z) (found : ProtoFieldType)
| NotBytesType (idx : Z) (found : ProtoFieldType)
| NonUtf8Bytes (idx : Z)
| FailedToParseField (idx : Z) (e : ProtoMsg)
| NotProtoBufType (idx : Z) (found : ProtoFieldType)
| InvalidDictKey
| UnsupportedDictValue
| UnsupportedInitType.

Inductive Exc : Set :=
| IndexError
| ProtoError (msg : ProtoMsg)
| TypeError
| OverflowError
| AttributeError
| ValueError
| UnicodeDecodeError
| UnicodeEncodeError
| RecursionError.

(** Outcome of a call: a value, a raised exception, or the exhaustion of
    the recursion budget of the embedding (shown unreachable below). *)
Inductive result (A : Type) : Type :=
| Ok (a : A)
| Raise (e : Exc)
| OutOfFuel.
Arguments Ok {A} a.
Arguments Raise {A} e.
Arguments OutOfFuel {A}.

Definition bind {A B} (m : result A) (k : A -> result B) : result B :=
  match m with
  | Ok a => k a
  | Raise e => Raise e
  | OutOfFuel => OutOfFuel
  end.

Notation "x <- m ;; k" := (bind m (fun x => k))
  (at level 61, m at next level, right associativity).
Notation "' p <- m ;; k" := (bind m (fun x => let p := x in k))
  (at level 61, p pattern, m at next level, right associativity).

(** ** ProtoReader *)

Record ProtoReader := mkReader { stream : list byte }.

Definition isRemain (r : ProtoReader) (length : Z) : bool :=
  length <=? Z.of_nat (List.length (stream r)).

Definition read0 (r : ProtoReader) : result (Z * ProtoReader) :=
  if isRemain r 1 then
    match stream r with
    | byte :: rest => Ok (byte.unsigned byte, mkReader rest)
    | [] => Raise IndexError
    end
  else Raise IndexError.

(** [BytesIO.read(length)]: a negative length reads to the end. *)
Definition read (r : ProtoReader) (length : Z) : result (list byte * ProtoReader) :=
  if isRemain r length then
    if length <? 0 then Ok (stream r, mkReader [])
    else Ok (firstn (Z.to_nat length) (stream r),
             mkReader (skipn (Z.to_nat length) (stream r)))
  else Raise IndexError.

(** [int.from_bytes(bs, byteorder="little", signed=False)] *)
Definition from_bytes_little (bs : list byte) : Z := le_combine bs.

Definition readInt32 (r : ProtoReader) : result (Z * ProtoReader) :=
  '(bs, r) <- read r 4 ;; Ok (from_bytes_little bs, r).

Definition readInt64 (r : ProtoReader) : result (Z * ProtoReader) :=
  '(bs, r) <- read r 8 ;; Ok (from_bytes_little bs, r).

(** The [while True] loop of [readVarint], with [read0] unfolded so that
    the recursion is on the unread bytes. *)
Fixpoint readVarint_loop (s : list byte) (vint n : Z) : result (Z * ProtoReader) :=
  match s with
  | [] => Raise IndexError
  | b :: rest =>
      let byte := byte.unsigned b in
      let vint := Z.lor vint (Z.shiftl (Z.land byte 0x7F) (7 * n)) in
      if byte <? 0x80 then Ok (vint, mkReader rest)
      else
        let n := n + 1 in
        if n >? 10 then Raise (ProtoError VarintTooLong)
        else readVarint_loop rest vint n
  end.

Definition readVarint (r : ProtoReader) : result (Z * ProtoReader) :=
  readVarint_loop (stream r) 0 0.

Definition readString (r : ProtoReader) : result (list byte * ProtoReader) :=
  '(length, r) <- readVarint r ;;
  if length <? 0 then Raise (ProtoError InvalidStringLength)
  else read r length.

(** [skipField]; the [while depth > 0] loop of the group branch is
    [skipField_group].  Every iteration and every nested call takes one
    unit of [fuel]. *)
Fixpoint skipField (fuel : nat) (r : ProtoReader) (wire_type : Z)
  : result ProtoReader :=
  match fuel with
  | O => OutOfFuel
  | S fuel =>
      if wire_type =? type_value VARINT then
        '(_, r) <- readVarint r ;; Ok r
      else if wire_type =? type_value INT64 then
        '(_, r) <- read r 8 ;; Ok r
      else if wire_type =? type_value STRING then
        '(length, r) <- readVarint r ;;
        '(_, r) <- read r length ;; Ok r
      else if wire_type =? type_value GROUPSTART then
        skipField_group fuel r 1
      else if wire_type =? type_value GROUPEND then
        Raise (ProtoError StandaloneGroupEnd)
      else if wire_type =? type_value INT32 then
        '(_, r) <- read r 4 ;; Ok r
      else Raise (ProtoError (CannotSkipUnknownWireType wire_type))
  end
with skipField_group (fuel : nat) (r : ProtoReader) (depth : Z)
  : result ProtoReader :=
  match fuel with
  | O => OutOfFuel
  | S fuel =>
      if depth >? 0 then
        if negb (isRemain r 1) then Raise (ProtoError TruncatedSkippingGroup)
        else
          let body :=
            '(key, r) <- readVarint r ;;
            let wt := Z.land key 0x7 in
            if wt =? type_value GROUPEND then Ok (r, depth - 1)
            else if wt =? type_value GROUPSTART then Ok (r, depth + 1)
            else r <- skipField fuel r wt ;; Ok (r, depth) in
          match body with
          | Ok (r, depth) => skipField_group fuel r depth
          | Raise IndexError => Raise (ProtoError TruncatedSkippingGroupField)
          | Raise (ProtoError e) => Raise (ProtoError (ErrorSkippingGroupField e))
          | Raise e => Raise e
          | OutOfFuel => OutOfFuel
          end
      else Ok r
  end.

(** ** ProtoWriter *)

Record ProtoWriter := mkWriter { data : list byte }.

Definition write0 (w : ProtoWriter) (byte : Z) : ProtoWriter :=
  mkWriter (data w ++ [byte.of_Z (Z.land byte 0xFF)]).

Definition write (w : ProtoWriter) (bytes_data : list byte) : ProtoWriter :=
  mkWriter (data w ++ bytes_data).

(** [int.to_bytes(length, byteorder="little", signed=False)] raises
    [OverflowError] on a negative or too large integer. *)
Definition to_bytes_little (length : nat) (i : Z) : result (list byte) :=
  if (0 <=? i) && (i <? 2 ^ (8 * Z.of_nat length))
  then Ok (le_split length i)
  else Raise OverflowError.

Definition writeInt32 (w : ProtoWriter) (int32 : Z) : result ProtoWriter :=
  bs <- to_bytes_little 4 int32 ;; Ok (write w bs).

Definition writeInt64 (w : ProtoWriter) (int64 : Z) : result ProtoWriter :=
  bs <- to_bytes_little 8 int64 ;; Ok (write w bs).

(** The [while temp_vint > 0] loop of [writeVarint]. *)
Fixpoint writeVarint_loop (fuel : nat) (w : ProtoWriter) (temp_vint : Z)
  : result ProtoWriter :=
  if temp_vint >? 0 then
    match fuel with
    | O => OutOfFuel
    | S fuel =>
        let byte := Z.land temp_vint 0x7F in
        let temp_vint := Z.shiftr temp_vint 7 in
        let byte := if temp_vint >? 0 then Z.lor byte 0x80 else byte in
        writeVarint_loop fuel (write0 w byte) temp_vint
    end
  else Ok w.

(** The loop runs once per 7-bit group of [vint], so the bit length of
    [vint] is a sufficient budget. *)
Definition writeVarint (w : ProtoWriter) (vint : Z) : result ProtoWriter :=
  if vint =? 0 then Ok (write0 w 0)
  else writeVarint_loop (Z.to_nat (Z.log2 vint + 1)) w vint.

Definition writeString (w : ProtoWriter) (bytes_data : list byte)
  : result ProtoWriter :=
  w <- writeVarint w (Z.of_nat (List.length bytes_data)) ;;
  Ok (write w bytes_data).

Definition toBytes (w : ProtoWriter) : list byte := data w.

(** ** ProtoField and ProtoBuf *)

(** A field value is whatever Python object was stored: the codec itself
    stores integers, [bytes] and nested [ProtoBuf] objects.  A [ProtoBuf]
    object is its [fields] list. *)
Inductive ProtoField :=
| mkField (idx : Z) (type : ProtoFieldType) (val : PyVal)
with PyVal :=
| VInt (z : Z)
| VBytes (bs : list byte)
| VProtoBuf (fields : list ProtoField).

Definition ProtoBuf := list ProtoField.

Definition idx (f : ProtoField) : Z := let (i, _, _) := f in i.
Definition type (f : ProtoField) : ProtoFieldType := let (_, t, _) := f in t.
Definition val (f : ProtoField) : PyVal := let (_, _, v) := f in v.

Definition put (self : ProtoBuf) (field : ProtoField) : ProtoBuf :=
  self ++ [field].

(** [_parseFields(self, reader, group_idx_end)]: [self] is the list of
    fields stored so far; the outcome carries the returned flag, the
    fields of [self] and the reader after the call.  Each iteration of
    the [while] loop and each nested call takes one unit of [fuel]. *)
Fixpoint _parseFields (fuel : nat) (self : ProtoBuf) (reader : ProtoReader)
  (group_idx_end : option Z) : result (bool * ProtoBuf * ProtoReader) :=
  match fuel with
  | O => OutOfFuel
  | S fuel =>
    if isRemain reader 1 then
      '(key, reader) <- readVarint reader ;;
      let wire_type_val := Z.land key 0x7 in
      let field_idx := Z.shiftr key 3 in
      if field_idx =? 0 then Raise (ProtoError InvalidFieldIndex0)
      else
        match ProtoFieldType_of_value wire_type_val with
        | None =>
            match skipField (S (S (length (stream reader)))) reader wire_type_val with
            | Ok reader => _parseFields fuel self reader group_idx_end
            | Raise (ProtoError e) =>
                Raise (ProtoError (ErrorSkippingUnknownField field_idx wire_type_val e))
            | Raise IndexError =>
                Raise (ProtoError (TruncatedSkippingUnknownField field_idx wire_type_val))
            | Raise e => Raise e
            | OutOfFuel => OutOfFuel
            end
        | Some field_type =>
            if match group_idx_end with
               | Some g => type_eqb field_type GROUPEND && (field_idx =? g)
               | None => false
               end
            then Ok (true, self, reader)
            else
              match field_type with
              | VARINT =>
                  '(value, reader) <- readVarint reader ;;
                  _parseFields fuel (put self (mkField field_idx field_type (VInt value)))
                    reader group_idx_end
              | INT64 =>
                  '(value, reader) <- readInt64 reader ;;
                  _parseFields fuel (put self (mkField field_idx field_type (VInt value)))
                    reader group_idx_end
              | STRING =>
                  '(value, reader) <- readString reader ;;
                  _parseFields fuel (put self (mkField field_idx field_type (VBytes value)))
                    reader group_idx_end
              | INT32 =>
                  '(value, reader) <- readInt32 reader ;;
                  _parseFields fuel (put self (mkField field_idx field_type (VInt value)))
                    reader group_idx_end
              | GROUPSTART =>
                  '(found_end, nested_pb, reader) <-
                    _parseFields fuel [] reader (Some field_idx) ;;
                  if negb found_end
                  then Raise (ProtoError (UnterminatedGroup field_idx))
                  else
                    _parseFields fuel
                      (put self (mkField field_idx field_type (VProtoBuf nested_pb)))
                      reader group_idx_end
              | GROUPEND => Raise (ProtoError (UnexpectedGroupEnd field_idx))
              end
        end
    else
      match group_idx_end with
      | Some _ => Ok (false, self, reader)
      | None => Ok (true, self, reader)
      end
  end.

(** [ProtoBuf.__init__(data)] for [data] a [bytes] object: every
    exception of the parse is turned into a [ProtoError].  A loop
    iteration reads at least one byte, so one more unit of fuel than
    there are bytes is enough ([ProtoBuf_of_bytes_fuel] below). *)
Definition ProtoBuf_of_bytes (data : list byte) : result ProtoBuf :=
  if Z.of_nat (length data) >? 0 then
    match _parseFields (S (length data)) [] (mkReader data) None with
    | Ok (_, self, _) => Ok self
    | Raise IndexError => Raise (ProtoError DataTruncated)
    | Raise (ProtoError e) => Raise (ProtoError (ParsingNear e))
    | Raise _ => Raise (ProtoError UnexpectedErrorParsing)
    | OutOfFuel => OutOfFuel
    end
  else Ok [].

(** [bytes(n)] for an integer [n]: [n] zero bytes, memory permitting;
    a count that is no index ([sys.maxsize] is [2^63 - 1]) is refused. *)
Definition bytes_of_int (n : Z) : result (list byte) :=
  if n <? 0 then Raise ValueError
  else if 2 ^ 63 <=? n then Raise OverflowError
  else Ok (repeat Byte.x00 (Z.to_nat n)).

(** [toBuf]: [toBuf_field] is the body of the [for field in self.fields]
    loop and [toBuf_loop] the loop itself, over the writer; a nested
    [toBuf()] call starts from a fresh writer. *)
Fixpoint toBuf_field (field : ProtoField) (writer : ProtoWriter)
  : result ProtoWriter :=
  let toBuf_nested :=
    fix toBuf_loop (fields : list ProtoField) (writer : ProtoWriter)
      : result ProtoWriter :=
      match fields with
      | [] => Ok writer
      | field :: rest =>
          writer <- toBuf_field field writer ;; toBuf_loop rest writer
      end in
  match field with
  | mkField idx type val =>
      let key := Z.lor (Z.shiftl idx 3) (Z.land (type_value type) 7) in
      writer <- writeVarint writer key ;;
      match type with
      | VARINT =>
          match val with
          | VInt v => writeVarint writer v
          | _ => Raise TypeError
          end
      | INT64 =>
          match val with
          | VInt v => writeInt64 writer v
          | _ => Raise AttributeError
          end
      | STRING =>
          val_bytes <-
            match val with
            | VProtoBuf pb =>
                w <- toBuf_nested pb (mkWriter []) ;; Ok (toBytes w)
            | VBytes bs => Ok bs
            | VInt n => bytes_of_int n
            end ;;
          writeString writer val_bytes
      | INT32 =>
          match val with
          | VInt v => writeInt32 writer v
          | _ => Raise AttributeError
          end
      | GROUPSTART =>
          match val with
          | VProtoBuf pb =>
              w <- toBuf_nested pb (mkWriter []) ;;
              let group_bytes := toBytes w in
              let writer := write writer group_bytes in
              let end_key :=
                Z.lor (Z.shiftl idx 3) (Z.land (type_value GROUPEND) 7) in
              writeVarint writer end_key
          | _ => Raise (ProtoError (GroupValueNotProtoBuf idx))
          end
      | GROUPEND => Ok writer
      end
  end.

Fixpoint toBuf_loop (fields : list ProtoField) (writer : ProtoWriter)
  : result ProtoWriter :=
  match fields with
  | [] => Ok writer
  | field :: rest =>
      writer <- toBuf_field field writer ;; toBuf_loop rest writer
  end.

Definition toBuf (self : ProtoBuf) : result (list byte) :=
  w <- toBuf_loop self (mkWriter []) ;; Ok (toBytes w).

(** ** Accessors *)

Definition getList (self : ProtoBuf) (i : Z) : list ProtoField :=
  filter (fun field => idx field =? i) self.

Fixpoint get (self : ProtoBuf) (i : Z) : option ProtoField :=
  match self with
  | [] => None
  | field :: rest => if idx field =? i then Some field else get rest i
  end.

Definition getInt (self : ProtoBuf) (i : Z) : result PyVal :=
  match get self i with
  | None => Ok (VInt 0)
  | Some pf =>
      match type pf with
      | INT32 | INT64 | VARINT => Ok (val pf)
      | t => Raise (ProtoError (NotIntegerType i t))
      end
  end.

(** ** Python strings and UTF-8

    A [str] is the list of its code points.  [bytes.decode('utf-8')] and
    [str.encode('utf-8')] are the strict codec of CPython. *)

Definition str := list Z.

Definition in_range (lo hi x : Z) : bool := (lo <=? x) && (x <=? hi).

Definition utf8_tail (b : byte) : Z := Z.land (byte.unsigned b) 0x3F.

Fixpoint utf8_decode (bs : list byte) : option str :=
  match bs with
  | [] => Some []
  | b0 :: r0 =>
      let c0 := byte.unsigned b0 in
      if c0 <? 0x80 then option_map (cons c0) (utf8_decode r0)
      else if in_range 0xC2 0xDF c0 then
        match r0 with
        | b1 :: r1 =>
            if in_range 0x80 0xBF (byte.unsigned b1) then
              option_map
                (cons (Z.lor (Z.shiftl (Z.land c0 0x1F) 6) (utf8_tail b1)))
                (utf8_decode r1)
            else None
        | _ => None
        end
      else if in_range 0xE0 0xEF c0 then
        match r0 with
        | b1 :: b2 :: r2 =>
            let lo := if c0 =? 0xE0 then 0xA0 else 0x80 in
            let hi := if c0 =? 0xED then 0x9F else 0xBF in
            if in_range lo hi (byte.unsigned b1)
               && in_range 0x80 0xBF (byte.unsigned b2) then
              option_map
                (cons (Z.lor (Z.shiftl (Z.land c0 0x0F) 12)
                         (Z.lor (Z.shiftl (utf8_tail b1) 6) (utf8_tail b2))))
                (utf8_decode r2)
            else None
        | _ => None
        end
      else if in_range 0xF0 0xF4 c0 then
        match r0 with
        | b1 :: b2 :: b3 :: r3 =>
            let lo := if c0 =? 0xF0 then 0x90 else 0x80 in
            let hi := if c0 =? 0xF4 then 0x8F else 0xBF in
            if in_range lo hi (byte.unsigned b1)
               && in_range 0x80 0xBF (byte.unsigned b2)
               && in_range 0x80 0xBF (byte.unsigned b3) then
              option_map
                (cons (Z.lor (Z.shiftl (Z.land c0 0x07) 18)
                         (Z.lor (Z.shiftl (utf8_tail b1) 12)
                            (Z.lor (Z.shiftl (utf8_tail b2) 6) (utf8_tail b3)))))
                (utf8_decode r3)
            else None
        | _ => None
        end
      else None
  end.

Definition utf8_cont (c : Z) (shift : Z) : byte :=
  byte.of_Z (Z.lor 0x80 (Z.land (Z.shiftr c shift) 0x3F)).

Definition utf8_encode_char (c : Z) : option (list byte) :=
  if in_range 0 0x7F c then Some [byte.of_Z c]
  else if in_range 0x80 0x7FF c then
    Some [byte.of_Z (Z.lor 0xC0 (Z.shiftr c 6)); utf8_cont c 0]
  else if in_range 0xD800 0xDFFF c then None
  else if in_range 0x800 0xFFFF c then
    Some [byte.of_Z (Z.lor 0xE0 (Z.shiftr c 12)); utf8_cont c 6; utf8_cont c 0]
  else if in_range 0x10000 0x10FFFF c then
    Some [byte.of_Z (Z.lor 0xF0 (Z.shiftr c 18)); utf8_cont c 12;
          utf8_cont c 6; utf8_cont c 0]
  else None.

Fixpoint utf8_encode (s : str) : result (list byte) :=
  match s with
  | [] => Ok []
  | c :: rest =>
      match utf8_encode_char c with
      | Some bs => tl <- utf8_encode rest ;; Ok (bs ++ tl)
      | None => Raise UnicodeEncodeError
      end
  end.

(** ** Put methods *)

Definition putInt32 (self : ProtoBuf) (i int32 : Z) : ProtoBuf :=
  put self (mkField i INT32 (VInt int32)).

Definition putInt64 (self : ProtoBuf) (i int64 : Z) : ProtoBuf :=
  put self (mkField i INT64 (VInt int64)).

Definition putVarint (self : ProtoBuf) (i vint : Z) : ProtoBuf :=
  put self (mkField i VARINT (VInt vint)).

Definition putBytes (self : ProtoBuf) (i : Z) (data : list byte) : ProtoBuf :=
  put self (mkField i STRING (VBytes data)).

Definition putUtf8 (self : ProtoBuf) (i : Z) (data : str) : result ProtoBuf :=
  bs <- utf8_encode data ;; Ok (put self (mkField i STRING (VBytes bs))).

(** [putProtoBuf] given a [ProtoBuf] object. *)
Definition putProtoBuf (self : ProtoBuf) (i : Z) (data : ProtoBuf)
  : result ProtoBuf :=
  bs <- toBuf data ;; Ok (put self (mkField i STRING (VBytes bs))).

Definition putGroup (self : ProtoBuf) (i : Z) (group_pb : ProtoBuf) : ProtoBuf :=
  put self (mkField i GROUPSTART (VProtoBuf group_pb)).

(** ** Generic Python values: the dicts of [_parseDict] and [toDictAuto]

    A [dict] is the list of its items in insertion order, with integer
    keys.  [PGroupError] is the one-entry dict [{"__error__": ...}] that
    [toDictAuto] builds for a group whose value is not a [ProtoBuf];
    [PNone] is [None] and [POther] any object of another type. *)
Inductive PyObj :=
| PInt (z : Z)
| PStr (s : str)
| PBytes (bs : list byte)
| PDict (items : list (Z * PyObj))
| PList (l : list PyObj)
| PProtoBuf (pb : ProtoBuf)
| PGroupError (key : Z)
| PNone
| POther.

(** [_parseDict]: [_parseDict_item] is the body of the loop over
    [values_to_process] for one item under key [k]; a nested dict goes
    through [ProtoBuf(item)], that is [_parseDict] on a fresh object. *)
Fixpoint _parseDict_item (item : PyObj) (self : ProtoBuf) (k : Z)
  : result ProtoBuf :=
  match item with
  | PInt z => Ok (putVarint self k z)
  | PStr s => putUtf8 self k s
  | PBytes bs => Ok (putBytes self k bs)
  | PDict items =>
      nested <-
        (fix _parseDict (items : list (Z * PyObj)) (self : ProtoBuf)
           : result ProtoBuf :=
           match items with
           | [] => Ok self
           | (k, v) :: rest =>
               if k <=? 0 then Raise (ProtoError InvalidDictKey)
               else
                 self <-
                   match v with
                   | PList values_to_process =>
                       (fix each (l : list PyObj) (self : ProtoBuf)
                          : result ProtoBuf :=
                          match l with
                          | [] => Ok self
                          | item :: l =>
                              self <- _parseDict_item item self k ;; each l self
                          end) values_to_process self
                   | _ => _parseDict_item v self k
                   end ;;
                 _parseDict rest self
           end) items [] ;;
      putProtoBuf self k nested
  | PProtoBuf pb => putProtoBuf self k pb
  | PGroupError _ => Raise (ProtoError InvalidDictKey)
  | PList _ | PNone | POther => Raise (ProtoError UnsupportedDictValue)
  end.

Fixpoint _parseDict_values (values_to_process : list PyObj) (self : ProtoBuf)
  (k : Z) : result ProtoBuf :=
  match values_to_process with
  | [] => Ok self
  | item :: l =>
      self <- _parseDict_item item self k ;; _parseDict_values l self k
  end.

Fixpoint _parseDict (data : list (Z * PyObj)) (self : ProtoBuf)
  : result ProtoBuf :=
  match data with
  | [] => Ok self
  | (k, v) :: rest =>
      if k <=? 0 then Raise (ProtoError InvalidDictKey)
      else
        self <-
          match v with
          | PList values_to_process =>
              _parseDict_values values_to_process self k
          | _ => _parseDict_item v self k
          end ;;
        _parseDict rest self
  end.

(** [ProtoBuf.__init__(data)] for an arbitrary object; [ProtoBuf(None)]
    is [ProtoBuf()], the empty message. *)
Definition ProtoBuf_init (data : PyObj) : result ProtoBuf :=
  match data with
  | PNone => Ok []
  | PBytes bs => ProtoBuf_of_bytes bs
  | PDict items => _parseDict items []
  | PGroupError _ => Raise (ProtoError InvalidDictKey)
  | _ => Raise (ProtoError UnsupportedInitType)
  end.

Definition obj_of_val (v : PyVal) : PyObj :=
  match v with
  | VInt z => PInt z
  | VBytes bs => PBytes bs
  | VProtoBuf pb => PProtoBuf pb
  end.

(** [intermediate[key].append(value)], creating the list when the key is
    new; the position of a key is that of its first insertion. *)
Fixpoint dict_append (intermediate : list (Z * list PyObj)) (key : Z)
  (value : PyObj) : list (Z * list PyObj) :=
  match intermediate with
  | [] => [(key, [value])]
  | (k, values) :: rest =>
      if k =? key then (k, values ++ [value]) :: rest
      else (k, values) :: dict_append rest key value
  end.

(** The final loop of [toDictAuto]. *)
Definition collapse (intermediate : list (Z * list PyObj)) : list (Z * PyObj) :=
  map (fun '(key, values) =>
         match values with
         | [v] => (key, v)
         | _ => (key, PList values)
         end) intermediate.

(** The size of a tree: one per field plus the bytes it holds.  It
    bounds the depth of the re-parsing recursion of [toDictAuto]. *)
Fixpoint field_weight (f : ProtoField) : nat :=
  match f with
  | mkField _ _ v =>
      S match v with
        | VInt _ => 0%nat
        | VBytes bs => length bs
        | VProtoBuf pb =>
            (fix weight (l : list ProtoField) : nat :=
               match l with
               | [] => 0%nat
               | f :: l => (field_weight f + weight l)%nat
               end) pb
        end
  end.

Definition weight (pb : ProtoBuf) : nat :=
  fold_right (fun f n => field_weight f + n)%nat 0%nat pb.

Section Python.

(** What the codec takes from the Python runtime: [str(obj)] of a field
    value that is not [bytes], and the Unicode classification of the
    code points above ASCII. *)
Variable py_str : PyVal -> str.
Variable unicode_isprintable : Z -> bool.
Variable unicode_isspace : Z -> bool.

Definition isprintable (c : Z) : bool :=
  if c <? 0x80 then in_range 0x20 0x7E c else unicode_isprintable c.

Definition isspace (c : Z) : bool :=
  if c <? 0x80 then in_range 0x09 0x0D c || in_range 0x1C 0x20 c
  else unicode_isspace c.

Definition getBytes (self : ProtoBuf) (i : Z) : result (option (list byte)) :=
  match get self i with
  | None => Ok None
  | Some pf =>
      match type pf, val pf with
      | STRING, VBytes bs => Ok (Some bs)
      | STRING, v =>
          match utf8_encode (py_str v) with
          | Ok bs => Ok (Some bs)
          | Raise _ => Raise (ProtoError (NotBytesType i STRING))
          | OutOfFuel => OutOfFuel
          end
      | GROUPSTART, VProtoBuf pb => bs <- toBuf pb ;; Ok (Some bs)
      | t, _ => Raise (ProtoError (NotBytesType i t))
      end
  end.

Definition getUtf8 (self : ProtoBuf) (i : Z) : result (option str) :=
  bs <- getBytes self i ;;
  match bs with
  | None => Ok None
  | Some bs =>
      match utf8_decode bs with
      | Some s => Ok (Some s)
      | None => Raise (ProtoError (NonUtf8Bytes i))
      end
  end.

Definition getProtoBuf (self : ProtoBuf) (i : Z) : result (option ProtoBuf) :=
  match get self i with
  | None => Ok None
  | Some pf =>
      match type pf, val pf with
      | STRING, v =>
          match ProtoBuf_init (obj_of_val v) with
          | Ok pb => Ok (Some pb)
          | Raise (ProtoError e) => Raise (ProtoError (FailedToParseField i e))
          | Raise e => Raise e
          | OutOfFuel => OutOfFuel
          end
      | GROUPSTART, VProtoBuf pb => Ok (Some pb)
      | t, _ => Raise (ProtoError (NotProtoBufType i t))
      end
  end.

(** [toDictAuto]: [toDictAuto_value] is the classification of one field,
    [toDictAuto_loop] the loop that fills [intermediate].  A nested
    [toDictAuto()] call takes one unit of [fuel]. *)
Fixpoint toDictAuto_fuel (fuel : nat) (self : ProtoBuf) : result PyObj :=
  match fuel with
  | O => OutOfFuel
  | S fuel =>
      let reparse (bs : list byte) : result (option PyObj) :=
        match ProtoBuf_of_bytes bs with
        | Ok nested_pb =>
            match nested_pb with
            | [] => Ok (Some (PBytes bs))
            | _ => d <- toDictAuto_fuel fuel nested_pb ;; Ok (Some d)
            end
        | Raise (ProtoError _) => Ok (Some (PBytes bs))
        | Raise e => Raise e
        | OutOfFuel => OutOfFuel
        end in
      let toDictAuto_value (field : ProtoField) : result (option PyObj) :=
        match type field with
        | VARINT | INT64 | INT32 => Ok (Some (obj_of_val (val field)))
        | STRING =>
            match val field with
            | VBytes bs =>
                match utf8_decode bs with
                | Some decoded_str =>
                    if forallb (fun c => isprintable c || isspace c) decoded_str
                    then Ok (Some (PStr decoded_str))
                    else reparse bs
                | None => reparse bs
                end
            | _ => Raise AttributeError
            end
        | GROUPSTART =>
            match val field with
            | VProtoBuf pb => d <- toDictAuto_fuel fuel pb ;; Ok (Some d)
            | _ => Ok (Some (PGroupError (idx field)))
            end
        | GROUPEND => Ok None
        end in
      let toDictAuto_loop :=
        fix loop (fields : list ProtoField)
          (intermediate : list (Z * list PyObj))
          : result (list (Z * list PyObj)) :=
          match fields with
          | [] => Ok intermediate
          | field :: rest =>
              value <- toDictAuto_value field ;;
              match value with
              | Some value => loop rest (dict_append intermediate (idx field) value)
              | None => loop rest intermediate
              end
          end in
      intermediate <- toDictAuto_loop self [] ;;
      Ok (PDict (collapse intermediate))
  end.

(** A nested call works on a strictly lighter tree, so the weight of the
    tree is a sufficient budget ([toDictAuto_fuel_enough] below). *)
Definition toDictAuto (self : ProtoBuf) : result PyObj :=
  toDictAuto_fuel (S (weight self)) self.

(** The classification of one field and the loop of [toDictAuto], the
    nested [toDictAuto()] calls being [rec]. *)
Definition reparse_with (rec : ProtoBuf -> result PyObj) (bs : list byte)
  : result (option PyObj) :=
  match ProtoBuf_of_bytes bs with
  | Ok nested_pb =>
      match nested_pb with
      | [] => Ok (Some (PBytes bs))
      | _ => d <- rec nested_pb ;; Ok (Some d)
      end
  | Raise (ProtoError _) => Ok (Some (PBytes bs))
  | Raise e => Raise e
  | OutOfFuel => OutOfFuel
  end.

Definition value_with (rec : ProtoBuf -> result PyObj) (field : ProtoField)
  : result (option PyObj) :=
  match type field with
  | VARINT | INT64 | INT32 => Ok (Some (obj_of_val (val field)))
  | STRING =>
      match val field with
      | VBytes bs =>
          match utf8_decode bs with
          | Some decoded_str =>
              if forallb (fun c => isprintable c || isspace c) decoded_str
              then Ok (Some (PStr decoded_str))
              else reparse_with rec bs
          | None => reparse_with rec bs
          end
      | _ => Raise AttributeError
      end
  | GROUPSTART =>
      match val field with
      | VProtoBuf pb => d <- rec pb ;; Ok (Some d)
      | _ => Ok (Some (PGroupError (idx field)))
      end
  | GROUPEND => Ok None
  end.

Definition loop_with (rec : ProtoBuf -> result PyObj)
  : list ProtoField -> list (Z * list PyObj) -> result (list (Z * list PyObj)) :=
  fix loop (fields : list ProtoField) (intermediate : list (Z * list PyObj)) :=
    match fields with
    | [] => Ok intermediate
    | field :: rest =>
        value <- value_with rec field ;;
        match value with
        | Some value => loop rest (dict_append intermediate (idx field) value)
        | None => loop rest intermediate
        end
    end.

End Python.

(** ** Vocabulary of the properties *)

(** The tag of a field: [(field.idx << 3) | (field.type.value & 7)]. *)
Definition tag_key (i : Z) (t : ProtoFieldType) : Z :=
  Z.lor (Z.shiftl i 3) (Z.land (type_value t) 7).

(** The bytes [toBuf] writes for one field. *)
Definition field_bytes (f : ProtoField) : result (list byte) :=
  w <- toBuf_field f (mkWriter []) ;; Ok (toBytes w).

(** What one iteration of [_parseFields] does once the tag has been read
    and its wire type recognised, the recursive calls being [_parseFields
    fuel]. *)
Definition after_tag (fuel : nat) (self : ProtoBuf) (reader : ProtoReader)
  (group_idx_end : option Z) (field_idx : Z) (field_type : ProtoFieldType)
  : result (bool * ProtoBuf * ProtoReader) :=
  if match group_idx_end with
     | Some g => type_eqb field_type GROUPEND && (field_idx =? g)
     | None => false
     end
  then Ok (true, self, reader)
  else
    match field_type with
    | VARINT =>
        '(value, reader) <- readVarint reader ;;
        _parseFields fuel (put self (mkField field_idx field_type (VInt value)))
          reader group_idx_end
    | INT64 =>
        '(value, reader) <- readInt64 reader ;;
        _parseFields fuel (put self (mkField field_idx field_type (VInt value)))
          reader group_idx_end
    | STRING =>
        '(value, reader) <- readString reader ;;
        _parseFields fuel (put self (mkField field_idx field_type (VBytes value)))
          reader group_idx_end
    | INT32 =>
        '(value, reader) <- readInt32 reader ;;
        _parseFields fuel (put self (mkField field_idx field_type (VInt value)))
          reader group_idx_end
    | GROUPSTART =>
        '(found_end, nested_pb, reader) <-
          _parseFields fuel [] reader (Some field_idx) ;;
        if negb found_end
        then Raise (ProtoError (UnterminatedGroup field_idx))
        else
          _parseFields fuel
            (put self (mkField field_idx field_type (VProtoBuf nested_pb)))
            reader group_idx_end
    | GROUPEND => Raise (ProtoError (UnexpectedGroupEnd field_idx))
    end.

(** Trees whose serialization the parser reads back: field numbers
    whose tag fits the eleven bytes [readVarint] accepts, integers in
    the range of their wire type, byte strings for [STRING] and nested
    trees for [GROUPSTART]; no [GROUPEND] field. *)
Definition idx_ok (i : Z) : bool := (0 <? i) && (i <? 2 ^ 74).

Fixpoint wire_ok (f : ProtoField) : bool :=
  match f with
  | mkField i t v =>
      idx_ok i &&
      match t, v with
      | VARINT, VInt z => (0 <=? z) && (z <? 2 ^ 77)
      | INT64, VInt z => (0 <=? z) && (z <? 2 ^ 64)
      | INT32, VInt z => (0 <=? z) && (z <? 2 ^ 32)
      | STRING, VBytes bs => Z.of_nat (length bs) <? 2 ^ 77
      | GROUPSTART, VProtoBuf pb => forallb wire_ok pb
      | _, _ => false
      end
  end.

(** No stored [GROUPEND], and a nested tree under every [GROUPSTART],
    at every depth. *)
Fixpoint group_inv (f : ProtoField) : bool :=
  match f with
  | mkField _ t v =>
      match t, v with
      | GROUPEND, _ => false
      | GROUPSTART, VProtoBuf pb => forallb group_inv pb
      | GROUPSTART, _ => false
      | _, _ => true
      end
  end.

(** A tree built by scalar puts on an empty [ProtoBuf()]. *)
Inductive PutOp :=
| PutVarint (i vint : Z)
| PutInt32 (i int32 : Z)
| PutInt64 (i int64 : Z)
| PutBytes (i : Z) (data : list byte)
| PutUtf8 (i : Z) (data : str).

Definition apply_put (self : ProtoBuf) (op : PutOp) : result ProtoBuf :=
  match op with
  | PutVarint i v => Ok (putVarint self i v)
  | PutInt32 i v => Ok (putInt32 self i v)
  | PutInt64 i v => Ok (putInt64 self i v)
  | PutBytes i d => Ok (putBytes self i d)
  | PutUtf8 i s => putUtf8 self i s
  end.

Fixpoint build (ops : list PutOp) (self : ProtoBuf) : result ProtoBuf :=
  match ops with
  | [] => Ok self
  | op :: ops => self <- apply_put self op ;; build ops self
  end.

(** Positive field number and a value in the range of its wire type. *)
Definition op_in_range (op : PutOp) : bool :=
  match op with
  | PutVarint i v => (0 <? i) && (0 <=? v) && (v <? 2 ^ 64)
  | PutInt32 i v => (0 <? i) && (0 <=? v) && (v <? 2 ^ 32)
  | PutInt64 i v => (0 <? i) && (0 <=? v) && (v <? 2 ^ 64)
  | PutBytes i _ => 0 <? i
  | PutUtf8 i _ => 0 <? i
  end.

(** The field number of a put, and the length of its payload. *)
Definition op_idx (op : PutOp) : Z :=
  match op with
  | PutVarint i _ | PutInt32 i _ | PutInt64 i _ | PutBytes i _ | PutUtf8 i _ => i
  end.

Definition op_payload (op : PutOp) : Z :=
  match op with
  | PutBytes _ d => Z.of_nat (length d)
  | PutUtf8 _ s =>
      match utf8_encode s with
      | Ok bs => Z.of_nat (length bs)
      | _ => 0
      end
  | _ => 0
  end.

(** In range, with a tag and a length prefix that [readVarint] accepts. *)
Definition op_readable (op : PutOp) : bool :=
  op_in_range op && (op_idx op <? 2 ^ 74) && (op_payload op <? 2 ^ 77).

(** The nesting depth of a tree: a field holding a nested tree is one
    level deeper than that tree. *)
Fixpoint field_depth (f : ProtoField) : nat :=
  match f with
  | mkField _ _ v =>
      match v with
      | VProtoBuf pb =>
          S ((fix depth (l : list ProtoField) : nat :=
                match l with
                | [] => 0%nat
                | f :: l => Nat.max (field_depth f) (depth l)
                end) pb)
      | _ => 0%nat
      end
  end.

Fixpoint depth (pb : ProtoBuf) : nat :=
  match pb with
  | [] => 0%nat
  | f :: l => Nat.max (field_depth f) (depth l)
  end.

(** [n] groups numbered 1, each inside the previous one, and the bytes
    that open and close them: [0x0b] is the tag of field 1 with wire
    type 3, [0x0c] with wire type 4. *)
Fixpoint nest_tree (n : nat) : ProtoBuf :=
  match n with
  | O => []
  | S n => [mkField 1 GROUPSTART (VProtoBuf (nest_tree n))]
  end.

Fixpoint nest_bytes (n : nat) : list byte :=
  match n with
  | O => []
  | S n => byte.of_Z 0x0b :: nest_bytes n ++ [byte.of_Z 0x0c]
  end.

(** Byte literals for the examples. *)
Definition hex (l : list Z) : list byte := map byte.of_Z l.

(** ** Varints *)

(** The bytes [writeVarint] appends: [varint_groups] follows the loop of
    [writeVarint_loop], one byte per iteration. *)
Fixpoint varint_groups (fuel : nat) (temp_vint : Z) : list byte :=
  if temp_vint >? 0 then
    match fuel with
    | O => []
    | S fuel =>
        let byte := Z.land temp_vint 0x7F in
        let temp_vint := Z.shiftr temp_vint 7 in
        let byte := if temp_vint >? 0 then Z.lor byte 0x80 else byte in
        byte.of_Z (Z.land byte 0xFF) :: varint_groups fuel temp_vint
    end
  else [].

Definition varint_bytes (vint : Z) : list byte :=
  if vint =? 0 then [byte.of_Z 0]
  else varint_groups (Z.to_nat (Z.log2 vint + 1)) vint.

(** [int.bit_length()] of a non-negative integer. *)
Definition bit_length (v : Z) : Z := if v =? 0 then 0 else Z.log2 v + 1.

Definition is_continuation (b : byte) : Prop := 0x80 <= byte.unsigned b.

(** The bytes of a tree that serializes. *)
Definition serialized (pb : ProtoBuf) : list byte :=
  match toBuf pb with
  | Ok bs => bs
  | _ => []
  end.

(** The bytes before a cut made inside open groups: for each group still
    open, outermost first, the fields completed before it and its start
    tag. *)
Fixpoint open_prefix (frames : list (ProtoBuf * Z)) : list byte :=
  match frames with
  | [] => []
  | (pre, k) :: frames =>
      serialized pre ++ varint_bytes (tag_key k GROUPSTART) ++ open_prefix frames
  end.

Definition frames_ok (frames : list (ProtoBuf * Z)) : bool :=
  forallb (fun '(pre, k) => forallb wire_ok pre && idx_ok k) frames.

(** The bytes of a varint that stops before its last byte. *)
Definition mid_varint (bs : list byte) : Prop :=
  Forall is_continuation bs /\ (length bs <= 10)%nat.

(** A field cut in its tag, in its varint value, in its length prefix or
    in its payload. *)
Inductive truncated_field : list byte -> Prop :=
| cut_tag c :
    c <> [] -> mid_varint c -> truncated_field c
| cut_value k c :
    idx_ok k = true -> mid_varint c ->
    truncated_field (varint_bytes (tag_key k VARINT) ++ c)
| cut_length k c :
    idx_ok k = true -> mid_varint c ->
    truncated_field (varint_bytes (tag_key k STRING) ++ c)
| cut_payload k len payload :
    idx_ok k = true -> Z.of_nat (length payload) < len < 2 ^ 77 ->
    truncated_field
      (varint_bytes (tag_key k STRING) ++ varint_bytes len ++ payload).

(** The value of the bytes of one varint, first byte lowest, and their
    shape: every byte but the last carries the continuation bit. *)
Fixpoint varint_value (c : list byte) : Z :=
  match c with
  | [] => 0
  | b :: c => Z.lor (Z.land (byte.unsigned b) 0x7F) (Z.shiftl (varint_value c) 7)
  end.

Fixpoint varint_shape (c : list byte) : Prop :=
  match c with
  | [] => False
  | [b] => byte.unsigned b < 0x80
  | b :: c => 0x80 <= byte.unsigned b /\ varint_shape c
  end.

(** [shortest c e]: the bytes [e] written for what was read from the
    bytes [c] are no longer than [c], and are [c] when as long. *)
Definition shortest (c e : list byte) : Prop :=
  (length e <= length c)%nat /\ (length e = length c -> e = c).

(** What a call of [_parseFields] has read when it returns: [e] is the
    end tag that closed the group, if one did, and [rest] the bytes left
    unread. *)
Definition closing (g : option Z) (b : bool) (e rest : list byte) : Prop :=
  match g, b with
  | Some k, true => shortest e (varint_bytes (tag_key k GROUPEND))
  | _, _ => e = [] /\ rest = []
  end.

(** [consumed self r g b self' r']: between the readers [r] and [r'] lie
    the bytes [c] of the fields [new] that were stored, then the end tag
    [e]; the fields serialize to [enc], the shortest bytes to read
    back as [new]. *)
Definition consumed (self : ProtoBuf) (r : ProtoReader) (g : option Z)
  (b : bool) (self' : ProtoBuf) (r' : ProtoReader) : Prop :=
  exists c e new enc,
    stream r = c ++ e ++ stream r' /\
    self' = self ++ new /\
    toBuf new = Ok enc /\
    shortest c enc /\
    closing g b e (stream r').

(** How a run can end on a buffer cut short: a read past the end, a
    group left open, or the end of the buffer between two fields. *)
Definition cut_outcome (res : result (bool * ProtoBuf * ProtoReader)) : Prop :=
  res = Raise IndexError \/
  (exists k, res = Raise (ProtoError (UnterminatedGroup k))) \/
  (exists b T, res = Ok (b, T, mkReader [])).

(** ** Vocabulary of the runs of the parser *)

(** More fuel does not change a run that ended. *)
Definition fuel_stable (f : nat) : Prop :=
  forall self r g res,
    _parseFields f self r g = res -> res <> OutOfFuel ->
    _parseFields (S f) self r g = res.

(** The outcome of a run with more fuel than unread bytes: it
    terminates, and the reader never moves backwards. *)
Definition terminated (r : ProtoReader)
  (res : result (bool * ProtoBuf * ProtoReader)) : Prop :=
  match res with
  | Ok (_, _, r') => (length (stream r') <= length (stream r))%nat
  | Raise _ => True
  | OutOfFuel => False
  end.

(** [replays bs fs]: a run on [bs ++ rest] ends like the run on [rest]
    that starts with the fields [fs] already stored. *)
Definition replays (bs : list byte) (fs : list ProtoField) : Prop :=
  forall fuel self rest g res,
    _parseFields fuel (self ++ fs) (mkReader rest) g = res ->
    res <> OutOfFuel ->
    exists fuel', _parseFields fuel' self (mkReader (bs ++ rest)) g = res.

(** [raises tail e]: reading [tail] raises [e], whatever was stored
    before and whatever group is being read. *)
Definition raises (tail : list byte) (e : Exc) : Prop :=
  forall self g, exists fuel, _parseFields fuel self (mkReader tail) g = Raise e.

(** Structural induction on trees. *)

Section ProtoField_induction.

Variable P : ProtoField -> Prop.
Hypothesis P_int : forall i t z, P (mkField i t (VInt z)).
Hypothesis P_bytes : forall i t bs, P (mkField i t (VBytes bs)).
Hypothesis P_pb : forall i t pb, Forall P pb -> P (mkField i t (VProtoBuf pb)).

Fixpoint ProtoField_tree_ind (f : ProtoField) : P f :=
  match f with
  | mkField i t v =>
      match v with
      | VInt z => P_int i t z
      | VBytes bs => P_bytes i t bs
      | VProtoBuf pb =>
          P_pb i t pb
            ((fix all (l : list ProtoField) : Forall P l :=
                match l with
                | [] => Forall_nil P
                | x :: l' => Forall_cons x (ProtoField_tree_ind x) (all l')
                end) pb)
      end
  end.

End ProtoField_induction.

(** [raises_in g tail e]: reading [tail] inside the group [g] (at top
    level for [None]) raises [e], whatever was stored before. *)
Definition raises_in (g : option Z) (tail : list byte) (e : Exc) : Prop :=
  forall self, exists fuel, _parseFields fuel self (mkReader tail) g = Raise e.

(** The group that is open after the start tags of [frames], read from
    inside [g]. *)
Fixpoint innermost (g : option Z) (frames : list (ProtoBuf * Z)) : option Z :=
  match frames with
  | [] => g
  | (_, k) :: frames => innermost (Some k) frames
  end.

(** The exceptions of a reader method. *)
Definition index_or_proto (e : Exc) : Prop :=
  e = IndexError \/ exists m, e = ProtoError m.

(** The group loop walks over serialized bytes, one unit of fuel per
    tag. *)
Definition skipped (bs : list byte) : Prop :=
  exists n, forall fuel depth rest, 0 < depth ->
    skipField_group (n + S fuel) (mkReader (bs ++ rest)) depth
    = skipField_group (S fuel) (mkReader rest) depth.

(** A run that returned, continued on more bytes. *)
Definition continued (self : ProtoBuf) (r : ProtoReader) (g : option Z)
  (b : bool) (T : ProtoBuf) (r' : ProtoReader) (s2 : list byte) : Prop :=
  match g, b with
  | Some _, true =>
      exists f, _parseFields f self (mkReader (stream r ++ s2)) g
                = Ok (true, T, mkReader (stream r' ++ s2))
  | _, _ =>
      forall f2 res,
        _parseFields f2 T (mkReader s2) g = res -> res <> OutOfFuel ->
        exists f, _parseFields f self (mkReader (stream r ++ s2)) g = res
  end.

(** The fields stored before a run are only ever appended to. *)
Definition with_prefix (pre : ProtoBuf)
  (res : result (bool * ProtoBuf * ProtoReader))
  : result (bool * ProtoBuf * ProtoReader) :=
  match res with
  | Ok (b, T, r) => Ok (b, pre ++ T, r)
  | Raise e => Raise e
  | OutOfFuel => OutOfFuel
  end.

(** [values_to_process] of [_parseDict]: [v if isinstance(v, list) else [v]]. *)
Definition values_of (v : PyObj) : list PyObj :=
  match v with
  | PList l => l
  | _ => [v]
  end.

(** The fields [_parseDict] stores: a varint, or a length-delimited
    field holding bytes, under a positive number. *)
Definition flat_field (f : ProtoField) : bool :=
  (0 <? idx f) &&
  match type f, val f with
  | VARINT, VInt _ => true
  | STRING, VBytes _ => true
  | _, _ => false
  end.

Definition is_int (o : PyObj) : bool :=
  match o with
  | PInt _ => true
  | _ => false
  end.

(** A dict value that is an integer, or a list of two or more. *)
Definition int_value (v : PyObj) : bool :=
  match v with
  | PInt _ => true
  | PList l => (2 <=? Z.of_nat (length l)) && forallb is_int l
  | _ => false
  end.

Definition int_entry (kv : Z * PyObj) : bool :=
  (0 <? fst kv) && int_value (snd kv).

Definition varint_fields (k : Z) (l : list PyObj) : list ProtoField :=
  flat_map (fun o => match o with
                     | PInt z => [mkField k VARINT (VInt z)]
                     | _ => []
                     end) l.

(** ** The call stack

    [_parseFields], [toBuf] and [toDictAuto] call themselves once per
    nested group or nested message, and the interpreter refuses with
    [RecursionError] the call that its stack no longer holds.  The
    definitions above let the calls nest without end; those of [Stack]
    are the same methods with the end of the stack: [limit] is the
    number of further calls that fit below the running method on its
    chain of recursive calls ([ProtoBuf(...)], [_parseFields], [toBuf],
    [toDictAuto]).  The helper calls a method makes ([isRemain],
    [readVarint], [put], ...) are taken to fit with it. *)
Module Stack.

Fixpoint _parseFields (limit fuel : nat) (self : ProtoBuf) (reader : ProtoReader)
  (group_idx_end : option Z) {struct fuel}
  : result (bool * ProtoBuf * ProtoReader) :=
  match fuel with
  | O => OutOfFuel
  | S fuel =>
    if isRemain reader 1 then
      '(key, reader) <- readVarint reader ;;
      let wire_type_val := Z.land key 0x7 in
      let field_idx := Z.shiftr key 3 in
      if field_idx =? 0 then Raise (ProtoError InvalidFieldIndex0)
      else
        match ProtoFieldType_of_value wire_type_val with
        | None =>
            match skipField (S (S (length (stream reader)))) reader wire_type_val with
            | Ok reader => _parseFields limit fuel self reader group_idx_end
            | Raise (ProtoError e) =>
                Raise (ProtoError (ErrorSkippingUnknownField field_idx wire_type_val e))
            | Raise IndexError =>
                Raise (ProtoError (TruncatedSkippingUnknownField field_idx wire_type_val))
            | Raise e => Raise e
            | OutOfFuel => OutOfFuel
            end
        | Some field_type =>
            if match group_idx_end with
               | Some g => type_eqb field_type GROUPEND && (field_idx =? g)
               | None => false
               end
            then Ok (true, self, reader)
            else
              match field_type with
              | VARINT =>
                  '(value, reader) <- readVarint reader ;;
                  _parseFields limit fuel
                    (put self (mkField field_idx field_type (VInt value)))
                    reader group_idx_end
              | INT64 =>
                  '(value, reader) <- readInt64 reader ;;
                  _parseFields limit fuel
                    (put self (mkField field_idx field_type (VInt value)))
                    reader group_idx_end
              | STRING =>
                  '(value, reader) <- readString reader ;;
                  _parseFields limit fuel
                    (put self (mkField field_idx field_type (VBytes value)))
                    reader group_idx_end
              | INT32 =>
                  '(value, reader) <- readInt32 reader ;;
                  _parseFields limit fuel
                    (put self (mkField field_idx field_type (VInt value)))
                    reader group_idx_end
              | GROUPSTART =>
                  match limit with
                  | O => Raise RecursionError
                  | S below =>
                      '(found_end, nested_pb, reader) <-
                        _parseFields below fuel [] reader (Some field_idx) ;;
                      if negb found_end
                      then Raise (ProtoError (UnterminatedGroup field_idx))
                      else
                        _parseFields limit fuel
                          (put self (mkField field_idx field_type (VProtoBuf nested_pb)))
                          reader group_idx_end
                  end
              | GROUPEND => Raise (ProtoError (UnexpectedGroupEnd field_idx))
              end
        end
    else
      match group_idx_end with
      | Some _ => Ok (false, self, reader)
      | None => Ok (true, self, reader)
      end
  end.

(** The body of [ProtoBuf.__init__(data)] for [bytes], [limit] calls
    fitting below its call of [_parseFields]: the [RecursionError] of a
    group nested deeper falls under [except Exception]. *)
Definition ProtoBuf_of_bytes (limit : nat) (data : list byte) : result ProtoBuf :=
  if Z.of_nat (length data) >? 0 then
    match _parseFields limit (S (length data)) [] (mkReader data) None with
    | Ok (_, self, _) => Ok self
    | Raise IndexError => Raise (ProtoError DataTruncated)
    | Raise (ProtoError e) => Raise (ProtoError (ParsingNear e))
    | Raise _ => Raise (ProtoError UnexpectedErrorParsing)
    | OutOfFuel => OutOfFuel
    end
  else Ok [].

(** The call [ProtoBuf(data)] made by a method below which [limit] calls
    fit: one for the constructor, one for its [_parseFields], which is
    inside the [try]. *)
Definition ProtoBuf_call (limit : nat) (data : list byte) : result ProtoBuf :=
  match limit with
  | O => Raise RecursionError
  | S below =>
      if Z.of_nat (length data) >? 0 then
        match below with
        | O => Raise (ProtoError UnexpectedErrorParsing)
        | S room => ProtoBuf_of_bytes room data
        end
      else Ok []
  end.

Fixpoint toBuf_field (limit : nat) (field : ProtoField) (writer : ProtoWriter)
  {struct field} : result ProtoWriter :=
  let toBuf_nested (fields : list ProtoField) : result (list byte) :=
    match limit with
    | O => Raise RecursionError
    | S below =>
        w <- (fix toBuf_loop (fields : list ProtoField) (writer : ProtoWriter)
                : result ProtoWriter :=
                match fields with
                | [] => Ok writer
                | field :: rest =>
                    writer <- toBuf_field below field writer ;; toBuf_loop rest writer
                end) fields (mkWriter []) ;;
        Ok (toBytes w)
    end in
  match field with
  | mkField idx type val =>
      let key := Z.lor (Z.shiftl idx 3) (Z.land (type_value type) 7) in
      writer <- writeVarint writer key ;;
      match type with
      | VARINT =>
          match val with
          | VInt v => writeVarint writer v
          | _ => Raise TypeError
          end
      | INT64 =>
          match val with
          | VInt v => writeInt64 writer v
          | _ => Raise AttributeError
          end
      | STRING =>
          val_bytes <-
            match val with
            | VProtoBuf pb => toBuf_nested pb
            | VBytes bs => Ok bs
            | VInt n => bytes_of_int n
            end ;;
          writeString writer val_bytes
      | INT32 =>
          match val with
          | VInt v => writeInt32 writer v
          | _ => Raise AttributeError
          end
      | GROUPSTART =>
          match val with
          | VProtoBuf pb =>
              group_bytes <- toBuf_nested pb ;;
              let writer := write writer group_bytes in
              let end_key :=
                Z.lor (Z.shiftl idx 3) (Z.land (type_value GROUPEND) 7) in
              writeVarint writer end_key
          | _ => Raise (ProtoError (GroupValueNotProtoBuf idx))
          end
      | GROUPEND => Ok writer
      end
  end.

Definition toBuf_loop (limit : nat)
  : list ProtoField -> ProtoWriter -> result ProtoWriter :=
  fix toBuf_loop (fields : list ProtoField) (writer : ProtoWriter) :=
    match fields with
    | [] => Ok writer
    | field :: rest =>
        writer <- toBuf_field limit field writer ;; toBuf_loop rest writer
    end.

Definition toBuf (limit : nat) (self : ProtoBuf) : result (list byte) :=
  w <- toBuf_loop limit self (mkWriter []) ;; Ok (toBytes w).

(** A nested [toBuf()] call. *)
Definition toBuf_call (limit : nat) (pb : ProtoBuf) : result (list byte) :=
  match limit with
  | O => Raise RecursionError
  | S below => toBuf below pb
  end.

Section ToDict.

Variable unicode_isprintable : Z -> bool.
Variable unicode_isspace : Z -> bool.

(** [toDictAuto]: the nested [toDictAuto()] calls are outside every
    [try] that would catch a [RecursionError]; the one of [ProtoBuf(...)]
    has become a [ProtoError] when it comes from the parse. *)
Fixpoint toDictAuto (limit : nat) (self : ProtoBuf) {struct limit} : result PyObj :=
  let nested (pb : ProtoBuf) : result PyObj :=
    match limit with
    | O => Raise RecursionError
    | S below => toDictAuto below pb
    end in
  let reparse (bs : list byte) : result (option PyObj) :=
    match ProtoBuf_call limit bs with
    | Ok nested_pb =>
        match nested_pb with
        | [] => Ok (Some (PBytes bs))
        | _ => d <- nested nested_pb ;; Ok (Some d)
        end
    | Raise (ProtoError _) => Ok (Some (PBytes bs))
    | Raise e => Raise e
    | OutOfFuel => OutOfFuel
    end in
  let toDictAuto_value (field : ProtoField) : result (option PyObj) :=
    match type field with
    | VARINT | INT64 | INT32 => Ok (Some (obj_of_val (val field)))
    | STRING =>
        match val field with
        | VBytes bs =>
            match utf8_decode bs with
            | Some decoded_str =>
                if forallb (fun c => isprintable unicode_isprintable c
                                     || isspace unicode_isspace c) decoded_str
                then Ok (Some (PStr decoded_str))
                else reparse bs
            | None => reparse bs
            end
        | _ => Raise AttributeError
        end
    | GROUPSTART =>
        match val field with
        | VProtoBuf pb => d <- nested pb ;; Ok (Some d)
        | _ => Ok (Some (PGroupError (idx field)))
        end
    | GROUPEND => Ok None
    end in
  let toDictAuto_loop :=
    fix loop (fields : list ProtoField) (intermediate : list (Z * list PyObj))
      : result (list (Z * list PyObj)) :=
      match fields with
      | [] => Ok intermediate
      | field :: rest =>
          value <- toDictAuto_value field ;;
          match value with
          | Some value => loop rest (dict_append intermediate (idx field) value)
          | None => loop rest intermediate
          end
      end in
  intermediate <- toDictAuto_loop self [] ;;
  Ok (PDict (collapse intermediate)).

(** A nested [toDictAuto()] call. *)
Definition toDictAuto_call (limit : nat) (pb : ProtoBuf) : result PyObj :=
  match limit with
  | O => Raise RecursionError
  | S below => toDictAuto below pb
  end.

(** The classification of one field and the loop of [toDictAuto], the
    calls it makes being [parse] and [rec]. *)
Definition reparse_with (parse : list byte -> result ProtoBuf)
  (rec : ProtoBuf -> result PyObj) (bs : list byte) : result (option PyObj) :=
  match parse bs with
  | Ok nested_pb =>
      match nested_pb with
      | [] => Ok (Some (PBytes bs))
      | _ => d <- rec nested_pb ;; Ok (Some d)
      end
  | Raise (ProtoError _) => Ok (Some (PBytes bs))
  | Raise e => Raise e
  | OutOfFuel => OutOfFuel
  end.

Definition value_with (parse : list byte -> result ProtoBuf)
  (rec : ProtoBuf -> result PyObj) (field : ProtoField) : result (option PyObj) :=
  match type field with
  | VARINT | INT64 | INT32 => Ok (Some (obj_of_val (val field)))
  | STRING =>
      match val field with
      | VBytes bs =>
          match utf8_decode bs with
          | Some decoded_str =>
              if forallb (fun c => isprintable unicode_isprintable c
                                   || isspace unicode_isspace c) decoded_str
              then Ok (Some (PStr decoded_str))
              else reparse_with parse rec bs
          | None => reparse_with parse rec bs
          end
      | _ => Raise AttributeError
      end
  | GROUPSTART =>
      match val field with
      | VProtoBuf pb => d <- rec pb ;; Ok (Some d)
      | _ => Ok (Some (PGroupError (idx field)))
      end
  | GROUPEND => Ok None
  end.

Definition loop_with (parse : list byte -> result ProtoBuf)
  (rec : ProtoBuf -> result PyObj)
  : list ProtoField -> list (Z * list PyObj) -> result (list (Z * list PyObj)) :=
  fix loop (fields : list ProtoField) (intermediate : list (Z * list PyObj)) :=
    match fields with
    | [] => Ok intermediate
    | field :: rest =>
        value <- value_with parse rec field ;;
        match value with
        | Some value => loop rest (dict_append intermediate (idx field) value)
        | None => loop rest intermediate
        end
    end.

End ToDict.

(** What one iteration of [_parseFields] does once the tag has been read
    and its wire type recognised. *)
Definition after_tag (limit fuel : nat) (self : ProtoBuf) (reader : ProtoReader)
  (group_idx_end : option Z) (field_idx : Z) (field_type : ProtoFieldType)
  : result (bool * ProtoBuf * ProtoReader) :=
  if match group_idx_end with
     | Some g => type_eqb field_type GROUPEND && (field_idx =? g)
     | None => false
     end
  then Ok (true, self, reader)
  else
    match field_type with
    | VARINT =>
        '(value, reader) <- readVarint reader ;;
        _parseFields limit fuel (put self (mkField field_idx field_type (VInt value)))
          reader group_idx_end
    | INT64 =>
        '(value, reader) <- readInt64 reader ;;
        _parseFields limit fuel (put self (mkField field_idx field_type (VInt value)))
          reader group_idx_end
    | STRING =>
        '(value, reader) <- readString reader ;;
        _parseFields limit fuel (put self (mkField field_idx field_type (VBytes value)))
          reader group_idx_end
    | INT32 =>
        '(value, reader) <- readInt32 reader ;;
        _parseFields limit fuel (put self (mkField field_idx field_type (VInt value)))
          reader group_idx_end
    | GROUPSTART =>
        match limit with
        | O => Raise RecursionError
        | S below =>
            '(found_end, nested_pb, reader) <-
              _parseFields below fuel [] reader (Some field_idx) ;;
            if negb found_end
            then Raise (ProtoError (UnterminatedGroup field_idx))
            else
              _parseFields limit fuel
                (put self (mkField field_idx field_type (VProtoBuf nested_pb)))
                reader group_idx_end
        end
    | GROUPEND => Raise (ProtoError (UnexpectedGroupEnd field_idx))
    end.

End Stack.

(** ** The export along a template

    [toDict(out_template)]: the [try] of the loop body catches
    [ProtoError] alone and keeps the template value; any other exception
    leaves the method.  [toDict_value] is the body of the [try] for one
    entry, the nested [toDict] call being on the template found there. *)
Definition keep_template (template_v : PyObj) (m : result PyObj) : result PyObj :=
  match m with
  | Raise (ProtoError _) => Ok template_v
  | r => r
  end.

Section Template.

Variable py_str : PyVal -> str.

Fixpoint toDict_value (template_v : PyObj) (self : ProtoBuf) (k : Z)
  : result PyObj :=
  match template_v with
  | PInt _ => v <- getInt self k ;; Ok (obj_of_val v)
  | PStr _ =>
      s <- getUtf8 py_str self k ;;
      Ok match s with Some s => PStr s | None => PNone end
  | PBytes _ =>
      bs <- getBytes py_str self k ;;
      Ok match bs with Some bs => PBytes bs | None => PNone end
  | PDict template =>
      nested_pb <- getProtoBuf self k ;;
      match nested_pb with
      | Some nested_pb =>
          out <-
            (fix toDict (out_template : list (Z * PyObj))
               : result (list (Z * PyObj)) :=
               match out_template with
               | [] => Ok []
               | (k, template_v) :: rest =>
                   v <-
                     (if k <=? 0 then Ok template_v
                      else
                        match get nested_pb k with
                        | None => Ok template_v
                        | Some _ =>
                            keep_template template_v
                              (toDict_value template_v nested_pb k)
                        end) ;;
                   out <- toDict rest ;; Ok ((k, v) :: out)
               end) template ;;
          Ok (PDict out)
      | None => Ok template_v
      end
  | PGroupError _ => nested_pb <- getProtoBuf self k ;; Ok template_v
  | PList _ | PProtoBuf _ | PNone | POther => Ok template_v
  end.

Fixpoint toDict (self : ProtoBuf) (out_template : list (Z * PyObj))
  : result (list (Z * PyObj)) :=
  match out_template with
  | [] => Ok []
  | (k, template_v) :: rest =>
      v <-
        (if k <=? 0 then Ok template_v
         else
           match get self k with
           | None => Ok template_v
           | Some _ => keep_template template_v (toDict_value template_v self k)
           end) ;;
      out <- toDict self rest ;; Ok ((k, v) :: out)
  end.

End Template.

(** A method that returns or raises a [ProtoError]. *)
Definition returns_or_ProtoError {A} (m : result A) : Prop :=
  match m with
  | Ok _ => True
  | Raise (ProtoError _) => True
  | _ => False
  end.

(** What [toDict] does to one entry of the template. *)
Definition template_entry (self : ProtoBuf) (kv kv' : Z * PyObj) : Prop :=
  fst kv' = fst kv /\
  (fst kv <= 0 \/ get self (fst kv) = None -> snd kv' = snd kv).

Section PyObj_induction.

Variable P : PyObj -> Prop.
Hypothesis P_int : forall z, P (PInt z).
Hypothesis P_str : forall s, P (PStr s).
Hypothesis P_bytes : forall bs, P (PBytes bs).
Hypothesis P_dict : forall items, Forall (fun kv => P (snd kv)) items -> P (PDict items).
Hypothesis P_list : forall l, Forall P l -> P (PList l).
Hypothesis P_pb : forall pb, P (PProtoBuf pb).
Hypothesis P_error : forall key, P (PGroupError key).
Hypothesis P_none : P PNone.
Hypothesis P_other : P POther.

Fixpoint PyObj_tree_ind (o : PyObj) : P o :=
  match o with
  | PInt z => P_int z
  | PStr s => P_str s
  | PBytes bs => P_bytes bs
  | PDict items =>
      P_dict items
        ((fix all (l : list (Z * PyObj)) : Forall (fun kv => P (snd kv)) l :=
            match l with
            | [] => Forall_nil _
            | (k, v) :: l' =>
                Forall_cons (P := fun kv => P (snd kv)) (k, v)
                  (PyObj_tree_ind v) (all l')
            end) items)
  | PList l =>
      P_list l
        ((fix all (l : list PyObj) : Forall P l :=
            match l with
            | [] => Forall_nil P
            | x :: l' => Forall_cons x (PyObj_tree_ind x) (all l')
            end) l)
  | PProtoBuf pb => P_pb pb
  | PGroupError key => P_error key
  | PNone => P_none
  | POther => P_other
  end.

End PyObj_induction.

(** A code point a Python [str] can hold and UTF-8 can carry: not a
    surrogate. *)
Definition scalar_value (c : Z) : bool :=
  in_range 0 0xD7FF c || in_range 0xE000 0x10FFFF c.

(** [ProtoField.isAsciiStr]: [val.decode('ascii')] raises on a byte
    above 0x7F; the characters accepted are the printable ASCII ones and
    newline, carriage return and tab. *)
Definition isAsciiStr (f : ProtoField) : bool :=
  match val f with
  | VBytes bs =>
      if forallb (fun b => byte.unsigned b <? 0x80) bs then
        forallb (fun b =>
                   let c := byte.unsigned b in
                   in_range 0x20 0x7E c || (c =? 0x0A) || (c =? 0x0D) || (c =? 0x09))
          bs
      else false
  | _ => false
  end.

(* ================================================================= *)
(** * Properties *)

(** Bitwise equalities: bit-blast, then discard the bits at negative
    positions. *)
Ltac zbits :=
  Z.bitblast;
  repeat match goal with
         | |- context [Z.testbit ?a ?l] =>
             rewrite (Z.testbit_neg_r a l) by lia
         end;
  cbn [negb andb orb]; try btauto.

(** Linear arithmetic over boolean comparisons: turn the tests into
    propositions first. *)
Ltac bool2prop :=
  repeat match goal with
         | H : (_ >? _) = _ |- _ => rewrite Z.gtb_ltb in H
         | H : (_ >=? _) = _ |- _ => rewrite Z.geb_leb in H
         | H : (_ <=? _) = true |- _ => apply Z.leb_le in H
         | H : (_ <=? _) = false |- _ => apply Z.leb_gt in H
         | H : (_ <? _) = true |- _ => apply Z.ltb_lt in H
         | H : (_ <? _) = false |- _ => apply Z.ltb_ge in H
         | H : (_ =? _) = true |- _ => apply Z.eqb_eq in H
         | H : (_ =? _) = false |- _ => apply Z.eqb_neq in H
         end.
Ltac blia := bool2prop; first [lia | exfalso; lia].

Section Varint.

Lemma shiftr7_pos v : 0 < v -> 0 <= Z.shiftr v 7 < v.
Proof.
  intros Hv. rewrite Z.shiftr_div_pow2 by lia.
  change (2 ^ 7) with 128. split.
  - apply Z.div_pos; lia.
  - apply Z.div_lt; lia.
Qed.

Lemma shiftr7_pos_inv v : 0 < Z.shiftr v 7 -> 128 <= v.
Proof.
  rewrite Z.shiftr_div_pow2 by lia. change (2 ^ 7) with 128.
  intros H. Z.to_euclidean_division_equations. lia.
Qed.

Lemma log2_shiftr7 v : 0 < Z.shiftr v 7 -> Z.log2 (Z.shiftr v 7) = Z.log2 v - 7.
Proof.
  intros H. pose proof (shiftr7_pos_inv v H) as Hv.
  rewrite Z.log2_shiftr by lia.
  pose proof (Z.log2_le_mono 128 v Hv) as Hl.
  change (Z.log2 128) with 7 in Hl. lia.
Qed.

Lemma writeVarint_loop_groups fuel : forall w v,
  (v <= 0 \/ Z.log2 v < Z.of_nat fuel) ->
  writeVarint_loop fuel w v = Ok (mkWriter (data w ++ varint_groups fuel v)).
Proof.
  induction fuel as [|fuel IH]; intros w v Hf; cbn [writeVarint_loop varint_groups].
  - destruct (v >? 0) eqn:E.
    + pose proof (Z.log2_nonneg v). lia.
    + rewrite app_nil_r. destruct w; reflexivity.
  - destruct (v >? 0) eqn:E.
    + rewrite IH.
      * cbn [write0 data]. rewrite <- app_assoc. reflexivity.
      * destruct (Z.shiftr v 7 >? 0) eqn:E2; [right|left; lia].
        rewrite log2_shiftr7 by lia. lia.
    + rewrite app_nil_r. destruct w; reflexivity.
Qed.

Lemma writeVarint_bytes w v :
  writeVarint w v = Ok (mkWriter (data w ++ varint_bytes v)).
Proof.
  unfold writeVarint, varint_bytes. destruct (v =? 0) eqn:E.
  - reflexivity.
  - apply writeVarint_loop_groups.
    destruct (Z_le_gt_dec v 0); [left; lia|right].
    pose proof (Z.log2_nonneg v). lia.
Qed.

Lemma glue_groups acc v n : 0 <= n ->
  Z.lor (Z.lor acc (Z.shiftl (Z.land v 127) (7 * n)))
        (Z.shiftl (Z.shiftr v 7) (7 * (n + 1)))
  = Z.lor acc (Z.shiftl v (7 * n)).
Proof.
  intros. change 127 with (Z.ones 7). zbits.
Qed.

Lemma low7_continuation v :
  Z.land (Z.land (Z.lor (Z.land v 127) 128) 255) 127 = Z.land v 127.
Proof.
  change 127 with (Z.ones 7). change 255 with (Z.ones 8).
  change 128 with (Z.shiftl 1 7). zbits.
Qed.

Lemma unsigned_of_Z_land z :
  byte.unsigned (byte.of_Z (Z.land z 0xFF)) = Z.land z 0xFF.
Proof.
  rewrite byte.unsigned_of_Z. unfold byte.wrap.
  change 255 with (Z.ones 8). rewrite Z.land_ones by lia.
  apply Z.mod_mod. lia.
Qed.

Lemma continuation_range v :
  128 <= Z.land (Z.lor (Z.land v 127) 128) 255 < 256.
Proof.
  change 127 with (Z.ones 7). change 255 with (Z.ones 8).
  rewrite !Z.land_ones by lia.
  rewrite Z.or_to_plus.
  - change (2^7) with 128. change (2^8) with 256.
    pose proof (Z.mod_pos_bound v 128 ltac:(lia)).
    rewrite Z.mod_small; lia.
  - rewrite <- Z.land_ones by lia. change 128 with (Z.shiftl 1 7). zbits.
Qed.

Lemma final_group v : 0 <= v < 128 -> Z.land (Z.land v 127) 255 = v.
Proof.
  intros Hv. change 127 with (Z.ones 7). change 255 with (Z.ones 8).
  rewrite !Z.land_ones by lia. change (2^7) with 128. change (2^8) with 256.
  rewrite (Z.mod_small v 128) by lia. apply Z.mod_small. lia.
Qed.

Lemma shiftr7_zero v : 0 < v -> Z.shiftr v 7 <= 0 -> v < 128.
Proof.
  rewrite Z.shiftr_div_pow2 by lia. change (2 ^ 7) with 128.
  intros. Z.to_euclidean_division_equations. lia.
Qed.

Lemma shiftr7_bound v k : 0 <= k -> 0 < v -> v < 2 ^ (7 * (k + 1)) ->
  Z.shiftr v 7 < 2 ^ (7 * k).
Proof.
  intros Hk Hv Hb. rewrite Z.shiftr_div_pow2 by lia.
  apply Z.div_lt_upper_bound; [lia|].
  rewrite <- Z.pow_add_r by lia. replace (7 + 7 * k) with (7 * (k + 1)) by lia.
  exact Hb.
Qed.

(** Reading back the groups written by the loop of [writeVarint]. *)
Lemma readVarint_loop_groups fuel : forall v rest acc n,
  0 < v -> Z.log2 v < Z.of_nat fuel -> 0 <= n <= 10 ->
  v < 2 ^ (7 * (11 - n)) ->
  readVarint_loop (varint_groups fuel v ++ rest) acc n
  = Ok (Z.lor acc (Z.shiftl v (7 * n)), mkReader rest).
Proof.
  induction fuel as [|fuel IH]; intros v rest acc n Hv Hf Hn Hb.
  - pose proof (Z.log2_nonneg v). lia.
  - cbn [varint_groups]. destruct (v >? 0) eqn:E; [|lia].
    destruct (Z.shiftr v 7 >? 0) eqn:E2.
    + cbn [app readVarint_loop]. rewrite unsigned_of_Z_land.
      pose proof (continuation_range v) as Hc.
      destruct (_ <? 128) eqn:E3; [lia|].
      assert (n < 10).
      { assert (n = 10 \/ n < 10) as [->|] by lia; [|assumption].
        pose proof (shiftr7_pos_inv v ltac:(lia)).
        change (2 ^ (7 * (11 - 10))) with 128 in Hb. lia. }
      destruct (n + 1 >? 10) eqn:E4; [lia|].
      rewrite IH.
      * rewrite low7_continuation. rewrite glue_groups by lia. reflexivity.
      * lia.
      * rewrite log2_shiftr7 by lia. lia.
      * lia.
      * replace (11 - (n + 1)) with (10 - n) by lia.
        apply shiftr7_bound; try lia.
        replace (10 - n + 1) with (11 - n) by lia. exact Hb.
    + pose proof (shiftr7_zero v ltac:(lia) ltac:(lia)) as Hs.
      assert (varint_groups fuel (Z.shiftr v 7) = []) as ->.
      { destruct fuel; cbn [varint_groups]; rewrite E2; reflexivity. }
      cbn [app readVarint_loop]. rewrite unsigned_of_Z_land.
      rewrite final_group by lia.
      destruct (v <? 128) eqn:E3; [|lia].
      change 127 with (Z.ones 7). rewrite Z.land_ones by lia.
      change (2^7) with 128. rewrite Z.mod_small by lia. reflexivity.
Qed.

Lemma readVarint_varint_bytes v rest :
  0 <= v < 2 ^ 77 ->
  readVarint (mkReader (varint_bytes v ++ rest)) = Ok (v, mkReader rest).
Proof.
  intros Hv. unfold readVarint, varint_bytes. cbn [stream].
  destruct (v =? 0) eqn:E.
  - assert (v = 0) as -> by lia. reflexivity.
  - pose proof (Z.log2_nonneg v).
    rewrite readVarint_loop_groups; try lia; try apply Hv.
    rewrite Z.shiftl_0_r. reflexivity.
Qed.

Lemma varint_groups_length fuel : forall v,
  0 < v -> Z.log2 v < Z.of_nat fuel ->
  Z.of_nat (length (varint_groups fuel v)) = (Z.log2 v + 7) / 7.
Proof.
  induction fuel as [|fuel IH]; intros v Hv Hf.
  - pose proof (Z.log2_nonneg v). lia.
  - cbn [varint_groups]. destruct (v >? 0) eqn:E; [|lia].
    cbn [length]. rewrite Nat2Z.inj_succ.
    destruct (Z.shiftr v 7 >? 0) eqn:E2.
    + rewrite IH by (rewrite ?log2_shiftr7; lia).
      rewrite log2_shiftr7 by lia.
      pose proof (shiftr7_pos_inv v ltac:(lia)) as H128.
      pose proof (Z.log2_le_mono 128 v H128) as Hl.
      change (Z.log2 128) with 7 in Hl.
      Z.to_euclidean_division_equations. lia.
    + assert (varint_groups fuel (Z.shiftr v 7) = []) as ->.
      { destruct fuel; cbn [varint_groups]; rewrite E2; reflexivity. }
      cbn [length].
      pose proof (shiftr7_zero v ltac:(lia) ltac:(lia)) as Hs.
      assert (Z.log2 v < 7) by (apply Z.log2_lt_pow2; [lia|exact Hs]).
      pose proof (Z.log2_nonneg v).
      Z.to_euclidean_division_equations. lia.
Qed.

Lemma varint_bytes_length v :
  0 <= v ->
  Z.of_nat (length (varint_bytes v)) = Z.max 1 ((bit_length v + 6) / 7).
Proof.
  intros Hv. unfold varint_bytes, bit_length. destruct (v =? 0) eqn:E.
  - reflexivity.
  - pose proof (Z.log2_nonneg v).
    rewrite varint_groups_length by lia.
    replace (Z.log2 v + 1 + 6) with (Z.log2 v + 7) by lia.
    Z.to_euclidean_division_equations. lia.
Qed.

Lemma varint_bytes_neg v : v < 0 -> varint_bytes v = [].
Proof.
  intros Hv. unfold varint_bytes. destruct (v =? 0) eqn:E; [lia|].
  destruct (Z.to_nat _); cbn [varint_groups];
    destruct (v >? 0) eqn:E2; (lia || reflexivity).
Qed.

Lemma varint_bytes_nonempty v : 0 <= v -> varint_bytes v <> [].
Proof.
  intros Hv Hn. pose proof (varint_bytes_length v Hv) as Hl.
  rewrite Hn in Hl. cbn [length] in Hl. lia.
Qed.

(** More than ten continuation bytes in a row are refused. *)
Lemma readVarint_loop_too_long cont : forall rest acc n,
  Forall is_continuation cont -> 0 <= n <= 10 ->
  10 < n + Z.of_nat (length cont) ->
  readVarint_loop (cont ++ rest) acc n = Raise (ProtoError VarintTooLong).
Proof.
  induction cont as [|b cont IH]; intros rest acc n Hc Hn Hl.
  - cbn [length] in Hl. lia.
  - inversion Hc as [|? ? Hb Hc']; subst. unfold is_continuation in Hb.
    cbn [app readVarint_loop].
    destruct (byte.unsigned b <? 128) eqn:E; [lia|].
    destruct (n + 1 >? 10) eqn:E2; [reflexivity|].
    apply IH; [assumption|lia|].
    cbn [length] in Hl. lia.
Qed.

End Varint.

(** ** The writer only appends *)

Section Writer.

Lemma bind_Ok {A B} (a : A) (k : A -> result B) : bind (Ok a) k = k a.
Proof. reflexivity. Qed.

Lemma bind_assoc {A B C} (m : result A) (k : A -> result B) (h : B -> result C) :
  bind (bind m k) h = bind m (fun a => bind (k a) h).
Proof. destruct m; reflexivity. Qed.

Lemma bind_Ok_inv {A B} (m : result A) (k : A -> result B) b :
  bind m k = Ok b -> exists a, m = Ok a /\ k a = Ok b.
Proof. destruct m; cbn; intros H; try discriminate. eauto. Qed.

Lemma toBuf_field_eq idx type val writer :
  toBuf_field (mkField idx type val) writer =
  (writer <- writeVarint writer (tag_key idx type) ;;
   match type with
   | VARINT =>
       match val with
       | VInt v => writeVarint writer v
       | _ => Raise TypeError
       end
   | INT64 =>
       match val with
       | VInt v => writeInt64 writer v
       | _ => Raise AttributeError
       end
   | STRING =>
       val_bytes <-
         match val with
         | VProtoBuf pb => toBuf pb
         | VBytes bs => Ok bs
         | VInt n => bytes_of_int n
         end ;;
       writeString writer val_bytes
   | INT32 =>
       match val with
       | VInt v => writeInt32 writer v
       | _ => Raise AttributeError
       end
   | GROUPSTART =>
       match val with
       | VProtoBuf pb =>
           group_bytes <- toBuf pb ;;
           writeVarint (write writer group_bytes) (tag_key idx GROUPEND)
       | _ => Raise (ProtoError (GroupValueNotProtoBuf idx))
       end
   | GROUPEND => Ok writer
   end).
Proof.
  destruct type, val; try reflexivity.
  cbn [toBuf_field]. unfold toBuf. fold toBuf_loop.
  destruct (writeVarint writer _); try reflexivity. cbn [bind].
  destruct (toBuf_loop fields _); reflexivity.
Qed.

Lemma writeString_bytes w bs :
  writeString w bs
  = Ok (mkWriter (data w ++ varint_bytes (Z.of_nat (length bs)) ++ bs)).
Proof.
  unfold writeString. rewrite writeVarint_bytes. unfold bind, write.
  cbn [data]. rewrite <- app_assoc. reflexivity.
Qed.

Ltac writer_norm :=
  unfold writeInt64, writeInt32;
  repeat first
    [ rewrite writeVarint_bytes
    | rewrite writeString_bytes
    | progress cbn [bind data app]
    | progress unfold write, toBytes ];
  rewrite <- ?app_assoc, ?app_nil_r.

(** What [toBuf] writes for a field does not depend on the writer. *)
Lemma toBuf_field_frame f w :
  toBuf_field f w = (bs <- field_bytes f ;; Ok (mkWriter (data w ++ bs))).
Proof.
  unfold field_bytes. destruct f as [i t v].
  rewrite !toBuf_field_eq. writer_norm.
  destruct t, v; writer_norm; try reflexivity;
    match goal with
    | |- context [to_bytes_little ?n ?z] => destruct (to_bytes_little n z)
    | |- context [bytes_of_int ?z] => destruct (bytes_of_int z)
    | |- context [toBuf ?fs] => destruct (toBuf fs)
    end; writer_norm; reflexivity.
Qed.

Lemma toBuf_loop_frame fs : forall w,
  toBuf_loop fs w = (bs <- toBuf fs ;; Ok (mkWriter (data w ++ bs))).
Proof.
  unfold toBuf. induction fs as [|f fs IH]; intros w.
  - cbn. rewrite app_nil_r. destruct w; reflexivity.
  - cbn [toBuf_loop]. rewrite (toBuf_field_frame f w).
    rewrite (toBuf_field_frame f (mkWriter [])).
    destruct (field_bytes f) as [b1| |]; cbn [bind data app]; try reflexivity.
    rewrite (IH (mkWriter (data w ++ b1))), (IH (mkWriter b1)).
    destruct (toBuf_loop fs (mkWriter [])) as [w2| |]; cbn [bind data toBytes];
      try reflexivity.
    rewrite app_assoc. reflexivity.
Qed.

Lemma toBuf_nil : toBuf [] = Ok [].
Proof. reflexivity. Qed.

Lemma toBuf_cons f fs :
  toBuf (f :: fs) = (b1 <- field_bytes f ;; b2 <- toBuf fs ;; Ok (b1 ++ b2)).
Proof.
  unfold toBuf at 1. cbn [toBuf_loop]. rewrite toBuf_field_frame.
  destruct (field_bytes f) as [b1| |]; cbn [bind data app]; try reflexivity.
  rewrite toBuf_loop_frame.
  destruct (toBuf fs); reflexivity.
Qed.

Lemma toBuf_app fs1 fs2 :
  toBuf (fs1 ++ fs2) = (b1 <- toBuf fs1 ;; b2 <- toBuf fs2 ;; Ok (b1 ++ b2)).
Proof.
  induction fs1 as [|f fs1 IH]; cbn [app].
  - rewrite toBuf_nil. cbn [bind]. destruct (toBuf fs2); reflexivity.
  - rewrite !toBuf_cons, IH.
    destruct (field_bytes f); cbn [bind]; try reflexivity.
    destruct (toBuf fs1); cbn [bind]; try reflexivity.
    destruct (toBuf fs2); cbn [bind]; try reflexivity.
    rewrite app_assoc. reflexivity.
Qed.

Lemma field_bytes_eq i t v :
  field_bytes (mkField i t v) =
  match t, v with
  | VARINT, VInt z => Ok (varint_bytes (tag_key i VARINT) ++ varint_bytes z)
  | VARINT, _ => Raise TypeError
  | INT64, VInt z =>
      bs <- to_bytes_little 8 z ;; Ok (varint_bytes (tag_key i INT64) ++ bs)
  | INT32, VInt z =>
      bs <- to_bytes_little 4 z ;; Ok (varint_bytes (tag_key i INT32) ++ bs)
  | INT64, _ | INT32, _ => Raise AttributeError
  | STRING, v =>
      bs <- match v with
            | VProtoBuf pb => toBuf pb
            | VBytes bs => Ok bs
            | VInt n => bytes_of_int n
            end ;;
      Ok (varint_bytes (tag_key i STRING)
          ++ varint_bytes (Z.of_nat (length bs)) ++ bs)
  | GROUPSTART, VProtoBuf pb =>
      g <- toBuf pb ;;
      Ok (varint_bytes (tag_key i GROUPSTART) ++ g
          ++ varint_bytes (tag_key i GROUPEND))
  | GROUPSTART, _ => Raise (ProtoError (GroupValueNotProtoBuf i))
  | GROUPEND, _ => Ok (varint_bytes (tag_key i GROUPEND))
  end.
Proof.
  unfold field_bytes. rewrite toBuf_field_eq. writer_norm.
  destruct t, v; writer_norm; try reflexivity;
    match goal with
    | |- context [to_bytes_little ?n ?z] => destruct (to_bytes_little n z)
    | |- context [bytes_of_int ?z] => destruct (bytes_of_int z)
    | |- context [toBuf ?fs] => destruct (toBuf fs)
    end; writer_norm; reflexivity.
Qed.

End Writer.

(** ** The parser *)

Section Parser.

Lemma _parseFields_S fuel self reader group_idx_end :
  _parseFields (S fuel) self reader group_idx_end =
  if isRemain reader 1 then
    '(key, reader) <- readVarint reader ;;
    if Z.shiftr key 3 =? 0 then Raise (ProtoError InvalidFieldIndex0)
    else
      match ProtoFieldType_of_value (Z.land key 0x7) with
      | None =>
          match skipField (S (S (length (stream reader)))) reader (Z.land key 0x7) with
          | Ok reader => _parseFields fuel self reader group_idx_end
          | Raise (ProtoError e) =>
              Raise (ProtoError
                       (ErrorSkippingUnknownField (Z.shiftr key 3) (Z.land key 0x7) e))
          | Raise IndexError =>
              Raise (ProtoError
                       (TruncatedSkippingUnknownField (Z.shiftr key 3) (Z.land key 0x7)))
          | Raise e => Raise e
          | OutOfFuel => OutOfFuel
          end
      | Some field_type =>
          after_tag fuel self reader group_idx_end (Z.shiftr key 3) field_type
      end
  else
    match group_idx_end with
    | Some _ => Ok (false, self, reader)
    | None => Ok (true, self, reader)
    end.
Proof. reflexivity. Qed.

Lemma skipField_unknown fuel r wt :
  ProtoFieldType_of_value wt = None ->
  skipField (S fuel) r wt = Raise (ProtoError (CannotSkipUnknownWireType wt)).
Proof.
  unfold ProtoFieldType_of_value. cbn [skipField type_value].
  repeat match goal with
         | |- context [?a =? ?b] => destruct (a =? b); [discriminate|]
         end.
  reflexivity.
Qed.

(** *** Fuel: more is never different, and the length of the input is
    enough *)

Lemma after_tag_stable f self r g i t res :
  fuel_stable f ->
  after_tag f self r g i t = res -> res <> OutOfFuel ->
  after_tag (S f) self r g i t = res.
Proof.
  intros IH. unfold after_tag.
  destruct (match g with Some g0 => _ | None => false end); [trivial|].
  destruct t.
  - destruct (readVarint r) as [[v r']| |]; cbn [bind]; auto.
  - destruct (readInt64 r) as [[v r']| |]; cbn [bind]; auto.
  - destruct (readString r) as [[v r']| |]; cbn [bind]; auto.
  - destruct (_parseFields f [] r (Some i)) as [[[b n] r']| |] eqn:E.
    + rewrite (IH _ _ _ _ E ltac:(discriminate)). cbn [bind].
      destruct (negb b); auto.
    + rewrite (IH _ _ _ _ E ltac:(discriminate)). cbn [bind]. trivial.
    + cbn [bind]. intros <- H. congruence.
  - trivial.
  - destruct (readInt32 r) as [[v r']| |]; cbn [bind]; auto.
Qed.

Lemma parse_fuel_S f : fuel_stable f.
Proof.
  induction f as [|f IH]; intros self r g res H Hres.
  - cbn in H. congruence.
  - rewrite _parseFields_S in H. rewrite _parseFields_S.
    destruct (isRemain r 1); [|exact H].
    destruct (readVarint r) as [[key r']| |]; cbn [bind] in *; [|exact H|exact H].
    destruct (Z.shiftr key 3 =? 0); [exact H|].
    destruct (ProtoFieldType_of_value (Z.land key 7)) as [t|].
    + apply after_tag_stable; assumption.
    + destruct (skipField _ r' _) as [r''|e|]; [|exact H|exact H].
      apply IH; assumption.
Qed.

Lemma parse_fuel_mono f f' self r g res :
  _parseFields f self r g = res -> res <> OutOfFuel -> (f <= f')%nat ->
  _parseFields f' self r g = res.
Proof.
  intros H Hres Hle. induction Hle as [|f' Hle IH]; [assumption|].
  apply parse_fuel_S; assumption.
Qed.

(** Two runs that both terminate agree. *)
Lemma parse_fuel_agree f1 f2 self r g res1 res2 :
  _parseFields f1 self r g = res1 -> res1 <> OutOfFuel ->
  _parseFields f2 self r g = res2 -> res2 <> OutOfFuel ->
  res1 = res2.
Proof.
  intros H1 Hn1 H2 Hn2.
  apply (parse_fuel_mono _ (Nat.max f1 f2)) in H1; [|assumption|lia].
  apply (parse_fuel_mono _ (Nat.max f1 f2)) in H2; [|assumption|lia].
  congruence.
Qed.

Lemma readVarint_loop_shorter s : forall acc n v r',
  readVarint_loop s acc n = Ok (v, r') ->
  (length (stream r') < length s)%nat.
Proof.
  induction s as [|b s IH]; intros acc n v r' H; cbn [readVarint_loop] in H.
  - discriminate.
  - destruct (byte.unsigned b <? 128).
    + injection H as <- <-. cbn. lia.
    + destruct (n + 1 >? 10); [discriminate|].
      apply IH in H. cbn [length]. lia.
Qed.

Lemma readVarint_shorter r v r' :
  readVarint r = Ok (v, r') -> (length (stream r') < length (stream r))%nat.
Proof. apply readVarint_loop_shorter. Qed.

Lemma read_shorter r n bs r' :
  read r n = Ok (bs, r') -> (length (stream r') <= length (stream r))%nat.
Proof.
  unfold read. destruct (isRemain r n); [|discriminate].
  destruct (n <? 0); intros H; injection H as <- <-; cbn [stream length].
  - lia.
  - rewrite length_skipn. lia.
Qed.

Lemma readInt32_shorter r v r' :
  readInt32 r = Ok (v, r') -> (length (stream r') <= length (stream r))%nat.
Proof.
  unfold readInt32. destruct (read r 4) as [[bs r0]| |] eqn:E; cbn [bind]; try discriminate.
  intros H; injection H as <- <-. eapply read_shorter; eassumption.
Qed.

Lemma readInt64_shorter r v r' :
  readInt64 r = Ok (v, r') -> (length (stream r') <= length (stream r))%nat.
Proof.
  unfold readInt64. destruct (read r 8) as [[bs r0]| |] eqn:E; cbn [bind]; try discriminate.
  intros H; injection H as <- <-. eapply read_shorter; eassumption.
Qed.

Lemma readString_shorter r v r' :
  readString r = Ok (v, r') -> (length (stream r') <= length (stream r))%nat.
Proof.
  unfold readString. destruct (readVarint r) as [[n r0]| |] eqn:E; cbn [bind]; try discriminate.
  destruct (n <? 0); [discriminate|]. intros H.
  apply read_shorter in H. apply readVarint_shorter in E. lia.
Qed.

Lemma readVarint_loop_fuel s : forall acc n, readVarint_loop s acc n <> OutOfFuel.
Proof.
  induction s as [|b s IH]; intros acc n; cbn [readVarint_loop].
  - discriminate.
  - destruct (_ <? 128); [discriminate|].
    destruct (_ >? 10); [discriminate|]. apply IH.
Qed.

Lemma readVarint_fuel r : readVarint r <> OutOfFuel.
Proof. apply readVarint_loop_fuel. Qed.

Lemma read_fuel r n : read r n <> OutOfFuel.
Proof.
  unfold read. destruct (isRemain r n); [|discriminate].
  destruct (n <? 0); discriminate.
Qed.

Lemma readInt32_fuel r : readInt32 r <> OutOfFuel.
Proof.
  unfold readInt32. pose proof (read_fuel r 4).
  destruct (read r 4) as [[bs r0]| |]; cbn [bind]; congruence.
Qed.

Lemma readInt64_fuel r : readInt64 r <> OutOfFuel.
Proof.
  unfold readInt64. pose proof (read_fuel r 8).
  destruct (read r 8) as [[bs r0]| |]; cbn [bind]; congruence.
Qed.

Lemma readString_fuel r : readString r <> OutOfFuel.
Proof.
  unfold readString. pose proof (readVarint_fuel r).
  destruct (readVarint r) as [[n r0]| |]; cbn [bind]; try congruence.
  destruct (n <? 0); [discriminate|]. apply read_fuel.
Qed.

Lemma terminated_weaken r0 r res :
  (length (stream r) <= length (stream r0))%nat ->
  terminated r res -> terminated r0 res.
Proof.
  destruct res as [[[b s] r']| |]; cbn; intros; try assumption. lia.
Qed.

Lemma parse_enough f : forall self r g,
  (length (stream r) < f)%nat -> terminated r (_parseFields f self r g).
Proof.
  induction f as [|f IH]; intros self r g Hf; [lia|].
  rewrite _parseFields_S.
  destruct (isRemain r 1).
  2:{ destruct g; cbn; lia. }
  destruct (readVarint r) as [[key r']| |] eqn:Ek; cbn [bind]; [|exact I|].
  2:{ exact (readVarint_fuel _ Ek). }
  apply readVarint_shorter in Ek.
  destruct (Z.shiftr key 3 =? 0); [exact I|].
  destruct (ProtoFieldType_of_value (Z.land key 7)) as [t|] eqn:Et.
  - unfold after_tag.
    destruct (match g with Some g0 => _ | None => false end); [cbn; lia|].
    assert (Hrec : forall self' r1, (length (stream r1) <= length (stream r'))%nat ->
                     terminated r (_parseFields f self' r1 g)).
    { intros self' r1 Hle. eapply terminated_weaken; [|apply IH; lia]. lia. }
    destruct t.
    + destruct (readVarint r') as [[v r1]| |] eqn:E; cbn [bind]; [|exact I|].
      * apply Hrec. apply readVarint_shorter in E. lia.
      * exact (readVarint_fuel _ E).
    + destruct (readInt64 r') as [[v r1]| |] eqn:E; cbn [bind]; [|exact I|].
      * apply Hrec. apply readInt64_shorter in E. lia.
      * exact (readInt64_fuel _ E).
    + destruct (readString r') as [[v r1]| |] eqn:E; cbn [bind]; [|exact I|].
      * apply Hrec. apply readString_shorter in E. lia.
      * exact (readString_fuel _ E).
    + pose proof (IH [] r' (Some (Z.shiftr key 3)) ltac:(lia)) as Hn.
      destruct (_parseFields f [] r' (Some (Z.shiftr key 3))) as [[[b n] r1]| |];
        cbn [bind]; cbn in Hn; [|exact I|contradiction].
      destruct (negb b); [exact I|]. apply Hrec. lia.
    + exact I.
    + destruct (readInt32 r') as [[v r1]| |] eqn:E; cbn [bind]; [|exact I|].
      * apply Hrec. apply readInt32_shorter in E. lia.
      * exact (readInt32_fuel _ E).
  - rewrite skipField_unknown by assumption. exact I.
Qed.

(** *** Tags *)

Lemma tag_key_add i t : tag_key i t = 8 * i + type_value t.
Proof.
  unfold tag_key. rewrite Z.or_to_plus.
  - rewrite Z.shiftl_mul_pow2 by lia.
    replace (Z.land (type_value t) 7) with (type_value t)
      by (destruct t; reflexivity).
    change (2 ^ 3) with 8. lia.
  - change 7 with (Z.ones 3). zbits.
Qed.

Lemma type_value_range t : 0 <= type_value t < 8.
Proof. destruct t; cbn; lia. Qed.

Lemma tag_key_shiftr i t : Z.shiftr (tag_key i t) 3 = i.
Proof.
  rewrite tag_key_add, Z.shiftr_div_pow2 by lia. change (2 ^ 3) with 8.
  pose proof (type_value_range t). Z.to_euclidean_division_equations. lia.
Qed.

Lemma tag_key_land i t : Z.land (tag_key i t) 7 = type_value t.
Proof.
  rewrite tag_key_add. change 7 with (Z.ones 3). rewrite Z.land_ones by lia.
  change (2 ^ 3) with 8.
  pose proof (type_value_range t). Z.to_euclidean_division_equations. lia.
Qed.

Lemma ProtoFieldType_of_type_value t :
  ProtoFieldType_of_value (type_value t) = Some t.
Proof. destruct t; reflexivity. Qed.

Lemma idx_ok_spec i : idx_ok i = true <-> 0 < i < 2 ^ 74.
Proof. unfold idx_ok. rewrite andb_true_iff. lia. Qed.

Lemma tag_key_range i t : idx_ok i = true -> 0 <= tag_key i t < 2 ^ 77.
Proof.
  rewrite idx_ok_spec, tag_key_add. pose proof (type_value_range t).
  change (2 ^ 77) with (8 * 2 ^ 74). intros Hi. lia.
Qed.

Lemma isRemain_app bs rest :
  bs <> [] -> isRemain (mkReader (bs ++ rest)) 1 = true.
Proof.
  intros H. unfold isRemain. cbn [stream]. destruct bs; [congruence|].
  apply Z.leb_le. cbn [app length]. rewrite Nat2Z.inj_succ. lia.
Qed.

(** Reading the tag [toBuf] wrote. *)
Lemma parse_tag fuel self i t rest g :
  idx_ok i = true ->
  _parseFields (S fuel) self (mkReader (varint_bytes (tag_key i t) ++ rest)) g
  = after_tag fuel self (mkReader rest) g i t.
Proof.
  intros Hi. pose proof (tag_key_range i t Hi) as Hk.
  rewrite _parseFields_S.
  rewrite isRemain_app by (apply varint_bytes_nonempty; lia).
  rewrite readVarint_varint_bytes by assumption. cbn [bind].
  rewrite tag_key_shiftr, tag_key_land, ProtoFieldType_of_type_value.
  apply idx_ok_spec in Hi. destruct (i =? 0) eqn:E; [lia|]. reflexivity.
Qed.

Lemma read_app bs rest :
  read (mkReader (bs ++ rest)) (Z.of_nat (length bs)) = Ok (bs, mkReader rest).
Proof.
  unfold read, isRemain. cbn [stream]. rewrite length_app.
  destruct (_ <=? _) eqn:E; [|blia].
  destruct (_ <? 0) eqn:E2; [blia|].
  rewrite Nat2Z.id, firstn_app, Nat.sub_diag, firstn_all, firstn_O, app_nil_r.
  rewrite skipn_app, Nat.sub_diag, skipn_all, skipn_O. reflexivity.
Qed.

Lemma to_bytes_little_Ok n z :
  0 <= z < 2 ^ (8 * Z.of_nat n) -> to_bytes_little n z = Ok (le_split n z).
Proof.
  intros H. unfold to_bytes_little.
  destruct (0 <=? z) eqn:E1; [|lia]. destruct (z <? _) eqn:E2; [|lia]. reflexivity.
Qed.

Lemma read_le_split n z rest :
  0 <= z < 2 ^ (8 * Z.of_nat n) ->
  bind (read (mkReader (le_split n z ++ rest)) (Z.of_nat n))
       (fun x => let '(bs, r) := x in Ok (from_bytes_little bs, r))
  = Ok (z, mkReader rest).
Proof.
  intros H. rewrite <- (length_le_split n z) at 2. rewrite read_app. cbn [bind].
  unfold from_bytes_little. rewrite le_combine_split.
  rewrite Z.mod_small by (rewrite Z.mul_comm; exact H). reflexivity.
Qed.

(** *** Parsing what [toBuf] wrote *)

Lemma replays_nil : replays [] [].
Proof.
  intros fuel self rest g res H Hn. exists fuel.
  rewrite app_nil_r in H. exact H.
Qed.

Lemma replays_app b1 f1 b2 f2 :
  replays b1 f1 -> replays b2 f2 -> replays (b1 ++ b2) (f1 ++ f2).
Proof.
  intros H1 H2 fuel self rest g res H Hn.
  rewrite app_assoc in H.
  destruct (H2 _ _ _ _ _ H Hn) as [fa Ha].
  destruct (H1 _ _ _ _ _ Ha Hn) as [fb Hb].
  exists fb. rewrite <- app_assoc. exact Hb.
Qed.

Lemma guard_not_end g i t :
  t <> GROUPEND ->
  match g with
  | Some g0 => type_eqb t GROUPEND && (i =? g0)
  | None => false
  end = false.
Proof. intros Ht. destruct g; [|reflexivity]. destruct t; try reflexivity. congruence. Qed.

Lemma parse_group_end fuel self i rest :
  idx_ok i = true ->
  _parseFields (S fuel) self
    (mkReader (varint_bytes (tag_key i GROUPEND) ++ rest)) (Some i)
  = Ok (true, self, mkReader rest).
Proof.
  intros Hi. rewrite parse_tag by assumption. unfold after_tag.
  unfold type_eqb. cbn [type_value]. rewrite Z.eqb_refl. cbn [andb].
  rewrite Z.eqb_refl. reflexivity.
Qed.

Lemma replays_field : forall f,
  wire_ok f = true ->
  exists bs, field_bytes f = Ok bs /\ replays bs [f].
Proof.
  induction f as [i t z|i t bs|i t pb IH] using ProtoField_tree_ind;
    cbn [wire_ok]; rewrite andb_true_iff; intros [Hi Hv];
    rewrite field_bytes_eq.
  - destruct t; try discriminate; apply andb_true_iff in Hv.
    + eexists; split; [reflexivity|].
      intros fuel self rest g res H Hn. exists (S fuel).
      rewrite <- app_assoc, parse_tag by assumption. unfold after_tag.
      rewrite guard_not_end by discriminate.
      rewrite readVarint_varint_bytes by lia. exact H.
    + rewrite to_bytes_little_Ok by (change (2 ^ (8 * Z.of_nat 8)) with (2 ^ 64); lia).
      eexists; split; [reflexivity|].
      intros fuel self rest g res H Hn. exists (S fuel).
      rewrite <- app_assoc, parse_tag by assumption. unfold after_tag.
      rewrite guard_not_end by discriminate.
      unfold readInt64. change 8 with (Z.of_nat 8).
      rewrite read_le_split by (change (2 ^ (8 * Z.of_nat 8)) with (2 ^ 64); lia).
      exact H.
    + rewrite to_bytes_little_Ok by (change (2 ^ (8 * Z.of_nat 4)) with (2 ^ 32); lia).
      eexists; split; [reflexivity|].
      intros fuel self rest g res H Hn. exists (S fuel).
      rewrite <- app_assoc, parse_tag by assumption. unfold after_tag.
      rewrite guard_not_end by discriminate.
      unfold readInt32. change 4 with (Z.of_nat 4).
      rewrite read_le_split by (change (2 ^ (8 * Z.of_nat 4)) with (2 ^ 32); lia).
      exact H.
  - destruct t; try discriminate. cbn [bind].
    eexists; split; [reflexivity|].
    intros fuel self rest g res H Hn. exists (S fuel).
    rewrite <- !app_assoc, parse_tag by assumption. unfold after_tag.
    rewrite guard_not_end by discriminate.
    unfold readString. rewrite readVarint_varint_bytes by blia. cbn [bind].
    destruct (_ <? 0) eqn:E; [blia|]. rewrite read_app. exact H.
  - destruct t; try discriminate.
    assert (Hpb : exists gb, toBuf pb = Ok gb /\ replays gb pb).
    { clear Hi. induction IH as [|f pb Hf _ IHpb].
      - exists []. split; [reflexivity|apply replays_nil].
      - cbn [forallb] in Hv. apply andb_true_iff in Hv as [Hf1 Hv].
        destruct (Hf Hf1) as (b1 & Hb1 & Hr1).
        destruct (IHpb Hv) as (b2 & Hb2 & Hr2).
        exists (b1 ++ b2). split.
        + rewrite toBuf_cons, Hb1, Hb2. reflexivity.
        + apply (replays_app b1 [f] b2 pb); assumption. }
    destruct Hpb as (gb & Hgb & Hrep). rewrite Hgb. cbn [bind].
    eexists; split; [reflexivity|].
    intros fuel self rest g res H Hn.
    destruct (Hrep 1%nat [] (varint_bytes (tag_key i GROUPEND) ++ rest) (Some i)
                (Ok (true, pb, mkReader rest))) as [f2 Hf2].
    { cbn [app]. apply parse_group_end. assumption. }
    { discriminate. }
    exists (S (Nat.max f2 fuel)).
    rewrite <- !app_assoc, parse_tag by assumption. unfold after_tag.
    rewrite guard_not_end by discriminate.
    rewrite (parse_fuel_mono _ (Nat.max f2 fuel) _ _ _ _ Hf2) by (discriminate || lia).
    cbn [bind negb].
    apply (parse_fuel_mono fuel); [exact H|exact Hn|lia].
Qed.

Lemma replays_fields fs :
  forallb wire_ok fs = true ->
  exists bs, toBuf fs = Ok bs /\ replays bs fs.
Proof.
  induction fs as [|f fs IH]; cbn [forallb].
  - exists []. split; [reflexivity|apply replays_nil].
  - rewrite andb_true_iff. intros [Hf Hfs].
    destruct (replays_field f Hf) as (b1 & Hb1 & Hr1).
    destruct (IH Hfs) as (b2 & Hb2 & Hr2).
    exists (b1 ++ b2). split.
    + rewrite toBuf_cons, Hb1, Hb2. reflexivity.
    + apply (replays_app b1 [f] b2 fs); assumption.
Qed.

(** The run [ProtoBuf_of_bytes] makes terminates. *)
Lemma parse_top_terminated data self g :
  _parseFields (S (length data)) self (mkReader data) g <> OutOfFuel.
Proof.
  pose proof (parse_enough (S (length data)) self (mkReader data) g) as H.
  cbn [stream] in H. specialize (H ltac:(lia)).
  destruct (_parseFields _ _ _ _); cbn in H; [discriminate|discriminate|contradiction].
Qed.

Lemma ProtoBuf_of_bytes_fuel data : ProtoBuf_of_bytes data <> OutOfFuel.
Proof.
  unfold ProtoBuf_of_bytes. destruct (_ >? 0); [|discriminate].
  pose proof (parse_top_terminated data [] None) as H.
  destruct (_parseFields _ _ _ _) as [[[b s] r]|e|]; [discriminate| |contradiction].
  destruct e; discriminate.
Qed.

(** Whatever fuel a terminating top-level run was given, it is the run
    of [ProtoBuf_of_bytes]. *)
Lemma parse_top_agree fuel data self g res :
  _parseFields fuel self (mkReader data) g = res -> res <> OutOfFuel ->
  _parseFields (S (length data)) self (mkReader data) g = res.
Proof.
  intros H Hn. symmetry.
  eapply parse_fuel_agree; [exact H|exact Hn|reflexivity|apply parse_top_terminated].
Qed.

Lemma parse_nil fuel self g :
  _parseFields (S fuel) self (mkReader []) g
  = Ok (match g with Some _ => false | None => true end, self, mkReader []).
Proof. rewrite _parseFields_S. cbn. destruct g; reflexivity. Qed.

Lemma field_bytes_nonempty i t v bs :
  idx_ok i = true -> field_bytes (mkField i t v) = Ok bs -> bs <> [].
Proof.
  intros Hi H Hnil. subst bs.
  pose proof (tag_key_range i t Hi) as Hk.
  pose proof (tag_key_range i GROUPEND Hi) as Hk'.
  pose proof (varint_bytes_nonempty (tag_key i t) ltac:(lia)) as Hne.
  pose proof (varint_bytes_nonempty (tag_key i GROUPEND) ltac:(lia)) as Hne'.
  rewrite field_bytes_eq in H.
  destruct t, v; try discriminate;
    try (apply bind_Ok_inv in H as (a & _ & H));
    injection H as H; try (apply app_eq_nil in H as [H _]); congruence.
Qed.

Theorem parse_toBuf fs :
  forallb wire_ok fs = true ->
  exists bs, toBuf fs = Ok bs /\ ProtoBuf_of_bytes bs = Ok fs.
Proof.
  intros Hok. destruct (replays_fields fs Hok) as (bs & Hbs & Hrep).
  exists bs. split; [assumption|].
  unfold ProtoBuf_of_bytes. destruct (_ >? 0) eqn:E.
  - destruct (Hrep 1%nat [] [] None (Ok (true, fs, mkReader []))) as [f Hf].
    { cbn [app]. apply parse_nil. }
    { discriminate. }
    rewrite app_nil_r in Hf.
    rewrite (parse_top_agree _ _ _ _ _ Hf) by discriminate. reflexivity.
  - destruct bs; [|cbn [length] in E; blia].
    destruct fs as [|f fs]; [reflexivity|]. exfalso.
    cbn [forallb] in Hok. apply andb_true_iff in Hok as [Hf _].
    rewrite toBuf_cons in Hbs.
    apply bind_Ok_inv in Hbs as (b1 & Hb1 & Hbs).
    apply bind_Ok_inv in Hbs as (b2 & Hb2 & Hbs).
    injection Hbs as Hbs. apply app_eq_nil in Hbs as [-> _].
    destruct f as [i t v].
    cbn [wire_ok] in Hf. apply andb_true_iff in Hf as [Hi Hv].
    exact (field_bytes_nonempty i t v [] Hi Hb1 eq_refl).
Qed.

(** *** What a parse stores *)

Lemma lor_bound a b k :
  0 <= k -> 0 <= a < 2 ^ k -> 0 <= b < 2 ^ k -> 0 <= Z.lor a b < 2 ^ k.
Proof.
  intros Hk Ha Hb. split; [apply Z.lor_nonneg; lia|].
  destruct (Z.eq_dec a 0) as [->|Hna]; [rewrite Z.lor_0_l; lia|].
  destruct (Z.eq_dec b 0) as [->|Hnb]; [rewrite Z.lor_0_r; lia|].
  assert (0 < Z.lor a b).
  { pose proof (Z.lor_nonneg a b) as [_ Hp]. specialize (Hp ltac:(lia)).
    destruct (Z.eq_dec (Z.lor a b) 0) as [E|]; [|lia].
    apply Z.lor_eq_0_iff in E. lia. }
  apply Z.log2_lt_pow2; [assumption|].
  rewrite Z.log2_lor by lia.
  apply Z.max_lub_lt; apply Z.log2_lt_pow2; lia.
Qed.

Lemma group_bound b n :
  0 <= n -> 0 <= Z.shiftl (Z.land b 127) (7 * n) < 2 ^ (7 * (n + 1)).
Proof.
  intros Hn. rewrite Z.shiftl_mul_pow2 by lia.
  assert (0 <= Z.land b 127 < 128).
  { change 127 with (Z.ones 7). rewrite Z.land_ones by lia.
    apply Z.mod_pos_bound. reflexivity. }
  replace (7 * (n + 1)) with (7 + 7 * n) by lia.
  rewrite Z.pow_add_r by lia. change (2 ^ 7) with 128.
  assert (0 < 2 ^ (7 * n)) by (apply Z.pow_pos_nonneg; lia). nia.
Qed.

Lemma readVarint_loop_range s : forall acc n v r',
  readVarint_loop s acc n = Ok (v, r') ->
  0 <= n <= 10 -> 0 <= acc < 2 ^ (7 * n) -> 0 <= v < 2 ^ 77.
Proof.
  induction s as [|b s IH]; intros acc n v r' H Hn Hacc; cbn [readVarint_loop] in H.
  - discriminate.
  - assert (Hstep : 0 <= Z.lor acc (Z.shiftl (Z.land (byte.unsigned b) 127) (7 * n))
                    < 2 ^ (7 * (n + 1))).
    { apply lor_bound; [lia| |apply group_bound; lia].
      split; [lia|]. eapply Z.lt_le_trans; [apply Hacc|].
      apply Z.pow_le_mono_r; lia. }
    destruct (byte.unsigned b <? 128).
    + injection H as <- <-. split; [apply Hstep|].
      eapply Z.lt_le_trans; [apply Hstep|]. apply Z.pow_le_mono_r; lia.
    + destruct (n + 1 >? 10) eqn:E; [discriminate|].
      eapply IH; [exact H|blia|exact Hstep].
Qed.

Lemma readVarint_range r v r' :
  readVarint r = Ok (v, r') -> 0 <= v < 2 ^ 77.
Proof.
  intros H. eapply readVarint_loop_range; [exact H|lia|].
  change (2 ^ (7 * 0)) with 1. lia.
Qed.

Lemma read_length r n bs r' :
  0 <= n -> read r n = Ok (bs, r') -> Z.of_nat (length bs) = n.
Proof.
  unfold read, isRemain. intros Hn.
  destruct (_ <=? _) eqn:E; [|discriminate].
  destruct (n <? 0) eqn:E2; [blia|].
  intros H. injection H as <- <-. rewrite length_firstn. blia.
Qed.

Lemma readInt_range k r v r' :
  bind (read r (Z.of_nat k))
       (fun x => let '(bs, r) := x in Ok (from_bytes_little bs, r)) = Ok (v, r') ->
  0 <= v < 2 ^ (8 * Z.of_nat k).
Proof.
  intros H. apply bind_Ok_inv in H as ([bs r0] & Hr & H). injection H as <- <-.
  apply read_length in Hr; [|lia]. apply Nat2Z.inj in Hr. subst k.
  apply le_combine_bound.
Qed.

Lemma readString_length r bs r' :
  readString r = Ok (bs, r') -> Z.of_nat (length bs) < 2 ^ 77.
Proof.
  unfold readString. intros H.
  apply bind_Ok_inv in H as ([n r0] & Hn & H).
  apply readVarint_range in Hn.
  destruct (n <? 0); [discriminate|].
  apply read_length in H; lia.
Qed.

Lemma forallb_put (p : ProtoField -> bool) self f :
  forallb p self = true -> p f = true -> forallb p (put self f) = true.
Proof.
  intros Hs Hf. unfold put. rewrite forallb_app, Hs. cbn. rewrite Hf. reflexivity.
Qed.

Lemma parse_wire_ok f : forall self r g b self' r',
  _parseFields f self r g = Ok (b, self', r') ->
  forallb wire_ok self = true -> forallb wire_ok self' = true.
Proof.
  induction f as [|f IH]; intros self r g b self' r' H Hself; [discriminate|].
  rewrite _parseFields_S in H.
  destruct (isRemain r 1).
  2:{ destruct g; injection H as <- <- <-; assumption. }
  apply bind_Ok_inv in H as ([key r1] & Hkey & H).
  apply readVarint_range in Hkey.
  destruct (Z.shiftr key 3 =? 0) eqn:Ei; [discriminate|].
  assert (Hi : idx_ok (Z.shiftr key 3) = true).
  { apply idx_ok_spec. rewrite Z.shiftr_div_pow2 in * by lia.
    change (2 ^ 3) with 8 in *. change (2 ^ 77) with (8 * 2 ^ 74) in Hkey.
    apply Z.eqb_neq in Ei. Z.to_euclidean_division_equations. lia. }
  destruct (ProtoFieldType_of_value (Z.land key 7)) as [t|] eqn:Et.
  2:{ rewrite skipField_unknown in H by assumption. discriminate. }
  unfold after_tag in H.
  destruct (match g with Some g0 => _ | None => false end).
  { injection H as <- <- <-. assumption. }
  destruct t.
  - apply bind_Ok_inv in H as ([v r2] & Hv & H). apply readVarint_range in Hv.
    eapply IH; [exact H|]. apply forallb_put; [assumption|].
    cbn [wire_ok]. rewrite Hi. cbn [andb]. apply andb_true_iff. lia.
  - apply bind_Ok_inv in H as ([v r2] & Hv & H).
    apply (readInt_range 8) in Hv. change (2 ^ (8 * Z.of_nat 8)) with (2 ^ 64) in Hv.
    eapply IH; [exact H|]. apply forallb_put; [assumption|].
    cbn [wire_ok]. rewrite Hi. cbn [andb]. apply andb_true_iff. lia.
  - apply bind_Ok_inv in H as ([v r2] & Hv & H). apply readString_length in Hv.
    eapply IH; [exact H|]. apply forallb_put; [assumption|].
    cbn [wire_ok]. rewrite Hi. cbn [andb]. apply Z.ltb_lt. assumption.
  - apply bind_Ok_inv in H as ([[fe nested] r2] & Hn & H).
    destruct (negb fe); [discriminate|].
    eapply IH; [exact H|]. apply forallb_put; [assumption|].
    cbn [wire_ok]. rewrite Hi. cbn [andb].
    eapply IH; [exact Hn|reflexivity].
  - discriminate.
  - apply bind_Ok_inv in H as ([v r2] & Hv & H).
    apply (readInt_range 4) in Hv. change (2 ^ (8 * Z.of_nat 4)) with (2 ^ 32) in Hv.
    eapply IH; [exact H|]. apply forallb_put; [assumption|].
    cbn [wire_ok]. rewrite Hi. cbn [andb]. apply andb_true_iff. lia.
Qed.

Lemma ProtoBuf_of_bytes_Ok_inv data T :
  ProtoBuf_of_bytes data = Ok T ->
  (data = [] /\ T = []) \/
  exists b r, _parseFields (S (length data)) [] (mkReader data) None = Ok (b, T, r).
Proof.
  unfold ProtoBuf_of_bytes. destruct (_ >? 0) eqn:E.
  - destruct (_parseFields _ _ _ _) as [[[b s] r]|e|]; try discriminate.
    + intros H. injection H as <-. right. eauto.
    + destruct e; discriminate.
  - intros H. injection H as <-. left. split; [|reflexivity].
    destruct data; [reflexivity|]. cbn [length] in E. blia.
Qed.

Lemma ProtoBuf_of_bytes_wire_ok data T :
  ProtoBuf_of_bytes data = Ok T -> forallb wire_ok T = true.
Proof.
  intros H. apply ProtoBuf_of_bytes_Ok_inv in H as [[_ ->]|(b & r & H)].
  - reflexivity.
  - eapply parse_wire_ok; [exact H|reflexivity].
Qed.

End Parser.

(** ** Accessors and puts *)

Section Accessors.

Lemma get_None self i :
  get self i = None <-> (forall f, In f self -> idx f <> i).
Proof.
  induction self as [|f self IH]; cbn [get].
  - split; [intros _ f []|reflexivity].
  - destruct (idx f =? i) eqn:E.
    + split; [discriminate|]. intros H. exfalso.
      apply (H f); [left; reflexivity|]. apply Z.eqb_eq. assumption.
    + rewrite IH. split.
      * intros H f' [<-|Hin]; [apply Z.eqb_neq; assumption|auto].
      * intros H f' Hin. apply H. right. assumption.
Qed.

Lemma group_inv_of_wire_ok : forall f, wire_ok f = true -> group_inv f = true.
Proof.
  induction f as [i t z|i t bs|i t pb IH] using ProtoField_tree_ind;
    cbn [wire_ok group_inv]; rewrite andb_true_iff; intros [_ H].
  - destruct t; try reflexivity; discriminate.
  - destruct t; try reflexivity; discriminate.
  - destruct t; try discriminate.
    induction IH as [|f pb Hf _ IHpb]; [reflexivity|].
    cbn [forallb] in *. apply andb_true_iff in H as [H1 H2].
    rewrite (Hf H1), (IHpb H2). reflexivity.
Qed.

Lemma forallb_impl {A} (p q : A -> bool) l :
  (forall x, p x = true -> q x = true) ->
  forallb p l = true -> forallb q l = true.
Proof.
  intros H. rewrite !forallb_forall. auto.
Qed.

Lemma build_app ops : forall self T op,
  build ops self = Ok T ->
  build (ops ++ [op]) self = apply_put T op.
Proof.
  induction ops as [|o ops IH]; intros self T op H; cbn [build app] in *.
  - injection H as <-. destruct (apply_put self op); reflexivity.
  - apply bind_Ok_inv in H as (s1 & H1 & H). rewrite H1. cbn [bind]. auto.
Qed.

Lemma apply_put_wire_ok self op T :
  op_readable op = true -> forallb wire_ok self = true ->
  apply_put self op = Ok T -> forallb wire_ok T = true.
Proof.
  unfold op_readable. rewrite !andb_true_iff. intros [[Hr Hi] Hp] Hself.
  assert (Hidx : forall i, op_idx op = i -> (0 <? i) = true -> idx_ok i = true).
  { intros i <- H0. unfold idx_ok. rewrite H0, Hi. reflexivity. }
  destruct op as [i v|i v|i v|i d|i s]; cbn [apply_put op_in_range op_idx op_payload] in *.
  - intros H. injection H as <-. apply forallb_put; [assumption|].
    rewrite !andb_true_iff in Hr. destruct Hr as [[H0 H1] H2].
    cbn [wire_ok]. rewrite (Hidx i eq_refl H0), H1. cbn [andb]. blia.
  - intros H. injection H as <-. apply forallb_put; [assumption|].
    rewrite !andb_true_iff in Hr. destruct Hr as [[H0 H1] H2].
    cbn [wire_ok]. rewrite (Hidx i eq_refl H0), H1, H2. reflexivity.
  - intros H. injection H as <-. apply forallb_put; [assumption|].
    rewrite !andb_true_iff in Hr. destruct Hr as [[H0 H1] H2].
    cbn [wire_ok]. rewrite (Hidx i eq_refl H0), H1, H2. reflexivity.
  - intros H. injection H as <-. apply forallb_put; [assumption|].
    cbn [wire_ok]. rewrite (Hidx i eq_refl Hr), Hp. reflexivity.
  - unfold putUtf8. intros H. apply bind_Ok_inv in H as (bs & Hbs & H).
    injection H as <-. rewrite Hbs in Hp. apply forallb_put; [assumption|].
    cbn [wire_ok]. rewrite (Hidx i eq_refl Hr), Hp. reflexivity.
Qed.

Lemma build_wire_ok ops : forall self T,
  forallb op_readable ops = true -> forallb wire_ok self = true ->
  build ops self = Ok T -> forallb wire_ok T = true.
Proof.
  induction ops as [|op ops IH]; intros self T Hops Hself H; cbn [build] in H.
  - injection H as <-. assumption.
  - cbn [forallb] in Hops. apply andb_true_iff in Hops as [Hop Hops].
    apply bind_Ok_inv in H as (s1 & H1 & H).
    eapply IH; [exact Hops| |exact H].
    eapply apply_put_wire_ok; eassumption.
Qed.

End Accessors.

(** ** Re-encoding what was read *)

Section Reencoding.

Lemma shortest_refl c : shortest c c.
Proof. split; [lia|reflexivity]. Qed.

Lemma shortest_app c1 e1 c2 e2 :
  shortest c1 e1 -> shortest c2 e2 -> shortest (c1 ++ c2) (e1 ++ e2).
Proof.
  intros [L1 E1] [L2 E2]. split; rewrite !length_app; [lia|].
  intros H. rewrite E1, E2 by lia. reflexivity.
Qed.

Lemma shortest_cons b c e : shortest c e -> shortest (b :: c) (b :: e).
Proof. apply (shortest_app [b] [b]). apply shortest_refl. Qed.

Lemma varint_groups_fuel f : forall f' v,
  Z.log2 v < Z.of_nat f -> Z.log2 v < Z.of_nat f' ->
  varint_groups f v = varint_groups f' v.
Proof.
  induction f as [|f IH]; intros f' v Hf Hf'.
  - pose proof (Z.log2_nonneg v). lia.
  - destruct f' as [|f']; [pose proof (Z.log2_nonneg v); lia|].
    cbn [varint_groups]. destruct (v >? 0) eqn:E; [|reflexivity].
    f_equal. destruct (Z.shiftr v 7 >? 0) eqn:E2.
    + apply IH; rewrite log2_shiftr7 by lia; lia.
    + destruct f, f'; cbn [varint_groups]; rewrite E2; reflexivity.
Qed.

Lemma varint_bytes_step v :
  0 < Z.shiftr v 7 ->
  varint_bytes v
  = byte.of_Z (Z.land (Z.lor (Z.land v 127) 128) 255) :: varint_bytes (Z.shiftr v 7).
Proof.
  intros H. pose proof (shiftr7_pos_inv v H) as Hv.
  pose proof (Z.log2_nonneg v). pose proof (Z.log2_nonneg (Z.shiftr v 7)).
  unfold varint_bytes.
  destruct (v =? 0) eqn:E; [lia|]. destruct (Z.shiftr v 7 =? 0) eqn:E2; [lia|].
  destruct (Z.to_nat (Z.log2 v + 1)) as [|f] eqn:Ef; [lia|].
  cbn [varint_groups]. destruct (v >? 0) eqn:E3; [|lia].
  destruct (Z.shiftr v 7 >? 0) eqn:E4; [|lia].
  f_equal. apply varint_groups_fuel; rewrite ?log2_shiftr7 in * by lia; lia.
Qed.

Lemma varint_bytes_small v : 0 <= v < 128 -> varint_bytes v = [byte.of_Z v].
Proof.
  intros Hv. unfold varint_bytes. destruct (v =? 0) eqn:E.
  - assert (v = 0) as -> by lia. reflexivity.
  - pose proof (Z.log2_nonneg v).
    destruct (Z.to_nat (Z.log2 v + 1)) as [|f] eqn:Ef; [lia|].
    cbn [varint_groups]. destruct (v >? 0) eqn:E3; [|lia].
    assert (Hs : Z.shiftr v 7 = 0).
    { rewrite Z.shiftr_div_pow2 by lia. apply Z.div_small. exact Hv. }
    rewrite Hs. cbn [Z.gtb Z.compare].
    rewrite final_group by lia.
    destruct f; reflexivity.
Qed.

Lemma varint_value_nonneg c : 0 <= varint_value c.
Proof.
  induction c as [|b c IH]; cbn [varint_value]; [lia|].
  apply Z.lor_nonneg. split.
  - apply Z.land_nonneg. right. lia.
  - apply Z.shiftl_nonneg. assumption.
Qed.

Lemma varint_value_shiftr b c :
  Z.shiftr (varint_value (b :: c)) 7 = varint_value c.
Proof.
  cbn [varint_value]. change 127 with (Z.ones 7). zbits.
Qed.

Lemma varint_value_low b c :
  Z.land (varint_value (b :: c)) 127 = Z.land (byte.unsigned b) 127.
Proof.
  cbn [varint_value]. change 127 with (Z.ones 7). zbits.
Qed.

Lemma continuation_byte x :
  128 <= x < 256 -> Z.land (Z.lor (Z.land x 127) 128) 255 = x.
Proof.
  intros Hx. change 127 with (Z.ones 7). change 255 with (Z.ones 8).
  rewrite Z.land_ones by lia. rewrite Z.or_to_plus.
  - rewrite Z.land_ones by lia. change (2 ^ 7) with 128. change (2 ^ 8) with 256.
    Z.to_euclidean_division_equations. lia.
  - rewrite Z.land_ones by lia. rewrite <- Z.land_ones by lia.
    change 128 with (Z.shiftl 1 7). zbits.
Qed.

Lemma varint_shape_nonempty c : varint_shape c -> c <> [].
Proof. destruct c; [contradiction|discriminate]. Qed.

(** The canonical encoding of the value of a varint is the shortest. *)
Lemma varint_shortest c :
  varint_shape c -> shortest c (varint_bytes (varint_value c)).
Proof.
  induction c as [|b c IH]; [contradiction|].
  pose proof (byte.unsigned_range b) as Hb. change (2 ^ 8) with 256 in Hb.
  destruct c as [|b' c'].
  - cbn [varint_shape varint_value]. intros Hlt.
    rewrite Z.shiftl_0_l, Z.lor_0_r.
    change 127 with (Z.ones 7). rewrite Z.land_ones by lia.
    change (2 ^ 7) with 128. rewrite Z.mod_small by lia.
    rewrite varint_bytes_small by lia. rewrite byte.of_Z_unsigned.
    apply shortest_refl.
  - intros [Hge Hsh]. specialize (IH Hsh).
    pose proof (varint_value_nonneg (b' :: c')) as Hnn.
    destruct (Z.eq_dec (varint_value (b' :: c')) 0) as [Hz|Hnz].
    + assert (Hsmall : 0 <= varint_value (b :: b' :: c') < 128).
      { change (varint_value (b :: b' :: c'))
          with (Z.lor (Z.land (byte.unsigned b) 127)
                  (Z.shiftl (varint_value (b' :: c')) 7)).
        rewrite Hz, Z.shiftl_0_l, Z.lor_0_r.
        change 127 with (Z.ones 7). rewrite Z.land_ones by lia.
        apply Z.mod_pos_bound. reflexivity. }
      rewrite varint_bytes_small by assumption.
      split; cbn [length]; [lia|discriminate].
    + rewrite varint_bytes_step by (rewrite varint_value_shiftr; lia).
      rewrite varint_value_shiftr, varint_value_low.
      rewrite continuation_byte by lia. rewrite byte.of_Z_unsigned.
      apply shortest_cons. assumption.
Qed.

Lemma readVarint_loop_shape s : forall acc n v r',
  readVarint_loop s acc n = Ok (v, r') -> 0 <= n ->
  exists c, s = c ++ stream r' /\ varint_shape c /\
            v = Z.lor acc (Z.shiftl (varint_value c) (7 * n)).
Proof.
  induction s as [|b s IH]; intros acc n v r' H Hn; cbn [readVarint_loop] in H.
  - discriminate.
  - destruct (byte.unsigned b <? 128) eqn:E.
    + injection H as <- <-. exists [b]. split; [reflexivity|]. split.
      * cbn [varint_shape]. blia.
      * cbn [varint_value]. rewrite Z.shiftl_0_l, Z.lor_0_r. reflexivity.
    + destruct (n + 1 >? 10); [discriminate|].
      destruct (IH _ _ _ _ H ltac:(lia)) as (c & Hs & Hc & Hv).
      exists (b :: c). split; [cbn [app]; congruence|]. split.
      * destruct c; [contradiction|]. split; [blia|assumption].
      * rewrite Hv. cbn [varint_value]. zbits.
Qed.

Lemma readVarint_split r v r' :
  readVarint r = Ok (v, r') ->
  exists c, stream r = c ++ stream r' /\ shortest c (varint_bytes v).
Proof.
  intros H. apply readVarint_loop_shape in H as (c & Hs & Hc & ->); [|lia].
  exists c. split; [assumption|].
  rewrite Z.lor_0_l, Z.shiftl_0_r. apply varint_shortest. assumption.
Qed.

Lemma ProtoFieldType_of_value_inv x t :
  ProtoFieldType_of_value x = Some t -> x = type_value t.
Proof.
  unfold ProtoFieldType_of_value.
  repeat match goal with
         | |- context [?a =? ?b] =>
             destruct (Z.eqb_spec a b);
             [intros H; injection H as <-; assumption|]
         end.
  discriminate.
Qed.

Lemma key_tag key t :
  ProtoFieldType_of_value (Z.land key 7) = Some t ->
  tag_key (Z.shiftr key 3) t = key.
Proof.
  intros H. apply ProtoFieldType_of_value_inv in H.
  rewrite tag_key_add, <- H. change 7 with (Z.ones 3).
  rewrite Z.land_ones, Z.shiftr_div_pow2 by lia. change (2 ^ 3) with 8.
  symmetry. apply Z.div_mod. lia.
Qed.

Lemma read_split r n bs r' :
  0 <= n -> read r n = Ok (bs, r') -> stream r = bs ++ stream r'.
Proof.
  unfold read. intros Hn. destruct (isRemain r n); [|discriminate].
  destruct (n <? 0) eqn:E; [blia|].
  intros H. injection H as <- <-. cbn [stream]. symmetry. apply firstn_skipn.
Qed.

Lemma readInt_split k r v r' :
  bind (read r (Z.of_nat k))
       (fun x => let '(bs, r) := x in Ok (from_bytes_little bs, r)) = Ok (v, r') ->
  exists bs, stream r = bs ++ stream r' /\ to_bytes_little k v = Ok bs.
Proof.
  intros H. pose proof (readInt_range _ _ _ _ H) as Hv.
  apply bind_Ok_inv in H as ([bs r0] & Hr & H). injection H as <- <-.
  exists bs. split; [eapply read_split; [|exact Hr]; lia|].
  rewrite to_bytes_little_Ok by assumption.
  apply read_length in Hr; [|lia]. apply Nat2Z.inj in Hr. subst k.
  unfold from_bytes_little. rewrite split_le_combine. reflexivity.
Qed.

Lemma readString_split r bs r' :
  readString r = Ok (bs, r') ->
  exists cl, stream r = cl ++ bs ++ stream r' /\
             shortest cl (varint_bytes (Z.of_nat (length bs))).
Proof.
  unfold readString. intros H.
  apply bind_Ok_inv in H as ([n r0] & Hn & H).
  pose proof (readVarint_range _ _ _ Hn) as Hnr.
  apply readVarint_split in Hn as (cl & Hs & Hcl).
  destruct (n <? 0); [discriminate|].
  pose proof (read_length r0 n bs r' (proj1 Hnr) H) as Hl.
  apply read_split in H; [|lia].
  exists cl. rewrite Hs, H, Hl. auto.
Qed.

Lemma consumed_done self r g :
  stream r = [] ->
  consumed self r g (match g with Some _ => false | None => true end) self r.
Proof.
  intros Hr. exists [], [], [], [].
  split; [rewrite Hr; reflexivity|].
  split; [rewrite app_nil_r; reflexivity|].
  split; [reflexivity|].
  split; [apply shortest_refl|].
  destruct g; cbn [closing]; auto.
Qed.

Lemma consumed_step fld fb cf r r2 r' self self' g b :
  field_bytes fld = Ok fb -> shortest cf fb -> stream r = cf ++ stream r2 ->
  consumed (put self fld) r2 g b self' r' ->
  consumed self r g b self' r'.
Proof.
  intros Hfb Hcf Hr (c & e & new & enc & Hs & Hself & Henc & Hc & Hcl).
  exists (cf ++ c), e, (fld :: new), (fb ++ enc).
  split; [rewrite Hr, Hs, <- app_assoc; reflexivity|].
  split; [rewrite Hself; unfold put; rewrite <- app_assoc; reflexivity|].
  split; [rewrite toBuf_cons, Hfb, Henc; reflexivity|].
  split; [apply shortest_app; assumption|assumption].
Qed.

Lemma isRemain_false r : isRemain r 1 = false -> stream r = [].
Proof.
  unfold isRemain. destruct (stream r); [reflexivity|].
  cbn [length]. intros H. blia.
Qed.

Lemma type_eqb_eq a b : type_eqb a b = true -> a = b.
Proof. destruct a, b; cbn; intros H; (reflexivity || discriminate). Qed.

Lemma parse_consumed f : forall self r g b self' r',
  _parseFields f self r g = Ok (b, self', r') -> consumed self r g b self' r'.
Proof.
  induction f as [|f IH]; intros self r g b self' r' H; [discriminate|].
  rewrite _parseFields_S in H.
  destruct (isRemain r 1) eqn:Er.
  2:{ apply isRemain_false in Er.
      destruct g; injection H as <- <- <-;
        [apply (consumed_done self r (Some z))|apply (consumed_done self r None)];
        assumption. }
  apply bind_Ok_inv in H as ([key r1] & Hkey & H).
  apply readVarint_split in Hkey as (ck & Hsk & Hck).
  destruct (Z.shiftr key 3 =? 0); [discriminate|].
  destruct (ProtoFieldType_of_value (Z.land key 7)) as [t|] eqn:Et.
  2:{ rewrite skipField_unknown in H by assumption. discriminate. }
  pose proof (key_tag key t Et) as Htag.
  unfold after_tag in H.
  destruct (match g with Some g0 => _ | None => false end) eqn:G.
  { injection H as <- <- <-. destruct g as [k|]; [|discriminate].
    apply andb_true_iff in G as [Gt Gk].
    apply type_eqb_eq in Gt. apply Z.eqb_eq in Gk. subst t.
    exists [], ck, [], [].
    split; [exact Hsk|].
    split; [rewrite app_nil_r; reflexivity|].
    split; [reflexivity|].
    split; [apply shortest_refl|].
    cbn [closing]. rewrite <- Gk, Htag. assumption. }
  destruct t.
  - apply bind_Ok_inv in H as ([v r2] & Hv & H).
    apply readVarint_split in Hv as (cv & Hsv & Hcv).
    eapply (consumed_step _ _ (ck ++ cv)); [| | |apply IH; exact H].
    + rewrite field_bytes_eq, Htag. reflexivity.
    + apply shortest_app; assumption.
    + rewrite Hsk, Hsv, app_assoc. reflexivity.
  - apply bind_Ok_inv in H as ([v r2] & Hv & H).
    apply (readInt_split 8) in Hv as (bs & Hsv & Hbs).
    eapply (consumed_step _ _ (ck ++ bs)); [| | |apply IH; exact H].
    + rewrite field_bytes_eq, Htag, Hbs. reflexivity.
    + apply shortest_app; [assumption|apply shortest_refl].
    + rewrite Hsk, Hsv, app_assoc. reflexivity.
  - apply bind_Ok_inv in H as ([v r2] & Hv & H).
    apply readString_split in Hv as (cl & Hsv & Hcl).
    eapply (consumed_step _ _ (ck ++ cl ++ v)); [| | |apply IH; exact H].
    + rewrite field_bytes_eq, Htag. reflexivity.
    + apply shortest_app; [assumption|].
      apply shortest_app; [assumption|apply shortest_refl].
    + rewrite Hsk, Hsv, <- !app_assoc. reflexivity.
  - apply bind_Ok_inv in H as ([[fe nested] r2] & Hn & H).
    destruct fe; [|discriminate]. cbn [negb] in H.
    apply IH in Hn as (cn & en & newn & encn & Hsn & Hnew & Henc & Hcn & Hen).
    cbn [app] in Hnew. subst newn. cbn [closing] in Hen.
    eapply (consumed_step _ _ (ck ++ cn ++ en)); [| | |apply IH; exact H].
    + rewrite field_bytes_eq, Htag, Henc. reflexivity.
    + apply shortest_app; [assumption|]. apply shortest_app; assumption.
    + rewrite Hsk, Hsn, <- !app_assoc. reflexivity.
  - discriminate.
  - apply bind_Ok_inv in H as ([v r2] & Hv & H).
    apply (readInt_split 4) in Hv as (bs & Hsv & Hbs).
    eapply (consumed_step _ _ (ck ++ bs)); [| | |apply IH; exact H].
    + rewrite field_bytes_eq, Htag, Hbs. reflexivity.
    + apply shortest_app; [assumption|apply shortest_refl].
    + rewrite Hsk, Hsv, app_assoc. reflexivity.
Qed.

(** Serializing a parsed tree gives the shortest buffer that parses to
    it. *)
Lemma reserialize_shortest data T :
  ProtoBuf_of_bytes data = Ok T ->
  exists enc, toBuf T = Ok enc /\ shortest data enc.
Proof.
  intros H. apply ProtoBuf_of_bytes_Ok_inv in H as [[-> ->]|(b & r & H)].
  - exists []. split; [reflexivity|apply shortest_refl].
  - apply parse_consumed in H as (c & e & new & enc & Hs & Hself & Henc & Hc & Hcl).
    cbn [app] in Hself. subst new. cbn [stream] in Hs.
    assert (e = [] /\ stream r = []) as [-> Hr] by (destruct b; exact Hcl).
    rewrite Hr, !app_nil_r in Hs. subst c.
    exists enc. auto.
Qed.

End Reencoding.

(** ** Nesting and truncation *)

Section Nesting.

Lemma nest_tree_wire_ok n : forallb wire_ok (nest_tree n) = true.
Proof.
  induction n as [|n IH]; [reflexivity|].
  cbn [nest_tree forallb wire_ok]. rewrite IH. reflexivity.
Qed.

Lemma nest_tree_toBuf n : toBuf (nest_tree n) = Ok (nest_bytes n).
Proof.
  induction n as [|n IH]; [reflexivity|].
  cbn [nest_tree nest_bytes]. rewrite toBuf_cons, field_bytes_eq, IH, toBuf_nil.
  cbn [bind]. rewrite app_nil_r. reflexivity.
Qed.

Lemma nest_parse n : ProtoBuf_of_bytes (nest_bytes n) = Ok (nest_tree n).
Proof.
  destruct (parse_toBuf _ (nest_tree_wire_ok n)) as (bs & Hbs & Hp).
  rewrite nest_tree_toBuf in Hbs. injection Hbs as <-. exact Hp.
Qed.

Lemma field_depth_group i t pb :
  field_depth (mkField i t (VProtoBuf pb)) = S (depth pb).
Proof. reflexivity. Qed.

Lemma nest_depth n : depth (nest_tree n) = n.
Proof.
  induction n as [|n IH]; [reflexivity|].
  cbn [nest_tree depth]. rewrite field_depth_group, IH. lia.
Qed.

End Nesting.

Section Truncation.

Lemma serialized_toBuf pb :
  forallb wire_ok pb = true -> toBuf pb = Ok (serialized pb) /\ replays (serialized pb) pb.
Proof.
  intros H. destruct (replays_fields pb H) as (bs & Hbs & Hr).
  unfold serialized. rewrite Hbs. auto.
Qed.

Lemma raises_fields pre tail e :
  forallb wire_ok pre = true -> raises tail e -> raises (serialized pre ++ tail) e.
Proof.
  intros Hpre Ht self g. destruct (serialized_toBuf pre Hpre) as [_ Hr].
  destruct (Ht (self ++ pre) g) as [f Hf].
  apply (Hr f self tail g _ Hf). discriminate.
Qed.

Lemma raises_group k tail e :
  idx_ok k = true -> raises tail e ->
  raises (varint_bytes (tag_key k GROUPSTART) ++ tail) e.
Proof.
  intros Hk Ht self g. destruct (Ht [] (Some k)) as [f Hf].
  exists (S f). rewrite parse_tag by assumption. unfold after_tag.
  rewrite guard_not_end by discriminate. rewrite Hf. reflexivity.
Qed.

Lemma raises_frames frames tail e :
  frames_ok frames = true -> raises tail e -> raises (open_prefix frames ++ tail) e.
Proof.
  induction frames as [|[pre k] frames IH]; cbn [open_prefix frames_ok forallb app].
  - auto.
  - rewrite !andb_true_iff. intros [[Hpre Hk] Hfr] Ht.
    rewrite <- !app_assoc. apply raises_fields; [assumption|].
    apply raises_group; [assumption|]. apply IH; assumption.
Qed.

Lemma readVarint_loop_mid c : forall acc n,
  Forall is_continuation c -> 0 <= n -> n + Z.of_nat (length c) <= 10 ->
  readVarint_loop c acc n = Raise IndexError.
Proof.
  induction c as [|b c IH]; intros acc n Hc Hn Hl; cbn [readVarint_loop].
  - reflexivity.
  - inversion Hc as [|? ? Hb Hc']; subst. unfold is_continuation in Hb.
    destruct (byte.unsigned b <? 128) eqn:E; [blia|].
    cbn [length] in Hl. rewrite Nat2Z.inj_succ in Hl.
    destruct (n + 1 >? 10) eqn:E2; [blia|].
    apply IH; [assumption|lia|lia].
Qed.

Lemma readVarint_mid c :
  mid_varint c -> readVarint (mkReader c) = Raise IndexError.
Proof.
  intros [Hc Hl]. apply Nat2Z.inj_le in Hl. change (Z.of_nat 10) with 10 in Hl.
  apply readVarint_loop_mid; [assumption|lia|cbn [stream]; lia].
Qed.

Lemma read_short payload len :
  Z.of_nat (length payload) < len -> read (mkReader payload) len = Raise IndexError.
Proof.
  intros H. unfold read, isRemain. cbn [stream].
  destruct (_ <=? _) eqn:E; [blia|reflexivity].
Qed.

Lemma raises_truncated cut : truncated_field cut -> raises cut IndexError.
Proof.
  intros H self g. exists 1%nat. destruct H as [c Hne Hc|k c Hk Hc|k c Hk Hc|k len payload Hk Hl].
  - rewrite _parseFields_S.
    replace (isRemain (mkReader c) 1) with true
      by (symmetry; rewrite <- (app_nil_r c); apply isRemain_app; assumption).
    rewrite readVarint_mid by assumption. reflexivity.
  - rewrite parse_tag by assumption. unfold after_tag.
    rewrite guard_not_end by discriminate.
    rewrite readVarint_mid by assumption. reflexivity.
  - rewrite parse_tag by assumption. unfold after_tag.
    rewrite guard_not_end by discriminate.
    unfold readString. rewrite readVarint_mid by assumption. reflexivity.
  - rewrite parse_tag by assumption. unfold after_tag.
    rewrite guard_not_end by discriminate.
    unfold readString. rewrite readVarint_varint_bytes by lia. cbn [bind].
    destruct (len <? 0) eqn:E; [blia|].
    rewrite read_short by lia. reflexivity.
Qed.

(** The buffer ends inside group [k], after the fields [pre]. *)
Lemma raises_unterminated k pre :
  idx_ok k = true -> forallb wire_ok pre = true ->
  raises (varint_bytes (tag_key k GROUPSTART) ++ serialized pre)
         (ProtoError (UnterminatedGroup k)).
Proof.
  intros Hk Hpre self g. destruct (serialized_toBuf pre Hpre) as [_ Hr].
  destruct (Hr 1%nat [] [] (Some k) (Ok (false, pre, mkReader []))) as [f Hf].
  { cbn [app]. apply parse_nil. }
  { discriminate. }
  rewrite app_nil_r in Hf.
  exists (S f). rewrite parse_tag by assumption. unfold after_tag.
  rewrite guard_not_end by discriminate. rewrite Hf. reflexivity.
Qed.

(** What [ProtoBuf(data)] makes of an exception of the parse. *)
Lemma ProtoBuf_of_bytes_raises data e :
  raises data e ->
  ProtoBuf_of_bytes data =
  Raise (ProtoError match e with
                    | IndexError => DataTruncated
                    | ProtoError m => ParsingNear m
                    | _ => UnexpectedErrorParsing
                    end).
Proof.
  intros H. destruct (H [] None) as [f Hf].
  pose proof (parse_top_agree _ _ _ _ _ Hf ltac:(discriminate)) as Htop.
  unfold ProtoBuf_of_bytes. destruct (_ >? 0) eqn:E.
  - rewrite Htop. destruct e; reflexivity.
  - destruct data; [|cbn [length] in E; blia].
    destruct f; cbn in Hf; discriminate.
Qed.

(** *** A buffer cut from one that parses *)

Lemma readVarint_loop_prefix s1 : forall s2 acc n v r',
  readVarint_loop (s1 ++ s2) acc n = Ok (v, r') ->
  (exists t1, stream r' = t1 ++ s2 /\
              readVarint_loop s1 acc n = Ok (v, mkReader t1)) \/
  readVarint_loop s1 acc n = Raise IndexError.
Proof.
  induction s1 as [|b s1 IH]; intros s2 acc n v r' H.
  - right. reflexivity.
  - cbn [app readVarint_loop] in *.
    destruct (byte.unsigned b <? 128).
    + injection H as <- <-. left. exists s1. auto.
    + destruct (n + 1 >? 10); [discriminate|]. eapply IH. exact H.
Qed.

Lemma readVarint_prefix s1 s2 v r' :
  readVarint (mkReader (s1 ++ s2)) = Ok (v, r') ->
  (exists t1, stream r' = t1 ++ s2 /\
              readVarint (mkReader s1) = Ok (v, mkReader t1)) \/
  readVarint (mkReader s1) = Raise IndexError.
Proof. apply readVarint_loop_prefix. Qed.

Lemma read_prefix s1 s2 n bs r' :
  0 <= n ->
  read (mkReader (s1 ++ s2)) n = Ok (bs, r') ->
  (exists t1, stream r' = t1 ++ s2 /\
              read (mkReader s1) n = Ok (bs, mkReader t1)) \/
  read (mkReader s1) n = Raise IndexError.
Proof.
  intros Hn. unfold read, isRemain. cbn [stream].
  destruct (n <=? Z.of_nat (length (s1 ++ s2))); [|discriminate].
  destruct (n <? 0) eqn:E; [blia|].
  intros H. injection H as <- <-.
  destruct (n <=? Z.of_nat (length s1)) eqn:E1; [left|right; reflexivity].
  assert (Hle : (Z.to_nat n <= length s1)%nat) by blia.
  exists (skipn (Z.to_nat n) s1). cbn [stream].
  rewrite skipn_app, firstn_app.
  replace (Z.to_nat n - length s1)%nat with 0%nat by lia.
  rewrite skipn_O, firstn_O, app_nil_r. auto.
Qed.

Lemma readInt_prefix k s1 s2 v r' :
  bind (read (mkReader (s1 ++ s2)) (Z.of_nat k))
       (fun x => let '(bs, r) := x in Ok (from_bytes_little bs, r)) = Ok (v, r') ->
  (exists t1, stream r' = t1 ++ s2 /\
     bind (read (mkReader s1) (Z.of_nat k))
          (fun x => let '(bs, r) := x in Ok (from_bytes_little bs, r))
     = Ok (v, mkReader t1)) \/
  bind (read (mkReader s1) (Z.of_nat k))
       (fun x => let '(bs, r) := x in Ok (from_bytes_little bs, r))
  = Raise IndexError.
Proof.
  intros H. apply bind_Ok_inv in H as ([bs r0] & Hr & H). injection H as <- <-.
  apply read_prefix in Hr as [(t1 & Hs & Hr)|Hr]; [| |lia]; rewrite Hr.
  - left. exists t1. auto.
  - right. reflexivity.
Qed.

Lemma readString_prefix s1 s2 bs r' :
  readString (mkReader (s1 ++ s2)) = Ok (bs, r') ->
  (exists t1, stream r' = t1 ++ s2 /\
              readString (mkReader s1) = Ok (bs, mkReader t1)) \/
  readString (mkReader s1) = Raise IndexError.
Proof.
  unfold readString. intros H.
  apply bind_Ok_inv in H as ([n [s0]] & Hn & H).
  pose proof (readVarint_range _ _ _ Hn) as Hnr.
  apply readVarint_prefix in Hn as [(t1 & Hs & Hn)|Hn]; rewrite Hn; cbn [bind].
  - cbn [stream] in Hs. subst s0.
    destruct (n <? 0); [discriminate|].
    apply read_prefix in H as [(t2 & Hs2 & H)|H]; [| |lia]; rewrite H.
    + left. exists t2. auto.
    + right. reflexivity.
  - right. reflexivity.
Qed.

Lemma parse_prefix f : forall self s1 s2 g b T r',
  _parseFields f self (mkReader (s1 ++ s2)) g = Ok (b, T, r') ->
  (exists t1, stream r' = t1 ++ s2 /\
              _parseFields f self (mkReader s1) g = Ok (b, T, mkReader t1)) \/
  cut_outcome (_parseFields f self (mkReader s1) g).
Proof.
  induction f as [|f IH]; intros self s1 s2 g b T r' H; [discriminate|].
  destruct s1 as [|b1 s1].
  { right. rewrite parse_nil. right. right. eauto. }
  rewrite _parseFields_S in H. rewrite _parseFields_S.
  rewrite isRemain_app in H by discriminate.
  replace (isRemain (mkReader (b1 :: s1)) 1) with true
    by (symmetry; rewrite <- (app_nil_r (b1 :: s1)); apply isRemain_app; discriminate).
  apply bind_Ok_inv in H as ([key [s0]] & Hkey & H).
  apply readVarint_prefix in Hkey as [(t1 & Hs & Hkey)|Hkey]; rewrite Hkey; cbn [bind].
  2:{ right. left. reflexivity. }
  cbn [stream] in Hs. subst s0.
  destruct (Z.shiftr key 3 =? 0); [discriminate|].
  destruct (ProtoFieldType_of_value (Z.land key 7)) as [t|] eqn:Et.
  2:{ rewrite skipField_unknown in H by assumption. discriminate. }
  unfold after_tag in *.
  destruct (match g with Some g0 => _ | None => false end).
  { injection H as <- <- <-. left. exists t1. auto. }
  destruct t.
  - apply bind_Ok_inv in H as ([v [s0]] & Hv & H).
    apply readVarint_prefix in Hv as [(t2 & Hs & Hv)|Hv]; rewrite Hv; cbn [bind].
    + cbn [stream] in Hs. subst s0. eapply IH. exact H.
    + right. left. reflexivity.
  - apply bind_Ok_inv in H as ([v [s0]] & Hv & H).
    apply (readInt_prefix 8) in Hv as [(t2 & Hs & Hv)|Hv];
      unfold readInt64; change 8 with (Z.of_nat 8); rewrite Hv; cbn [bind].
    + cbn [stream] in Hs. subst s0. eapply IH. exact H.
    + right. left. reflexivity.
  - apply bind_Ok_inv in H as ([v [s0]] & Hv & H).
    apply readString_prefix in Hv as [(t2 & Hs & Hv)|Hv]; rewrite Hv; cbn [bind].
    + cbn [stream] in Hs. subst s0. eapply IH. exact H.
    + right. left. reflexivity.
  - apply bind_Ok_inv in H as ([[fe nested] [s0]] & Hn & H).
    destruct fe; [|discriminate]. cbn [negb] in H.
    apply IH in Hn as [(t2 & Hs & Hn)|[Hn|[[k Hn]|(b' & T' & Hn)]]];
      rewrite Hn; cbn [bind].
    + cbn [stream negb] in *. subst s0. eapply IH. exact H.
    + right. left. reflexivity.
    + right. right. left. eauto.
    + right. destruct b'; cbn [negb].
      * destruct f; [discriminate|]. rewrite parse_nil. right. right. eauto.
      * right. left. eauto.
  - discriminate.
  - apply bind_Ok_inv in H as ([v [s0]] & Hv & H).
    apply (readInt_prefix 4) in Hv as [(t2 & Hs & Hv)|Hv];
      unfold readInt32; change 4 with (Z.of_nat 4); rewrite Hv; cbn [bind].
    + cbn [stream] in Hs. subst s0. eapply IH. exact H.
    + right. left. reflexivity.
Qed.

Lemma ProtoBuf_of_bytes_prefix data rest T :
  ProtoBuf_of_bytes (data ++ rest) = Ok T ->
  (exists T', ProtoBuf_of_bytes data = Ok T') \/
  ProtoBuf_of_bytes data = Raise (ProtoError DataTruncated) \/
  (exists k, ProtoBuf_of_bytes data
             = Raise (ProtoError (ParsingNear (UnterminatedGroup k)))).
Proof.
  intros H. destruct data as [|b0 data]; [left; exists []; reflexivity|].
  apply ProtoBuf_of_bytes_Ok_inv in H as [[H _]|(b & r & H)]; [discriminate|].
  assert (Htop : forall res,
             _parseFields (S (length ((b0 :: data) ++ rest))) [] (mkReader (b0 :: data)) None
             = res -> res <> OutOfFuel ->
             ProtoBuf_of_bytes (b0 :: data) =
             match res with
             | Ok (_, self, _) => Ok self
             | Raise IndexError => Raise (ProtoError DataTruncated)
             | Raise (ProtoError e) => Raise (ProtoError (ParsingNear e))
             | Raise _ => Raise (ProtoError UnexpectedErrorParsing)
             | OutOfFuel => OutOfFuel
             end).
  { intros res Hres Hn. apply parse_top_agree in Hres; [|assumption].
    unfold ProtoBuf_of_bytes. rewrite Hres. reflexivity. }
  apply parse_prefix in H as [(t1 & _ & H)|[H|[[k H]|(b' & T' & H)]]];
    apply Htop in H; try discriminate; rewrite H; eauto.
Qed.

End Truncation.

(** ** The automatic export terminates *)

Section AutoExport.

Variable unicode_isprintable : Z -> bool.
Variable unicode_isspace : Z -> bool.

Let auto := toDictAuto_fuel unicode_isprintable unicode_isspace.

Lemma toDictAuto_fuel_S fuel self :
  auto (S fuel) self =
  (intermediate <-
     loop_with unicode_isprintable unicode_isspace (auto fuel) self [] ;;
   Ok (PDict (collapse intermediate))).
Proof. reflexivity. Qed.

Lemma field_weight_group i t pb :
  field_weight (mkField i t (VProtoBuf pb)) = S (weight pb).
Proof.
  reflexivity.
Qed.

Lemma weight_cons f pb : weight (f :: pb) = (field_weight f + weight pb)%nat.
Proof. reflexivity. Qed.

(** A tree is no heavier than its serialization is long. *)
Lemma field_weight_bytes : forall f fb,
  wire_ok f = true -> field_bytes f = Ok fb -> (field_weight f <= length fb)%nat.
Proof.
  induction f as [i t z|i t bs|i t pb IH] using ProtoField_tree_ind;
    intros fb; cbn [wire_ok]; rewrite andb_true_iff; intros [Hi Hv] Hfb;
    pose proof (tag_key_range i t Hi) as Hk;
    pose proof (varint_bytes_nonempty (tag_key i t) ltac:(lia)) as Hne;
    assert (Htag : (1 <= length (varint_bytes (tag_key i t)))%nat)
      by (destruct (varint_bytes (tag_key i t)); [congruence|cbn; lia]);
    rewrite field_bytes_eq in Hfb.
  - destruct t; try discriminate;
      try (apply bind_Ok_inv in Hfb as (a & _ & Hfb));
      injection Hfb as <-; rewrite length_app; cbn [field_weight]; lia.
  - destruct t; try discriminate. cbn [bind] in Hfb.
    injection Hfb as <-. rewrite !length_app. cbn [field_weight]. lia.
  - destruct t; try discriminate.
    apply bind_Ok_inv in Hfb as (gb & Hgb & Hfb). injection Hfb as <-.
    rewrite field_weight_group, !length_app.
    enough (weight pb <= length gb)%nat by lia.
    clear Hi Hk Hne Htag. revert gb Hgb.
    induction IH as [|f pb Hf _ IHpb]; intros gb Hgb.
    + cbn. lia.
    + cbn [forallb] in Hv. apply andb_true_iff in Hv as [Hf1 Hv].
      rewrite toBuf_cons in Hgb.
      apply bind_Ok_inv in Hgb as (b1 & Hb1 & Hgb).
      apply bind_Ok_inv in Hgb as (b2 & Hb2 & Hgb). injection Hgb as <-.
      rewrite weight_cons, length_app.
      specialize (Hf _ Hf1 Hb1). specialize (IHpb Hv _ Hb2). lia.
Qed.

Lemma weight_bytes pb enc :
  forallb wire_ok pb = true -> toBuf pb = Ok enc -> (weight pb <= length enc)%nat.
Proof.
  revert enc. induction pb as [|f pb IH]; intros enc Hok Henc.
  - cbn. lia.
  - cbn [forallb] in Hok. apply andb_true_iff in Hok as [Hf Hok].
    rewrite toBuf_cons in Henc.
    apply bind_Ok_inv in Henc as (b1 & Hb1 & Henc).
    apply bind_Ok_inv in Henc as (b2 & Hb2 & Henc). injection Henc as <-.
    rewrite weight_cons, length_app.
    pose proof (field_weight_bytes f b1 Hf Hb1). specialize (IH _ Hok Hb2). lia.
Qed.

Lemma parsed_weight bs T :
  ProtoBuf_of_bytes bs = Ok T -> (weight T <= length bs)%nat.
Proof.
  intros H. destruct (reserialize_shortest bs T H) as (enc & Henc & Hlen & _).
  pose proof (weight_bytes T enc (ProtoBuf_of_bytes_wire_ok bs T H) Henc). lia.
Qed.

Lemma toDictAuto_fuel_enough fuel : forall self,
  (weight self < fuel)%nat -> auto fuel self <> OutOfFuel.
Proof.
  induction fuel as [|fuel IH]; intros self Hw; [lia|].
  rewrite toDictAuto_fuel_S.
  enough (Hloop : forall fields intermediate,
             (forall f, In f fields -> (field_weight f <= fuel)%nat) ->
             loop_with unicode_isprintable unicode_isspace (auto fuel)
               fields intermediate <> OutOfFuel).
  { specialize (Hloop self []).
    destruct (loop_with _ _ _ self []); cbn [bind]; try discriminate.
    exfalso. apply Hloop; [|reflexivity].
    intros f Hin. clear -Hin Hw. induction self as [|f0 self IHs]; [contradiction|].
    rewrite weight_cons in Hw. destruct Hin as [->|Hin]; [lia|].
    apply IHs; [lia|assumption]. }
  assert (Hrep : forall bs, (length bs < fuel)%nat ->
                   reparse_with (auto fuel) bs <> OutOfFuel).
  { intros bs Hbs. unfold reparse_with.
    pose proof (ProtoBuf_of_bytes_fuel bs) as Hp.
    destruct (ProtoBuf_of_bytes bs) as [nested|e|] eqn:E; [| |contradiction].
    - destruct nested as [|f0 nested]; [discriminate|].
      pose proof (parsed_weight _ _ E) as Hwn.
      pose proof (IH (f0 :: nested) ltac:(lia)) as Hn.
      destruct (auto fuel (f0 :: nested)); cbn [bind]; congruence.
    - destruct e; discriminate. }
  induction fields as [|f fields IHf]; intros intermediate Hf.
  { discriminate. }
  change (loop_with unicode_isprintable unicode_isspace (auto fuel)
            (f :: fields) intermediate)
    with (value <- value_with unicode_isprintable unicode_isspace (auto fuel) f ;;
          match value with
          | Some value =>
              loop_with unicode_isprintable unicode_isspace (auto fuel) fields
                (dict_append intermediate (idx f) value)
          | None =>
              loop_with unicode_isprintable unicode_isspace (auto fuel) fields
                intermediate
          end).
  assert (Hv : value_with unicode_isprintable unicode_isspace (auto fuel) f
               <> OutOfFuel).
  { pose proof (Hf f (or_introl eq_refl)) as Hwf.
    destruct f as [i t v]. unfold value_with. cbn [type val idx].
    destruct t; try discriminate.
    - destruct v as [z|bs|pb]; try discriminate.
      cbn [field_weight] in Hwf.
      destruct (utf8_decode bs) as [decoded|]; [|apply Hrep; lia].
      destruct (forallb _ decoded); [discriminate|apply Hrep; lia].
    - destruct v as [z|bs|pb]; try discriminate.
      rewrite field_weight_group in Hwf.
      pose proof (IH pb ltac:(lia)) as Hn.
      destruct (auto fuel pb); cbn [bind]; congruence. }
  destruct (value_with _ _ _ f) as [[value|]| |]; cbn [bind];
    try discriminate; try contradiction;
    apply IHf; intros f' Hin; apply Hf; right; assumption.
Qed.

(** [toDictAuto] returns or raises on every tree. *)
Lemma toDictAuto_terminates self :
  toDictAuto unicode_isprintable unicode_isspace self <> OutOfFuel.
Proof. apply toDictAuto_fuel_enough. lia. Qed.

End AutoExport.

(** ** The end of the stack *)

Section CallStack.

Lemma stack_parseFields_S limit fuel self reader group_idx_end :
  Stack._parseFields limit (S fuel) self reader group_idx_end =
  if isRemain reader 1 then
    '(key, reader) <- readVarint reader ;;
    if Z.shiftr key 3 =? 0 then Raise (ProtoError InvalidFieldIndex0)
    else
      match ProtoFieldType_of_value (Z.land key 0x7) with
      | None =>
          match skipField (S (S (length (stream reader)))) reader (Z.land key 0x7) with
          | Ok reader => Stack._parseFields limit fuel self reader group_idx_end
          | Raise (ProtoError e) =>
              Raise (ProtoError
                       (ErrorSkippingUnknownField (Z.shiftr key 3) (Z.land key 0x7) e))
          | Raise IndexError =>
              Raise (ProtoError
                       (TruncatedSkippingUnknownField (Z.shiftr key 3) (Z.land key 0x7)))
          | Raise e => Raise e
          | OutOfFuel => OutOfFuel
          end
      | Some field_type =>
          Stack.after_tag limit fuel self reader group_idx_end (Z.shiftr key 3)
            field_type
      end
  else
    match group_idx_end with
    | Some _ => Ok (false, self, reader)
    | None => Ok (true, self, reader)
    end.
Proof. reflexivity. Qed.

(** A run within the stack is the run as written, unless a call did
    not fit. *)
Lemma stack_parse_cases fuel : forall limit self r g,
  Stack._parseFields limit fuel self r g = _parseFields fuel self r g \/
  Stack._parseFields limit fuel self r g = Raise RecursionError.
Proof.
  induction fuel as [|fuel IH]; intros limit self r g; [left; reflexivity|].
  rewrite stack_parseFields_S, _parseFields_S.
  destruct (isRemain r 1); [|left; reflexivity].
  destruct (readVarint r) as [[key r1]| |]; cbn [bind]; try (left; reflexivity).
  destruct (Z.shiftr key 3 =? 0); [left; reflexivity|].
  destruct (ProtoFieldType_of_value (Z.land key 7)) as [t|] eqn:Et.
  2:{ rewrite skipField_unknown by assumption. left. reflexivity. }
  unfold after_tag, Stack.after_tag.
  destruct (match g with Some g0 => _ | None => false end); [left; reflexivity|].
  destruct t.
  - destruct (readVarint r1) as [[v r2]| |]; cbn [bind]; try (left; reflexivity).
    apply IH.
  - destruct (readInt64 r1) as [[v r2]| |]; cbn [bind]; try (left; reflexivity).
    apply IH.
  - destruct (readString r1) as [[v r2]| |]; cbn [bind]; try (left; reflexivity).
    apply IH.
  - destruct limit as [|below]; [right; reflexivity|].
    destruct (IH below [] r1 (Some (Z.shiftr key 3))) as [E|E]; rewrite E.
    + destruct (_parseFields fuel [] r1 _) as [[[fe nested] r2]| |]; cbn [bind];
        try (left; reflexivity).
      destruct (negb fe); [left; reflexivity|]. apply IH.
    + right. reflexivity.
  - left. reflexivity.
  - destruct (readInt32 r1) as [[v r2]| |]; cbn [bind]; try (left; reflexivity).
    apply IH.
Qed.

Lemma stack_ProtoBuf_cases limit data :
  Stack.ProtoBuf_of_bytes limit data = ProtoBuf_of_bytes data \/
  Stack.ProtoBuf_of_bytes limit data = Raise (ProtoError UnexpectedErrorParsing).
Proof.
  unfold Stack.ProtoBuf_of_bytes, ProtoBuf_of_bytes.
  destruct (_ >? 0); [|left; reflexivity].
  destruct (stack_parse_cases (S (length data)) limit [] (mkReader data) None)
    as [E|E]; rewrite E; [left|right]; reflexivity.
Qed.

Lemma depth_app a b : depth (a ++ b) = Nat.max (depth a) (depth b).
Proof.
  induction a as [|f a IH]; cbn [app depth]; [reflexivity|]. rewrite IH. lia.
Qed.

Lemma depth_put self f : depth (put self f) = Nat.max (depth self) (field_depth f).
Proof. unfold put. rewrite depth_app. cbn [depth]. lia. Qed.

Lemma parse_depth_mono f : forall self r g b T r',
  _parseFields f self r g = Ok (b, T, r') -> (depth self <= depth T)%nat.
Proof.
  induction f as [|f IH]; intros self r g b T r' H; [discriminate|].
  rewrite _parseFields_S in H.
  destruct (isRemain r 1).
  2:{ destruct g; injection H as <- <- <-; lia. }
  apply bind_Ok_inv in H as ([key r1] & Hkey & H).
  destruct (Z.shiftr key 3 =? 0); [discriminate|].
  destruct (ProtoFieldType_of_value (Z.land key 7)) as [t|] eqn:Et.
  2:{ rewrite skipField_unknown in H by assumption. discriminate. }
  unfold after_tag in H.
  destruct (match g with Some g0 => _ | None => false end).
  { injection H as <- <- <-. lia. }
  destruct t; try discriminate;
    try (apply bind_Ok_inv in H as ([v r2] & Hv & H);
         apply IH in H; rewrite depth_put in H; lia).
  apply bind_Ok_inv in H as ([[fe nested] r2] & Hn & H).
  destruct (negb fe); [discriminate|].
  apply IH in H. rewrite depth_put in H. lia.
Qed.

(** A run that returns a tree no deeper than the stack is the same
    within the stack. *)
Lemma stack_parse_agree f : forall limit self r g b T r',
  _parseFields f self r g = Ok (b, T, r') -> (depth T <= limit)%nat ->
  Stack._parseFields limit f self r g = Ok (b, T, r').
Proof.
  induction f as [|f IH]; intros limit self r g b T r' H Hd; [discriminate|].
  rewrite _parseFields_S in H. rewrite stack_parseFields_S.
  destruct (isRemain r 1); [|exact H].
  apply bind_Ok_inv in H as ([key r1] & Hkey & H). rewrite Hkey. cbn [bind].
  destruct (Z.shiftr key 3 =? 0); [discriminate|].
  destruct (ProtoFieldType_of_value (Z.land key 7)) as [t|] eqn:Et.
  2:{ rewrite skipField_unknown in H by assumption. discriminate. }
  unfold after_tag in H. unfold Stack.after_tag.
  destruct (match g with Some g0 => _ | None => false end); [exact H|].
  destruct t; try discriminate;
    try (apply bind_Ok_inv in H as ([v r2] & Hv & H); rewrite Hv; cbn [bind];
         apply IH; assumption).
  apply bind_Ok_inv in H as ([[fe nested] r2] & Hn & H).
  destruct fe; [|discriminate]. cbn [negb] in H.
  pose proof (parse_depth_mono _ _ _ _ _ _ _ H) as Hm.
  rewrite depth_put, field_depth_group in Hm.
  destruct limit as [|below]; [lia|].
  rewrite (IH below _ _ _ _ _ _ Hn) by lia. cbn [bind negb].
  apply IH; assumption.
Qed.

(** And a run within the stack never returns a deeper tree. *)
Lemma stack_parse_depth f : forall limit self r g b T r',
  Stack._parseFields limit f self r g = Ok (b, T, r') ->
  (depth self <= limit)%nat -> (depth T <= limit)%nat.
Proof.
  induction f as [|f IH]; intros limit self r g b T r' H Hs; [discriminate|].
  rewrite stack_parseFields_S in H.
  destruct (isRemain r 1).
  2:{ destruct g; injection H as <- <- <-; assumption. }
  apply bind_Ok_inv in H as ([key r1] & Hkey & H).
  destruct (Z.shiftr key 3 =? 0); [discriminate|].
  destruct (ProtoFieldType_of_value (Z.land key 7)) as [t|] eqn:Et.
  2:{ rewrite skipField_unknown in H by assumption. discriminate. }
  unfold Stack.after_tag in H.
  destruct (match g with Some g0 => _ | None => false end).
  { injection H as <- <- <-. assumption. }
  destruct t; try discriminate;
    try (apply bind_Ok_inv in H as ([v r2] & Hv & H);
         apply IH in H; [exact H|rewrite depth_put; cbn [field_depth]; lia]).
  destruct limit as [|below]; [discriminate|].
  apply bind_Ok_inv in H as ([[fe nested] r2] & Hn & H).
  destruct (negb fe); [discriminate|].
  apply IH in Hn; [|cbn; lia].
  apply IH in H; [exact H|]. rewrite depth_put, field_depth_group. lia.
Qed.

Lemma stack_ProtoBuf_agree limit data T :
  ProtoBuf_of_bytes data = Ok T -> (depth T <= limit)%nat ->
  Stack.ProtoBuf_of_bytes limit data = Ok T.
Proof.
  intros H Hd. unfold Stack.ProtoBuf_of_bytes.
  apply ProtoBuf_of_bytes_Ok_inv in H as [[-> ->]|(b & r & H)]; [reflexivity|].
  destruct (_ >? 0) eqn:E.
  - rewrite (stack_parse_agree _ _ _ _ _ _ _ _ H Hd). reflexivity.
  - destruct data; [|cbn [length] in E; blia].
    cbn in H. injection H as _ <- _. reflexivity.
Qed.

Lemma stack_ProtoBuf_depth limit data T :
  Stack.ProtoBuf_of_bytes limit data = Ok T -> (depth T <= limit)%nat.
Proof.
  unfold Stack.ProtoBuf_of_bytes. destruct (_ >? 0).
  - destruct (Stack._parseFields _ _ _ _ _) as [[[b T'] r]|e|] eqn:E; try discriminate.
    + intros H. injection H as <-.
      apply (stack_parse_depth _ _ _ _ _ _ _ _ E). cbn. lia.
    + destruct e; discriminate.
  - intros H. injection H as <-. cbn. lia.
Qed.

Lemma stack_parse_tag limit fuel self i t rest g :
  idx_ok i = true ->
  Stack._parseFields limit (S fuel) self
    (mkReader (varint_bytes (tag_key i t) ++ rest)) g
  = Stack.after_tag limit fuel self (mkReader rest) g i t.
Proof.
  intros Hi. pose proof (tag_key_range i t Hi) as Hk.
  rewrite stack_parseFields_S.
  rewrite isRemain_app by (apply varint_bytes_nonempty; lia).
  rewrite readVarint_varint_bytes by assumption. cbn [bind].
  rewrite tag_key_shiftr, tag_key_land, ProtoFieldType_of_type_value.
  apply idx_ok_spec in Hi. destruct (i =? 0) eqn:E; [lia|]. reflexivity.
Qed.

(** More groups than the stack holds calls: the call for the first
    group that does not fit raises. *)
Lemma stack_nest_overflow limit : forall n fuel self rest g,
  (limit < n)%nat -> (limit < fuel)%nat ->
  Stack._parseFields limit fuel self (mkReader (nest_bytes n ++ rest)) g
  = Raise RecursionError.
Proof.
  induction limit as [|below IH]; intros n fuel self rest g Hn Hf;
    (destruct n as [|n]; [lia|]); (destruct fuel as [|fuel]; [lia|]);
    cbn [nest_bytes];
    change (byte.of_Z 11 :: nest_bytes n ++ [byte.of_Z 12])
      with (varint_bytes (tag_key 1 GROUPSTART)
              ++ (nest_bytes n ++ [byte.of_Z 12]));
    rewrite <- !app_assoc;
    rewrite stack_parse_tag by reflexivity;
    unfold Stack.after_tag; rewrite guard_not_end by discriminate.
  - reflexivity.
  - rewrite IH by lia. reflexivity.
Qed.

Lemma nest_bytes_length n : length (nest_bytes n) = (2 * n)%nat.
Proof.
  induction n as [|n IH]; [reflexivity|].
  cbn [nest_bytes length]. rewrite length_app, IH. cbn [length]. lia.
Qed.

Lemma stack_nest_refused limit n :
  (limit < n)%nat ->
  Stack.ProtoBuf_of_bytes limit (nest_bytes n)
  = Raise (ProtoError UnexpectedErrorParsing).
Proof.
  intros Hn. unfold Stack.ProtoBuf_of_bytes.
  pose proof (nest_bytes_length n) as Hl.
  destruct (_ >? 0) eqn:E; [|blia].
  rewrite <- (app_nil_r (nest_bytes n)) at 2.
  rewrite stack_nest_overflow by lia. reflexivity.
Qed.

(** *** Serializing within the stack *)

Lemma stack_toBuf_field_eq limit idx type val writer :
  Stack.toBuf_field limit (mkField idx type val) writer =
  (writer <- writeVarint writer (tag_key idx type) ;;
   match type with
   | VARINT =>
       match val with
       | VInt v => writeVarint writer v
       | _ => Raise TypeError
       end
   | INT64 =>
       match val with
       | VInt v => writeInt64 writer v
       | _ => Raise AttributeError
       end
   | STRING =>
       val_bytes <-
         match val with
         | VProtoBuf pb => Stack.toBuf_call limit pb
         | VBytes bs => Ok bs
         | VInt n => bytes_of_int n
         end ;;
       writeString writer val_bytes
   | INT32 =>
       match val with
       | VInt v => writeInt32 writer v
       | _ => Raise AttributeError
       end
   | GROUPSTART =>
       match val with
       | VProtoBuf pb =>
           group_bytes <- Stack.toBuf_call limit pb ;;
           writeVarint (write writer group_bytes) (tag_key idx GROUPEND)
       | _ => Raise (ProtoError (GroupValueNotProtoBuf idx))
       end
   | GROUPEND => Ok writer
   end).
Proof. destruct type, val, limit; reflexivity. Qed.

Lemma stack_toBuf_field_agree : forall f limit w,
  wire_ok f = true -> (field_depth f <= limit)%nat ->
  Stack.toBuf_field limit f w = toBuf_field f w.
Proof.
  induction f as [i t z|i t bs|i t pb IH] using ProtoField_tree_ind;
    intros limit w Hok Hd; rewrite stack_toBuf_field_eq, toBuf_field_eq.
  - destruct t; reflexivity.
  - destruct t; reflexivity.
  - cbn [wire_ok] in Hok. apply andb_true_iff in Hok as [_ Hok].
    destruct t; try discriminate.
    rewrite field_depth_group in Hd. destruct limit as [|below]; [lia|].
    cbn [Stack.toBuf_call].
    enough (E : Stack.toBuf below pb = toBuf pb) by (rewrite E; reflexivity).
    unfold Stack.toBuf, toBuf.
    enough (E : forall w0, Stack.toBuf_loop below pb w0 = toBuf_loop pb w0)
      by (rewrite E; reflexivity).
    assert (Hb : (depth pb <= below)%nat) by lia. clear Hd.
    induction IH as [|f pb Hf _ IHpb]; intros w0; [reflexivity|].
    cbn [forallb] in Hok. apply andb_true_iff in Hok as [Hf1 Hok].
    cbn [depth] in Hb.
    change (Stack.toBuf_loop below (f :: pb) w0)
      with (writer <- Stack.toBuf_field below f w0 ;;
            Stack.toBuf_loop below pb writer).
    cbn [toBuf_loop]. rewrite (Hf below w0 Hf1) by lia.
    destruct (toBuf_field f w0); cbn [bind]; try reflexivity.
    apply IHpb; [assumption|lia].
Qed.

Lemma stack_toBuf_agree limit T :
  forallb wire_ok T = true -> (depth T <= limit)%nat ->
  Stack.toBuf limit T = toBuf T.
Proof.
  intros Hok Hd. unfold Stack.toBuf, toBuf.
  enough (E : forall w, Stack.toBuf_loop limit T w = toBuf_loop T w)
    by (rewrite E; reflexivity).
  induction T as [|f T IH]; intros w; [reflexivity|].
  cbn [forallb] in Hok. apply andb_true_iff in Hok as [Hf Hok].
  cbn [depth] in Hd.
  change (Stack.toBuf_loop limit (f :: T) w)
    with (writer <- Stack.toBuf_field limit f w ;; Stack.toBuf_loop limit T writer).
  cbn [toBuf_loop]. rewrite (stack_toBuf_field_agree f limit w Hf) by lia.
  destruct (toBuf_field f w); cbn [bind]; try reflexivity.
  apply IH; [assumption|lia].
Qed.

Lemma stack_toBuf_group limit i pb :
  Stack.toBuf limit [mkField i GROUPSTART (VProtoBuf pb)] =
  (body <- Stack.toBuf_call limit pb ;;
   Ok (varint_bytes (tag_key i GROUPSTART) ++ body
       ++ varint_bytes (tag_key i GROUPEND))).
Proof.
  unfold Stack.toBuf.
  change (Stack.toBuf_loop limit [mkField i GROUPSTART (VProtoBuf pb)] (mkWriter []))
    with (writer <- Stack.toBuf_field limit (mkField i GROUPSTART (VProtoBuf pb))
                      (mkWriter []) ;; Ok writer).
  rewrite stack_toBuf_field_eq, writeVarint_bytes. cbn [bind data app].
  destruct (Stack.toBuf_call limit pb) as [body| |]; cbn [bind]; try reflexivity.
  unfold write. rewrite writeVarint_bytes. cbn [bind data]. unfold toBytes.
  cbn [data]. rewrite <- app_assoc. reflexivity.
Qed.

Lemma stack_toBuf_overflow limit : forall n,
  (limit < n)%nat -> Stack.toBuf limit (nest_tree n) = Raise RecursionError.
Proof.
  induction limit as [|below IH]; intros n Hn; (destruct n as [|n]; [lia|]);
    cbn [nest_tree]; rewrite stack_toBuf_group; cbn [Stack.toBuf_call].
  - reflexivity.
  - rewrite IH by lia. reflexivity.
Qed.

End CallStack.

(** ** The boundary of [readVarint] *)

Lemma readVarint_loop_final cont : forall b rest acc n,
  Forall is_continuation cont -> 0 <= n -> n + Z.of_nat (length cont) <= 10 ->
  byte.unsigned b < 128 ->
  exists v, readVarint_loop (cont ++ b :: rest) acc n = Ok (v, mkReader rest).
Proof.
  induction cont as [|c cont IH]; intros b rest acc n Hc Hn Hl Hb;
    cbn [app readVarint_loop].
  - destruct (byte.unsigned b <? 128) eqn:E; [eauto|blia].
  - inversion Hc as [|? ? Hc0 Hc']; subst. unfold is_continuation in Hc0.
    destruct (byte.unsigned c <? 128) eqn:E; [blia|].
    cbn [length] in Hl. rewrite Nat2Z.inj_succ in Hl.
    destruct (n + 1 >? 10) eqn:E2; [blia|].
    apply IH; [assumption|lia|lia|assumption].
Qed.

Lemma raises_too_long cont rest :
  Forall is_continuation cont -> (10 < length cont)%nat ->
  raises (cont ++ rest) (ProtoError VarintTooLong).
Proof.
  intros Hc Hl self g. exists 1%nat. rewrite _parseFields_S.
  rewrite isRemain_app by (destruct cont; [cbn in Hl; lia|discriminate]).
  unfold readVarint. cbn [stream].
  rewrite readVarint_loop_too_long by (assumption || lia). reflexivity.
Qed.

Lemma tag_key_bound i t : 0 <= i < 2 ^ 74 -> 0 <= tag_key i t < 2 ^ 77.
Proof.
  intros Hi. rewrite tag_key_add. change (2 ^ 77) with (8 * 2 ^ 74).
  destruct t; cbn [type_value]; lia.
Qed.

(* ================================================================= *)
(** * The claims *)




(** C5: for every unsigned 64-bit [v], [readVarint] reads back [v] from
    the bytes [writeVarint] appends, and these are [ceil(bits(v)/7)]
    bytes, one byte for [v = 0]. *)
Theorem varint_law v w rest :
  0 <= v < 2 ^ 64 ->
  exists bs,
    writeVarint w v = Ok (mkWriter (data w ++ bs)) /\
    readVarint (mkReader (bs ++ rest)) = Ok (v, mkReader rest) /\
    Z.of_nat (length bs) = Z.max 1 ((bit_length v + 6) / 7).
Proof.
  intros Hv. exists (varint_bytes v). split; [apply writeVarint_bytes|]. split.
  - apply readVarint_varint_bytes.
    assert (2 ^ 64 < 2 ^ 77) by (apply Z.pow_lt_mono_r; lia). lia.
  - apply varint_bytes_length. lia.
Qed.

Lemma varint_law_witness :
  exists bs,
    writeVarint (mkWriter []) 300 = Ok (mkWriter ([] ++ bs)) /\
    readVarint (mkReader (bs ++ [])) = Ok (300, mkReader []) /\
    Z.of_nat (length bs) = Z.max 1 ((bit_length 300 + 6) / 7).
Proof.
  apply (varint_law 300 (mkWriter []) []). split; [discriminate|reflexivity].
Defined.

(** C9: for a negative [v], [writeVarint] appends nothing, so that a
    field put with [putVarint] and a negative value serializes as its
    tag alone. *)
Theorem writeVarint_negative v w self i :
  v < 0 ->
  writeVarint w v = Ok w /\
  exists tag,
    writeVarint (mkWriter []) (tag_key i VARINT) = Ok (mkWriter tag) /\
    toBuf (putVarint self i v) = (bs <- toBuf self ;; Ok (bs ++ tag)).
Proof.
  intros Hv. split.
  - rewrite writeVarint_bytes. rewrite (varint_bytes_neg v Hv).
    rewrite app_nil_r. destruct w; reflexivity.
  - exists (varint_bytes (tag_key i VARINT)). split; [apply writeVarint_bytes|].
    unfold putVarint, put. rewrite toBuf_app, toBuf_cons, field_bytes_eq.
    rewrite (varint_bytes_neg v Hv), toBuf_nil. cbn [bind].
    destruct (toBuf self); cbn [bind]; try reflexivity.
    rewrite !app_nil_r. reflexivity.
Qed.

Lemma writeVarint_negative_witness :
  writeVarint (mkWriter []) (-1) = Ok (mkWriter []) /\
  exists tag,
    writeVarint (mkWriter []) (tag_key 1 VARINT) = Ok (mkWriter tag) /\
    toBuf (putVarint [] 1 (-1)) = (bs <- toBuf [] ;; Ok (bs ++ tag)).
Proof.
  apply (writeVarint_negative (-1) (mkWriter []) [] 1). reflexivity.
Defined.

(** C10: on a field number that no stored field carries, [getInt]
    returns the default 0 while [getBytes], [getUtf8] and [getProtoBuf]
    return [None]; and [getInt] raises exactly when the first field with
    that number exists and is not of type VARINT, INT32 or INT64. *)
Theorem get_missing_defaults (py_str : PyVal -> str) (self : ProtoBuf) (i : Z) :
  ((forall f, In f self -> idx f <> i) ->
   getInt self i = Ok (VInt 0) /\
   getBytes py_str self i = Ok None /\
   getUtf8 py_str self i = Ok None /\
   getProtoBuf self i = Ok None) /\
  ((exists e, getInt self i = Raise e) <->
   (exists pf, get self i = Some pf /\
               type pf <> VARINT /\ type pf <> INT32 /\ type pf <> INT64)).
Proof.
  split.
  - intros H. apply get_None in H.
    unfold getInt, getUtf8, getBytes, getProtoBuf. rewrite H. cbn [bind].
    repeat split.
  - unfold getInt. destruct (get self i) as [pf|].
    + split.
      * intros [e He]. exists pf. split; [reflexivity|].
        destruct (type pf); try discriminate; repeat split; discriminate.
      * intros (pf' & Hpf & H1 & H2 & H3). injection Hpf as <-.
        destruct (type pf); try congruence; eexists; reflexivity.
    + split; [intros [e He]; discriminate|intros (pf & Hpf & _); discriminate].
Qed.

Lemma get_missing_defaults_witness :
  getInt [mkField 1 STRING (VBytes [])] 2 = Ok (VInt 0) /\
  getBytes (fun _ => []) [mkField 1 STRING (VBytes [])] 2 = Ok None /\
  getUtf8 (fun _ => []) [mkField 1 STRING (VBytes [])] 2 = Ok None /\
  getProtoBuf [mkField 1 STRING (VBytes [])] 2 = Ok None.
Proof.
  apply (proj1 (get_missing_defaults (fun _ => []) [mkField 1 STRING (VBytes [])] 2)).
  intros f [<-|[]]. discriminate.
Defined.

(** C6: two fields numbered 7 holding "a" and "b" export to
    [{7: ["a", "b"]}]; importing that dict and exporting again gives the
    same list; a single field numbered 7 holding "a" exports to the bare
    [{7: "a"}]. *)
Theorem collapse_law (unicode_isprintable unicode_isspace : Z -> bool) :
  let a := hex [0x61] in
  let b := hex [0x62] in
  let exported := PDict [(7, PList [PStr [0x61]; PStr [0x62]])] in
  toDictAuto unicode_isprintable unicode_isspace
    [mkField 7 STRING (VBytes a); mkField 7 STRING (VBytes b)] = Ok exported /\
  (exists imported,
      ProtoBuf_init exported = Ok imported /\
      toDictAuto unicode_isprintable unicode_isspace imported = Ok exported) /\
  toDictAuto unicode_isprintable unicode_isspace [mkField 7 STRING (VBytes a)]
  = Ok (PDict [(7, PStr [0x61])]).
Proof.
  cbv zeta. split; [reflexivity|]. split; [|reflexivity].
  eexists. split; reflexivity.
Qed.

(** C7: a parsed tree stores no [GROUPEND] field and a nested tree
    under every [GROUPSTART], at every depth; and the bytes that [toBuf]
    writes for a [GROUPSTART] field are a start tag, the bytes of the
    nested tree and an end tag, where the two tags read back as the
    field number with wire types 3 and 4: the end tag is made from the
    field number of the [GROUPSTART] field. *)
Theorem group_invariant :
  (forall data T, ProtoBuf_of_bytes data = Ok T -> forallb group_inv T = true) /\
  (forall limit i pb body,
      0 <= i < 2 ^ 74 ->
      Stack.toBuf limit pb = Ok body ->
      exists start_tag end_tag,
        Stack.toBuf (S limit) [mkField i GROUPSTART (VProtoBuf pb)]
        = Ok (start_tag ++ body ++ end_tag) /\
        (forall rest, readVarint (mkReader (start_tag ++ rest))
                      = Ok (Z.lor (Z.shiftl i 3) 3, mkReader rest)) /\
        (forall rest, readVarint (mkReader (end_tag ++ rest))
                      = Ok (Z.lor (Z.shiftl i 3) 4, mkReader rest))).
Proof.
  split.
  - intros data T H. apply ProtoBuf_of_bytes_wire_ok in H.
    revert H. apply forallb_impl. apply group_inv_of_wire_ok.
  - intros limit i pb body Hi Hbody.
    exists (varint_bytes (tag_key i GROUPSTART)), (varint_bytes (tag_key i GROUPEND)).
    split; [|split].
    + rewrite stack_toBuf_group. cbn [Stack.toBuf_call]. rewrite Hbody. reflexivity.
    + intros rest. apply (readVarint_varint_bytes (tag_key i GROUPSTART)).
      apply tag_key_bound. exact Hi.
    + intros rest. apply (readVarint_varint_bytes (tag_key i GROUPEND)).
      apply tag_key_bound. exact Hi.
Qed.

Lemma group_invariant_witness :
  forallb group_inv [mkField 5 GROUPSTART (VProtoBuf [mkField 9 VARINT (VInt 3)])]
  = true /\
  exists start_tag end_tag,
    Stack.toBuf 1 [mkField 5 GROUPSTART (VProtoBuf [mkField 9 VARINT (VInt 3)])]
    = Ok (start_tag ++ hex [0x48; 0x03] ++ end_tag) /\
    (forall rest, readVarint (mkReader (start_tag ++ rest))
                  = Ok (Z.lor (Z.shiftl 5 3) 3, mkReader rest)) /\
    (forall rest, readVarint (mkReader (end_tag ++ rest))
                  = Ok (Z.lor (Z.shiftl 5 3) 4, mkReader rest)).
Proof.
  split.
  - apply (proj1 group_invariant (hex [0x2b; 0x48; 0x03; 0x2c])). reflexivity.
  - apply (proj2 group_invariant 0%nat 5 [mkField 9 VARINT (VInt 3)]
             (hex [0x48; 0x03])).
    + split; reflexivity || discriminate.
    + reflexivity.
Defined.

(** C4, as stated, fails: a positive field number from [2^74] on makes a
    tag of twelve bytes, which [readVarint] refuses. *)
Lemma scalar_roundtrip_counterexample :
  forallb op_in_range [PutVarint (2 ^ 74) 0] = true /\
  exists T B,
    build [PutVarint (2 ^ 74) 0] [] = Ok T /\
    toBuf T = Ok B /\
    ProtoBuf_of_bytes B = Raise (ProtoError (ParsingNear VarintTooLong)).
Proof.
  split; [reflexivity|]. eexists. eexists.
  split; [reflexivity|]. split; [reflexivity|]. reflexivity.
Qed.

(** C4, amended: a tree built by scalar puts with field numbers between
    1 and [2^74 - 1], values in the range of their wire type and byte
    payloads shorter than [2^77] serializes, and parsing the bytes gives
    the same list of fields back: same count, order, wire types and
    values. *)
Theorem scalar_roundtrip ops T :
  forallb op_readable ops = true ->
  build ops [] = Ok T ->
  exists B, toBuf T = Ok B /\ ProtoBuf_of_bytes B = Ok T.
Proof.
  intros Hops Hb. apply parse_toBuf.
  apply (build_wire_ok ops [] T Hops eq_refl Hb).
Qed.

Lemma scalar_roundtrip_witness :
  exists B,
    toBuf [mkField 1 VARINT (VInt 150); mkField 2 STRING (VBytes (hex [0x68; 0x69]));
           mkField 3 INT32 (VInt 7); mkField 4 INT64 (VInt 9);
           mkField 5 STRING (VBytes (hex [0xff]))] = Ok B /\
    ProtoBuf_of_bytes B
    = Ok [mkField 1 VARINT (VInt 150); mkField 2 STRING (VBytes (hex [0x68; 0x69]));
          mkField 3 INT32 (VInt 7); mkField 4 INT64 (VInt 9);
          mkField 5 STRING (VBytes (hex [0xff]))].
Proof.
  apply (scalar_roundtrip
           [PutVarint 1 150; PutUtf8 2 [0x68; 0x69]; PutInt32 3 7; PutInt64 4 9;
            PutBytes 5 (hex [0xff])]); reflexivity.
Defined.

(** C2, as stated, fails: the codec has no depth bound and no error of
    its own for one.  On a stack with room for a hundred and one nested
    calls, a hundred and one nested groups parse, to a tree a hundred
    and one levels deep. *)
Lemma depth_bound_counterexample :
  Stack.ProtoBuf_of_bytes 101 (nest_bytes 101) = Ok (nest_tree 101) /\
  depth (nest_tree 101) = 101%nat.
Proof.
  split; [|apply nest_depth].
  apply stack_ProtoBuf_agree; [apply nest_parse|]. rewrite nest_depth. lia.
Qed.

(** C2, amended: the descent into nested groups is bounded by the stack
    of the interpreter and by nothing else.  With room for [limit]
    nested calls, a parse that returns has descended [limit] levels at
    most; [n <= limit] nested and properly closed groups parse to a tree
    [n] levels deep; and [n > limit] of them fail with the [ProtoError]
    "Unexpected error parsing" that [ProtoBuf.__init__] makes of the
    [RecursionError]. *)
Theorem depth_bounded_by_stack limit :
  (forall data T,
     Stack.ProtoBuf_of_bytes limit data = Ok T -> (depth T <= limit)%nat) /\
  (forall n, (n <= limit)%nat ->
     Stack.ProtoBuf_of_bytes limit (nest_bytes n) = Ok (nest_tree n) /\
     depth (nest_tree n) = n) /\
  (forall n, (limit < n)%nat ->
     Stack.ProtoBuf_of_bytes limit (nest_bytes n)
     = Raise (ProtoError UnexpectedErrorParsing)).
Proof.
  split; [|split].
  - apply stack_ProtoBuf_depth.
  - intros n Hn. split; [|apply nest_depth].
    apply stack_ProtoBuf_agree; [apply nest_parse|]. rewrite nest_depth. exact Hn.
  - apply stack_nest_refused.
Qed.

Lemma depth_bounded_by_stack_witness :
  (Stack.ProtoBuf_of_bytes 2 (nest_bytes 2) = Ok (nest_tree 2) /\
   depth (nest_tree 2) = 2%nat) /\
  Stack.ProtoBuf_of_bytes 2 (nest_bytes 3)
  = Raise (ProtoError UnexpectedErrorParsing).
Proof.
  destruct (depth_bounded_by_stack 2) as (_ & Hfit & Hdeep).
  split; [apply (Hfit 2%nat); lia|apply (Hdeep 3%nat); lia].
Defined.







(* ================================================================= *)
(** * Further properties of the codec *)

(** ** Malformed input *)

Section Malformed.

Lemma raises_in_fields g pre tail e :
  forallb wire_ok pre = true -> raises_in g tail e ->
  raises_in g (serialized pre ++ tail) e.
Proof.
  intros Hpre Ht self. destruct (serialized_toBuf pre Hpre) as [_ Hr].
  destruct (Ht (self ++ pre)) as [f Hf].
  apply (Hr f self tail g _ Hf). discriminate.
Qed.

Lemma raises_in_group g k tail e :
  idx_ok k = true -> raises_in (Some k) tail e ->
  raises_in g (varint_bytes (tag_key k GROUPSTART) ++ tail) e.
Proof.
  intros Hk Ht self. destruct (Ht []) as [f Hf].
  exists (S f). rewrite parse_tag by assumption. unfold after_tag.
  rewrite guard_not_end by discriminate. rewrite Hf. reflexivity.
Qed.

Lemma raises_in_frames frames : forall g tail e,
  frames_ok frames = true -> raises_in (innermost g frames) tail e ->
  raises_in g (open_prefix frames ++ tail) e.
Proof.
  induction frames as [|[pre k] frames IH]; intros g tail e;
    cbn [open_prefix frames_ok forallb app innermost].
  - auto.
  - rewrite !andb_true_iff. intros [[Hpre Hk] Hfr] Ht.
    rewrite <- !app_assoc. apply raises_in_fields; [assumption|].
    apply raises_in_group; [assumption|]. apply IH; assumption.
Qed.

Lemma ProtoBuf_of_bytes_raises_in data e :
  raises_in None data e ->
  ProtoBuf_of_bytes data =
  Raise (ProtoError match e with
                    | IndexError => DataTruncated
                    | ProtoError m => ParsingNear m
                    | _ => UnexpectedErrorParsing
                    end).
Proof.
  intros H. destruct (H []) as [f Hf].
  pose proof (parse_top_agree _ _ _ _ _ Hf ltac:(discriminate)) as Htop.
  unfold ProtoBuf_of_bytes. destruct (_ >? 0) eqn:E.
  - rewrite Htop. destruct e; reflexivity.
  - destruct data; [|cbn [length] in E; blia].
    destruct f; cbn in Hf; discriminate.
Qed.

(** One iteration on a tag [8 * i + wt] that [readVarint] accepts. *)
Lemma parse_key fuel self i wt rest g :
  0 <= i < 2 ^ 74 -> 0 <= wt < 8 ->
  _parseFields (S fuel) self (mkReader (varint_bytes (8 * i + wt) ++ rest)) g =
  if i =? 0 then Raise (ProtoError InvalidFieldIndex0)
  else
    match ProtoFieldType_of_value wt with
    | None =>
        Raise (ProtoError (ErrorSkippingUnknownField i wt (CannotSkipUnknownWireType wt)))
    | Some t => after_tag fuel self (mkReader rest) g i t
    end.
Proof.
  intros Hi Hwt.
  assert (Hk : 0 <= 8 * i + wt < 2 ^ 77)
    by (change (2 ^ 77) with (8 * 2 ^ 74); lia).
  rewrite _parseFields_S.
  rewrite isRemain_app by (apply varint_bytes_nonempty; lia).
  rewrite readVarint_varint_bytes by assumption. cbn [bind].
  assert (Hs : Z.shiftr (8 * i + wt) 3 = i).
  { rewrite Z.shiftr_div_pow2 by lia. change (2 ^ 3) with 8.
    Z.to_euclidean_division_equations. lia. }
  assert (Hl : Z.land (8 * i + wt) 7 = wt).
  { change 7 with (Z.ones 3). rewrite Z.land_ones by lia. change (2 ^ 3) with 8.
    Z.to_euclidean_division_equations. lia. }
  rewrite Hs, Hl. destruct (i =? 0); [reflexivity|].
  destruct (ProtoFieldType_of_value wt) eqn:E; [reflexivity|].
  cbn [stream]. rewrite skipField_unknown by assumption. reflexivity.
Qed.

End Malformed.

(** X1: a tree with field numbers between 1 and [2^74 - 1], integers in
    the range of their wire type, byte strings under [STRING] and such
    trees under [GROUPSTART], nested no deeper than the stack holds
    calls, serializes, and parsing the bytes gives the tree back; groups
    nested deeper than the stack make [toBuf] raise [RecursionError]. *)
Theorem tree_roundtrip write_limit parse_limit :
  (forall T,
     forallb wire_ok T = true ->
     (depth T <= write_limit)%nat -> (depth T <= parse_limit)%nat ->
     exists B, Stack.toBuf write_limit T = Ok B /\
               Stack.ProtoBuf_of_bytes parse_limit B = Ok T) /\
  (forall n, (write_limit < n)%nat ->
     Stack.toBuf write_limit (nest_tree n) = Raise RecursionError).
Proof.
  split.
  - intros T Hok Hw Hp. destruct (parse_toBuf T Hok) as (B & HB & Hparse).
    exists B. split.
    + rewrite stack_toBuf_agree by assumption. exact HB.
    + apply stack_ProtoBuf_agree; assumption.
  - apply stack_toBuf_overflow.
Qed.

Lemma tree_roundtrip_witness :
  exists B,
    Stack.toBuf 2
      [mkField 5 GROUPSTART
         (VProtoBuf [mkField 9 VARINT (VInt 3);
                     mkField 2 GROUPSTART (VProtoBuf [])]);
       mkField 1 STRING (VBytes (hex [0x61]))] = Ok B /\
    Stack.ProtoBuf_of_bytes 2 B
    = Ok [mkField 5 GROUPSTART
            (VProtoBuf [mkField 9 VARINT (VInt 3);
                        mkField 2 GROUPSTART (VProtoBuf [])]);
          mkField 1 STRING (VBytes (hex [0x61]))].
Proof.
  apply (proj1 (tree_roundtrip 2 2)
           [mkField 5 GROUPSTART
              (VProtoBuf [mkField 9 VARINT (VInt 3);
                          mkField 2 GROUPSTART (VProtoBuf [])]);
            mkField 1 STRING (VBytes (hex [0x61]))]).
  - reflexivity.
  - cbn. lia.
  - cbn. lia.
Defined.

(** X2: in a parsed tree, at every depth, field numbers lie between 1
    and [2^74 - 1], varint values below [2^77], fixed 64-bit and 32-bit
    values below [2^64] and [2^32], and a [STRING] field holds bytes. *)
Theorem parsed_in_range data T :
  ProtoBuf_of_bytes data = Ok T -> forallb wire_ok T = true.
Proof. apply ProtoBuf_of_bytes_wire_ok. Qed.

Lemma parsed_in_range_witness :
  forallb wire_ok [mkField 1 INT32 (VInt 0x04030201)] = true.
Proof.
  apply (parsed_in_range (hex [0x0d; 0x01; 0x02; 0x03; 0x04])). reflexivity.
Defined.







(** ** Fixed-width integers, strings and concatenation *)

(** X6: a value in the range of a fixed 32-bit (64-bit) field is written
    on four (eight) bytes, from which [readInt32] ([readInt64]) reads it
    back; a negative or too large value makes the write raise
    [OverflowError]. *)
Theorem fixed_law :
  (forall w v rest, 0 <= v < 2 ^ 32 ->
     exists bs, writeInt32 w v = Ok (mkWriter (data w ++ bs)) /\
                length bs = 4%nat /\
                readInt32 (mkReader (bs ++ rest)) = Ok (v, mkReader rest)) /\
  (forall w v rest, 0 <= v < 2 ^ 64 ->
     exists bs, writeInt64 w v = Ok (mkWriter (data w ++ bs)) /\
                length bs = 8%nat /\
                readInt64 (mkReader (bs ++ rest)) = Ok (v, mkReader rest)) /\
  (forall w v, v < 0 \/ 2 ^ 32 <= v -> writeInt32 w v = Raise OverflowError) /\
  (forall w v, v < 0 \/ 2 ^ 64 <= v -> writeInt64 w v = Raise OverflowError).
Proof.
  split; [|split; [|split]].
  - intros w v rest Hv. exists (le_split 4 v).
    unfold writeInt32, readInt32. rewrite to_bytes_little_Ok by exact Hv.
    split; [reflexivity|]. split; [apply length_le_split|].
    change 4 with (Z.of_nat 4). apply read_le_split. exact Hv.
  - intros w v rest Hv. exists (le_split 8 v).
    unfold writeInt64, readInt64. rewrite to_bytes_little_Ok by exact Hv.
    split; [reflexivity|]. split; [apply length_le_split|].
    change 8 with (Z.of_nat 8). apply read_le_split. exact Hv.
  - intros w v Hv. unfold writeInt32, to_bytes_little.
    change (2 ^ (8 * Z.of_nat 4)) with (2 ^ 32).
    destruct (0 <=? v) eqn:E1; [|reflexivity].
    destruct (v <? 2 ^ 32) eqn:E2; [blia|reflexivity].
  - intros w v Hv. unfold writeInt64, to_bytes_little.
    change (2 ^ (8 * Z.of_nat 8)) with (2 ^ 64).
    destruct (0 <=? v) eqn:E1; [|reflexivity].
    destruct (v <? 2 ^ 64) eqn:E2; [blia|reflexivity].
Qed.

Lemma fixed_law_witness :
  (exists bs, writeInt32 (mkWriter []) 7 = Ok (mkWriter ([] ++ bs)) /\
              length bs = 4%nat /\
              readInt32 (mkReader (bs ++ [])) = Ok (7, mkReader [])) /\
  writeInt64 (mkWriter []) (-1) = Raise OverflowError.
Proof.
  destruct fixed_law as (H32 & _ & _ & H64). split.
  - apply (H32 (mkWriter []) 7 []). split; [discriminate|reflexivity].
  - apply (H64 (mkWriter []) (-1)). left. reflexivity.
Defined.

(** X7: [readString] reads back the bytes [writeString] wrote, whatever
    follows them, as long as their number is below [2^77]. *)
Theorem string_law w bs rest :
  Z.of_nat (length bs) < 2 ^ 77 ->
  exists enc,
    writeString w bs = Ok (mkWriter (data w ++ enc)) /\
    readString (mkReader (enc ++ rest)) = Ok (bs, mkReader rest).
Proof.
  intros Hl. exists (varint_bytes (Z.of_nat (length bs)) ++ bs).
  split; [apply writeString_bytes|].
  unfold readString. rewrite <- app_assoc.
  rewrite readVarint_varint_bytes by lia. cbn [bind].
  destruct (_ <? 0) eqn:E; [blia|]. apply read_app.
Qed.

Lemma string_law_witness :
  exists enc,
    writeString (mkWriter []) (hex [0x68; 0x69]) = Ok (mkWriter ([] ++ enc)) /\
    readString (mkReader (enc ++ hex [0x01]))
    = Ok (hex [0x68; 0x69], mkReader (hex [0x01])).
Proof.
  apply (string_law (mkWriter []) (hex [0x68; 0x69]) (hex [0x01])). reflexivity.
Defined.

(** X8: the bytes of a tree are those of its fields one after the other:
    serializing a concatenation gives the concatenation of the two
    serializations, and fails as soon as one of them fails. *)
Theorem toBuf_concat a b :
  toBuf (a ++ b) = (x <- toBuf a ;; y <- toBuf b ;; Ok (x ++ y)).
Proof. apply toBuf_app. Qed.





(** ** Lookup after put *)

(** X11: [get] returns the first field of [getList]; [put] appends, so
    a put never changes what [get] returned before: the new field is
    found only under a number that no stored field carries, and comes
    last in [getList]. *)
Theorem put_then_get self f i :
  get self i = hd_error (getList self i) /\
  getList (put self f) i = getList self i ++ (if idx f =? i then [f] else []) /\
  get (put self f) i =
  match get self i with
  | Some first => Some first
  | None => if idx f =? i then Some f else None
  end.
Proof.
  split; [|split].
  - induction self as [|x self IH]; [reflexivity|].
    cbn [get getList filter]. destruct (idx x =? i); [reflexivity|exact IH].
  - unfold getList, put. rewrite filter_app. cbn [filter].
    destruct (idx f =? i); reflexivity.
  - unfold put. induction self as [|x self IH]; cbn [get app].
    + destruct (idx f =? i); reflexivity.
    + destruct (idx x =? i); [reflexivity|exact IH].
Qed.

(** ** Skipping fields *)

Section Skip.

Lemma skipField_S fuel r wire_type :
  skipField (S fuel) r wire_type =
  if wire_type =? type_value VARINT then
    '(_, r) <- readVarint r ;; Ok r
  else if wire_type =? type_value INT64 then
    '(_, r) <- read r 8 ;; Ok r
  else if wire_type =? type_value STRING then
    '(length, r) <- readVarint r ;;
    '(_, r) <- read r length ;; Ok r
  else if wire_type =? type_value GROUPSTART then
    skipField_group fuel r 1
  else if wire_type =? type_value GROUPEND then
    Raise (ProtoError StandaloneGroupEnd)
  else if wire_type =? type_value INT32 then
    '(_, r) <- read r 4 ;; Ok r
  else Raise (ProtoError (CannotSkipUnknownWireType wire_type)).
Proof. reflexivity. Qed.

Lemma skipField_group_S fuel r depth :
  skipField_group (S fuel) r depth =
  if depth >? 0 then
    if negb (isRemain r 1) then Raise (ProtoError TruncatedSkippingGroup)
    else
      match
        ('(key, r) <- readVarint r ;;
         let wt := Z.land key 0x7 in
         if wt =? type_value GROUPEND then Ok (r, depth - 1)
         else if wt =? type_value GROUPSTART then Ok (r, depth + 1)
         else r <- skipField fuel r wt ;; Ok (r, depth))
      with
      | Ok (r, depth) => skipField_group fuel r depth
      | Raise IndexError => Raise (ProtoError TruncatedSkippingGroupField)
      | Raise (ProtoError e) => Raise (ProtoError (ErrorSkippingGroupField e))
      | Raise e => Raise e
      | OutOfFuel => OutOfFuel
      end
  else Ok r.
Proof. reflexivity. Qed.

Lemma readVarint_loop_raises s : forall acc n e,
  readVarint_loop s acc n = Raise e -> index_or_proto e.
Proof.
  induction s as [|b s IH]; intros acc n e H; cbn [readVarint_loop] in H.
  - injection H as <-. left. reflexivity.
  - destruct (_ <? 128); [discriminate|].
    destruct (_ >? 10); [injection H as <-; right; eauto|]. eapply IH. exact H.
Qed.

Lemma readVarint_raises r e : readVarint r = Raise e -> index_or_proto e.
Proof. apply readVarint_loop_raises. Qed.

Lemma read_raises r n e : read r n = Raise e -> e = IndexError.
Proof.
  unfold read. destruct (isRemain r n).
  - destruct (n <? 0); discriminate.
  - intros H. injection H as <-. reflexivity.
Qed.

Lemma skip_raises fuel :
  (forall r wt e, skipField fuel r wt = Raise e -> index_or_proto e) /\
  (forall r depth e, skipField_group fuel r depth = Raise e ->
                     exists m, e = ProtoError m).
Proof.
  induction fuel as [|fuel [IHs IHg]]; [split; intros; discriminate|].
  assert (Hs : forall r wt e, skipField (S fuel) r wt = Raise e -> index_or_proto e).
  { intros r wt e. rewrite skipField_S.
    repeat match goal with
           | |- context [if ?c then _ else _] => destruct c
           end.
    - destruct (readVarint r) as [[v r1]| |] eqn:E; cbn [bind]; try discriminate.
      intros H; injection H as <-. eapply readVarint_raises. exact E.
    - destruct (read r 8) as [[v r1]| |] eqn:E; cbn [bind]; try discriminate.
      intros H; injection H as <-. left. eapply read_raises. exact E.
    - destruct (readVarint r) as [[v r1]| |] eqn:E; cbn [bind]; try discriminate.
      + destruct (read r1 v) as [[bs r2]| |] eqn:E2; cbn [bind]; try discriminate.
        intros H; injection H as <-. left. eapply read_raises. exact E2.
      + intros H; injection H as <-. eapply readVarint_raises. exact E.
    - intros H. right. eapply IHg. exact H.
    - intros H; injection H as <-. right. eauto.
    - destruct (read r 4) as [[v r1]| |] eqn:E; cbn [bind]; try discriminate.
      intros H; injection H as <-. left. eapply read_raises. exact E.
    - intros H; injection H as <-. right. eauto. }
  split; [exact Hs|].
  intros r depth e. rewrite skipField_group_S.
  destruct (depth >? 0); [|discriminate].
  destruct (negb (isRemain r 1)); [intros H; injection H as <-; eauto|].
  match goal with
  | |- match ?b with _ => _ end = _ -> _ => destruct b as [[r1 d1]|e1|] eqn:Eb
  end; try discriminate.
  - apply IHg.
  - assert (He1 : index_or_proto e1).
    { destruct (readVarint r) as [[key r1]| |] eqn:E; cbn [bind] in Eb.
      - destruct (_ =? type_value GROUPEND); [discriminate|].
        destruct (_ =? type_value GROUPSTART); [discriminate|].
        destruct (skipField fuel r1 _) as [r2| |] eqn:E2; cbn [bind] in Eb;
          try discriminate.
        injection Eb as <-. eapply IHs. exact E2.
      - injection Eb as <-. eapply readVarint_raises. exact E.
      - discriminate. }
    destruct He1 as [->|[m ->]]; intros H; injection H as <-; eauto.
Qed.

Lemma skipField_group_zero fuel r : skipField_group (S fuel) r 0 = Ok r.
Proof. reflexivity. Qed.

(** One iteration of the group loop on a tag [toBuf] wrote. *)
Lemma skip_group_tag fuel i t rest depth :
  idx_ok i = true -> 0 < depth ->
  skipField_group (S fuel) (mkReader (varint_bytes (tag_key i t) ++ rest)) depth =
  match t with
  | GROUPEND => skipField_group fuel (mkReader rest) (depth - 1)
  | GROUPSTART => skipField_group fuel (mkReader rest) (depth + 1)
  | _ =>
      match skipField fuel (mkReader rest) (type_value t) with
      | Ok r => skipField_group fuel r depth
      | Raise IndexError => Raise (ProtoError TruncatedSkippingGroupField)
      | Raise (ProtoError e) => Raise (ProtoError (ErrorSkippingGroupField e))
      | Raise e => Raise e
      | OutOfFuel => OutOfFuel
      end
  end.
Proof.
  intros Hi Hd. pose proof (tag_key_range i t Hi) as Hk.
  rewrite skipField_group_S. destruct (depth >? 0) eqn:E; [|blia].
  rewrite isRemain_app by (apply varint_bytes_nonempty; lia). cbn [negb].
  rewrite readVarint_varint_bytes by assumption. cbn [bind].
  rewrite tag_key_land.
  destruct t; cbn [type_value Z.eqb]; try reflexivity;
    match goal with
    | |- context [skipField fuel ?r ?w] => destruct (skipField fuel r w) as [r2|e|]
    end; cbn [bind]; try reflexivity; destruct e; reflexivity.
Qed.

Lemma skipped_nil : skipped [].
Proof. exists 0%nat. reflexivity. Qed.

Lemma skipped_app a b : skipped a -> skipped b -> skipped (a ++ b).
Proof.
  intros [n Hn] [m Hm]. exists (n + m)%nat. intros fuel depth rest Hd.
  rewrite <- app_assoc.
  replace (n + m + S fuel)%nat with (n + S (m + fuel))%nat by lia.
  rewrite Hn by assumption.
  replace (S (m + fuel)) with (m + S fuel)%nat by lia.
  apply Hm. assumption.
Qed.

(** Skipping the payload a scalar field was written with. *)
Lemma skip_payload fuel t payload rest :
  match t with
  | VARINT => exists v, 0 <= v < 2 ^ 77 /\ payload = varint_bytes v
  | INT64 => length payload = 8%nat
  | INT32 => length payload = 4%nat
  | STRING => exists bs, Z.of_nat (length bs) < 2 ^ 77 /\
                         payload = varint_bytes (Z.of_nat (length bs)) ++ bs
  | _ => False
  end ->
  skipField (S fuel) (mkReader (payload ++ rest)) (type_value t) = Ok (mkReader rest).
Proof.
  rewrite skipField_S. destruct t; cbn [type_value Z.eqb]; try contradiction.
  - intros (v & Hv & ->). rewrite readVarint_varint_bytes by assumption. reflexivity.
  - intros Hl. change 8 with (Z.of_nat 8). rewrite <- Hl, read_app. reflexivity.
  - intros (bs & Hl & ->). rewrite <- app_assoc.
    rewrite readVarint_varint_bytes by lia. cbn [bind].
    rewrite read_app. reflexivity.
  - intros Hl. change 4 with (Z.of_nat 4). rewrite <- Hl, read_app. reflexivity.
Qed.

Lemma skipped_field : forall f,
  wire_ok f = true -> exists fb, field_bytes f = Ok fb /\ skipped fb.
Proof.
  induction f as [i t z|i t bs|i t pb IH] using ProtoField_tree_ind;
    cbn [wire_ok]; rewrite andb_true_iff; intros [Hi Hv];
    rewrite field_bytes_eq.
  - destruct t; try discriminate; apply andb_true_iff in Hv as [Hv1 Hv2].
    + eexists; split; [reflexivity|]. exists 1%nat. intros fuel depth rest Hd.
      rewrite <- app_assoc. cbn [Nat.add].
      rewrite skip_group_tag by assumption.
      rewrite skip_payload by (exists z; split; [blia|reflexivity]). reflexivity.
    + rewrite to_bytes_little_Ok by (change (2 ^ (8 * Z.of_nat 8)) with (2 ^ 64); blia).
      eexists; split; [reflexivity|]. exists 1%nat. intros fuel depth rest Hd.
      rewrite <- app_assoc. cbn [Nat.add].
      rewrite skip_group_tag by assumption.
      rewrite skip_payload by apply length_le_split. reflexivity.
    + rewrite to_bytes_little_Ok by (change (2 ^ (8 * Z.of_nat 4)) with (2 ^ 32); blia).
      eexists; split; [reflexivity|]. exists 1%nat. intros fuel depth rest Hd.
      rewrite <- app_assoc. cbn [Nat.add].
      rewrite skip_group_tag by assumption.
      rewrite skip_payload by apply length_le_split. reflexivity.
  - destruct t; try discriminate. cbn [bind].
    eexists; split; [reflexivity|]. exists 1%nat. intros fuel depth rest Hd.
    rewrite <- !app_assoc. cbn [Nat.add].
    rewrite skip_group_tag by assumption.
    rewrite app_assoc.
    rewrite skip_payload by (exists bs; split; [blia|reflexivity]). reflexivity.
  - destruct t; try discriminate.
    assert (Hpb : exists gb, toBuf pb = Ok gb /\ skipped gb).
    { clear Hi. induction IH as [|f pb Hf _ IHpb].
      - exists []. split; [reflexivity|apply skipped_nil].
      - cbn [forallb] in Hv. apply andb_true_iff in Hv as [Hf1 Hv].
        destruct (Hf Hf1) as (b1 & Hb1 & Hs1).
        destruct (IHpb Hv) as (b2 & Hb2 & Hs2).
        exists (b1 ++ b2). split.
        + rewrite toBuf_cons, Hb1, Hb2. reflexivity.
        + apply skipped_app; assumption. }
    destruct Hpb as (gb & Hgb & [n Hn]). rewrite Hgb. cbn [bind].
    eexists; split; [reflexivity|]. exists (S (n + 1)). intros fuel depth rest Hd.
    rewrite <- !app_assoc.
    replace (S (n + 1) + S fuel)%nat with (S (n + S (S fuel))) by lia.
    rewrite skip_group_tag by assumption.
    rewrite Hn by lia.
    rewrite skip_group_tag by (assumption || lia).
    f_equal. lia.
Qed.

Lemma skipped_fields pb :
  forallb wire_ok pb = true -> skipped (serialized pb).
Proof.
  intros Hok. destruct (serialized_toBuf pb Hok) as [Hs _]. revert Hs.
  generalize (serialized pb). induction pb as [|f pb IH]; intros bs Hbs.
  - injection Hbs as <-. apply skipped_nil.
  - cbn [forallb] in Hok. apply andb_true_iff in Hok as [Hf Hok].
    rewrite toBuf_cons in Hbs.
    apply bind_Ok_inv in Hbs as (b1 & Hb1 & Hbs).
    apply bind_Ok_inv in Hbs as (b2 & Hb2 & Hbs). injection Hbs as <-.
    destruct (skipped_field f Hf) as (fb & Hfb & Hsk).
    rewrite Hb1 in Hfb. injection Hfb as <-.
    apply skipped_app; [assumption|]. apply IH; assumption.
Qed.

End Skip.

(** X12: [skipField] on wire type 3 walks over a whole serialized group:
    placed after a start tag, before the fields of a tree (nested groups
    included) and the end tag of any field number, it stops right after
    that end tag, once it has fuel for every tag. *)
Theorem skip_group pb k rest :
  forallb wire_ok pb = true -> idx_ok k = true ->
  exists n, forall fuel, (n <= fuel)%nat ->
    skipField fuel
      (mkReader (serialized pb ++ varint_bytes (tag_key k GROUPEND) ++ rest))
      (type_value GROUPSTART)
    = Ok (mkReader rest).
Proof.
  intros Hpb Hk. destruct (skipped_fields pb Hpb) as [n Hn].
  exists (S (n + 2)). intros fuel Hf.
  destruct fuel as [|fuel]; [lia|]. rewrite skipField_S. cbn [type_value Z.eqb].
  replace fuel with (n + S (S (fuel - n - 2)))%nat by lia.
  rewrite Hn by lia. rewrite skip_group_tag by (assumption || lia).
  reflexivity.
Qed.

Lemma skip_group_witness :
  exists n, forall fuel, (n <= fuel)%nat ->
    skipField fuel
      (mkReader (serialized [mkField 9 VARINT (VInt 3)]
                 ++ varint_bytes (tag_key 5 GROUPEND) ++ hex [0x01]))
      (type_value GROUPSTART)
    = Ok (mkReader (hex [0x01])).
Proof.
  apply (skip_group [mkField 9 VARINT (VInt 3)] 5 (hex [0x01])); reflexivity.
Defined.



(** ** Parsing a concatenation *)

Section Concatenation.

Lemma readVarint_loop_extend s1 : forall s2 acc n v r',
  readVarint_loop s1 acc n = Ok (v, r') ->
  readVarint_loop (s1 ++ s2) acc n = Ok (v, mkReader (stream r' ++ s2)).
Proof.
  induction s1 as [|b s1 IH]; intros s2 acc n v r' H; cbn [app readVarint_loop] in *.
  - discriminate.
  - destruct (byte.unsigned b <? 128).
    + injection H as <- <-. reflexivity.
    + destruct (n + 1 >? 10); [discriminate|]. apply IH. exact H.
Qed.

Lemma readVarint_extend r s2 v r' :
  readVarint r = Ok (v, r') ->
  readVarint (mkReader (stream r ++ s2)) = Ok (v, mkReader (stream r' ++ s2)).
Proof. apply readVarint_loop_extend. Qed.

Lemma read_extend r s2 n bs r' :
  0 <= n -> read r n = Ok (bs, r') ->
  read (mkReader (stream r ++ s2)) n = Ok (bs, mkReader (stream r' ++ s2)).
Proof.
  intros Hn. unfold read, isRemain. cbn [stream]. rewrite length_app.
  destruct (n <=? Z.of_nat (length (stream r))) eqn:E; [|discriminate].
  assert (Hle : (Z.to_nat n <= length (stream r))%nat) by blia.
  assert (E1 : (n <=? Z.of_nat (length (stream r) + length s2)) = true)
    by (apply Z.leb_le; lia).
  rewrite E1.
  destruct (n <? 0) eqn:E2; [blia|].
  intros H. injection H as <- <-. cbn [stream].
  rewrite firstn_app, skipn_app.
  replace (Z.to_nat n - length (stream r))%nat with 0%nat by lia.
  rewrite firstn_O, skipn_O, app_nil_r. reflexivity.
Qed.

Lemma readInt_extend k r s2 v r' :
  bind (read r (Z.of_nat k))
       (fun x => let '(bs, r) := x in Ok (from_bytes_little bs, r)) = Ok (v, r') ->
  bind (read (mkReader (stream r ++ s2)) (Z.of_nat k))
       (fun x => let '(bs, r) := x in Ok (from_bytes_little bs, r))
  = Ok (v, mkReader (stream r' ++ s2)).
Proof.
  intros H. apply bind_Ok_inv in H as ([bs r0] & Hr & H). injection H as <- <-.
  rewrite (read_extend _ s2 _ _ _ (Nat2Z.is_nonneg k) Hr). reflexivity.
Qed.

Lemma readString_extend r s2 bs r' :
  readString r = Ok (bs, r') ->
  readString (mkReader (stream r ++ s2)) = Ok (bs, mkReader (stream r' ++ s2)).
Proof.
  unfold readString. intros H.
  apply bind_Ok_inv in H as ([n r0] & Hn & H).
  pose proof (readVarint_range _ _ _ Hn) as Hnr.
  rewrite (readVarint_extend _ s2 _ _ Hn). cbn [bind].
  destruct (n <? 0); [discriminate|].
  apply (read_extend r0 s2 n bs r' (proj1 Hnr)) in H. exact H.
Qed.

Lemma continued_step self r g b T r' s2 self1 r1 :
  (forall f res,
      _parseFields f self1 (mkReader (stream r1 ++ s2)) g = res ->
      res <> OutOfFuel ->
      exists f', _parseFields f' self (mkReader (stream r ++ s2)) g = res) ->
  continued self1 r1 g b T r' s2 -> continued self r g b T r' s2.
Proof.
  intros Hstep. unfold continued. destruct g as [k|], b.
  - intros [f Hf]. apply (Hstep f _ Hf). discriminate.
  - intros H f2 res Hres Hn. destruct (H f2 res Hres Hn) as [f Hf].
    apply (Hstep f _ Hf Hn).
  - intros H f2 res Hres Hn. destruct (H f2 res Hres Hn) as [f Hf].
    apply (Hstep f _ Hf Hn).
  - intros H f2 res Hres Hn. destruct (H f2 res Hres Hn) as [f Hf].
    apply (Hstep f _ Hf Hn).
Qed.

Lemma parse_extend f : forall self r g b T r' s2,
  _parseFields f self r g = Ok (b, T, r') -> continued self r g b T r' s2.
Proof.
  induction f as [|f IH]; intros self r g b T r' s2 H; [discriminate|].
  rewrite _parseFields_S in H.
  destruct (isRemain r 1) eqn:Er.
  2:{ apply isRemain_false in Er. unfold continued. rewrite Er. cbn [app].
      destruct g; injection H as <- <- <-; eauto. }
  assert (Her : isRemain (mkReader (stream r ++ s2)) 1 = true).
  { apply isRemain_app. intros Hnil. unfold isRemain in Er. rewrite Hnil in Er.
    discriminate. }
  apply bind_Ok_inv in H as ([key r1] & Hkey & H).
  pose proof (readVarint_extend _ s2 _ _ Hkey) as Hkey2.
  destruct (Z.shiftr key 3 =? 0) eqn:Ei; [discriminate|].
  destruct (ProtoFieldType_of_value (Z.land key 7)) as [t|] eqn:Et.
  2:{ rewrite skipField_unknown in H by assumption. discriminate. }
  assert (Hhead : forall f' res,
             after_tag f' self (mkReader (stream r1 ++ s2)) g (Z.shiftr key 3) t = res ->
             _parseFields (S f') self (mkReader (stream r ++ s2)) g = res).
  { intros f' res Hres. rewrite _parseFields_S, Her, Hkey2. cbn [bind].
    rewrite Ei, Et. exact Hres. }
  unfold after_tag in H.
  destruct (match g with Some g0 => _ | None => false end) eqn:G.
  { injection H as <- <- <-. destruct g as [k|]; [|discriminate].
    cbn [continued]. exists 1%nat. apply Hhead. unfold after_tag. rewrite G.
    reflexivity. }
  assert (Hscalar : forall self1 r2,
             (forall f' res,
                 _parseFields f' self1 (mkReader (stream r2 ++ s2)) g = res ->
                 after_tag f' self (mkReader (stream r1 ++ s2)) g (Z.shiftr key 3) t
                 = res) ->
             _parseFields f self1 r2 g = Ok (b, T, r') ->
             continued self r g b T r' s2).
  { intros self1 r2 Hafter Hrun.
    apply (continued_step self r g b T r' s2 self1 r2); [|apply IH; exact Hrun].
    intros f' res Hres _. exists (S f'). apply Hhead. apply Hafter. exact Hres. }
  destruct t.
  - apply bind_Ok_inv in H as ([v r2] & Hv & H).
    refine (Hscalar _ r2 _ H). intros f' res Hres.
    unfold after_tag. rewrite G, (readVarint_extend _ s2 _ _ Hv). exact Hres.
  - apply bind_Ok_inv in H as ([v r2] & Hv & H).
    refine (Hscalar _ r2 _ H). intros f' res Hres.
    unfold after_tag, readInt64. rewrite G. change 8 with (Z.of_nat 8).
    rewrite (readInt_extend 8 _ s2 _ _ Hv). exact Hres.
  - apply bind_Ok_inv in H as ([v r2] & Hv & H).
    refine (Hscalar _ r2 _ H). intros f' res Hres.
    unfold after_tag. rewrite G, (readString_extend _ s2 _ _ Hv). exact Hres.
  - apply bind_Ok_inv in H as ([[fe nested] r2] & Hn & H).
    destruct fe; [|discriminate]. cbn [negb] in H.
    apply (IH _ _ _ _ _ _ s2) in Hn. cbn [continued] in Hn. destruct Hn as [fn Hn].
    refine (continued_step self r g b T r' s2 _ r2 _ (IH _ _ _ _ _ _ s2 H)).
    intros f' res Hres Hne. exists (S (Nat.max fn f')). apply Hhead.
    unfold after_tag. rewrite G.
    rewrite (parse_fuel_mono _ (Nat.max fn f') _ _ _ _ Hn) by (discriminate || lia).
    cbn [bind negb]. apply (parse_fuel_mono f'); [exact Hres|exact Hne|lia].
  - discriminate.
  - apply bind_Ok_inv in H as ([v r2] & Hv & H).
    refine (Hscalar _ r2 _ H). intros f' res Hres.
    unfold after_tag, readInt32. rewrite G. change 4 with (Z.of_nat 4).
    rewrite (readInt_extend 4 _ s2 _ _ Hv). exact Hres.
Qed.

Lemma with_prefix_bind {A} pre (m : result A) k :
  with_prefix pre (bind m k) = bind m (fun a => with_prefix pre (k a)).
Proof. destruct m; reflexivity. Qed.

Lemma parse_self_prefix f : forall pre self r g,
  _parseFields f (pre ++ self) r g = with_prefix pre (_parseFields f self r g).
Proof.
  induction f as [|f IH]; intros pre self r g; [reflexivity|].
  rewrite !_parseFields_S.
  destruct (isRemain r 1); [|destruct g; reflexivity].
  destruct (readVarint r) as [[key r1]| |]; cbn [bind with_prefix]; try reflexivity.
  destruct (Z.shiftr key 3 =? 0); [reflexivity|].
  destruct (ProtoFieldType_of_value (Z.land key 7)) as [t|] eqn:Et.
  2:{ rewrite skipField_unknown by assumption. reflexivity. }
  unfold after_tag.
  destruct (match g with Some g0 => _ | None => false end); [reflexivity|].
  assert (Hput : forall fld, put (pre ++ self) fld = pre ++ put self fld)
    by (intros; unfold put; rewrite app_assoc; reflexivity).
  destruct t.
  - destruct (readVarint r1) as [[v r2]| |]; cbn [bind with_prefix]; try reflexivity.
    rewrite Hput. apply IH.
  - destruct (readInt64 r1) as [[v r2]| |]; cbn [bind with_prefix]; try reflexivity.
    rewrite Hput. apply IH.
  - destruct (readString r1) as [[v r2]| |]; cbn [bind with_prefix]; try reflexivity.
    rewrite Hput. apply IH.
  - destruct (_parseFields f [] r1 _) as [[[fe nested] r2]| |];
      cbn [bind with_prefix]; try reflexivity.
    destruct (negb fe); [reflexivity|]. rewrite Hput. apply IH.
  - reflexivity.
  - destruct (readInt32 r1) as [[v r2]| |]; cbn [bind with_prefix]; try reflexivity.
    rewrite Hput. apply IH.
Qed.

End Concatenation.

(** X14: the bytes of two messages one after the other parse to the
    fields of the first followed by those of the second; when the
    second does not parse, the whole fails with the same kind of
    error. *)
Theorem parse_concat B1 B2 T1 :
  ProtoBuf_of_bytes B1 = Ok T1 ->
  ProtoBuf_of_bytes (B1 ++ B2) = (T2 <- ProtoBuf_of_bytes B2 ;; Ok (T1 ++ T2)).
Proof.
  intros H1. apply ProtoBuf_of_bytes_Ok_inv in H1 as [[-> ->]|(b & r & H1)].
  { cbn [app]. destruct (ProtoBuf_of_bytes B2); reflexivity. }
  destruct B2 as [|b2 B2].
  { rewrite app_nil_r. cbn [bind ProtoBuf_of_bytes].
    change (ProtoBuf_of_bytes []) with (@Ok ProtoBuf []). cbn [bind].
    rewrite app_nil_r. unfold ProtoBuf_of_bytes.
    destruct (_ >? 0) eqn:E; [rewrite H1; reflexivity|].
    destruct B1; [|cbn [length] in E; blia].
    cbn in H1. injection H1 as _ <- _. reflexivity. }
  apply (parse_extend _ _ _ _ _ _ _ (b2 :: B2)) in H1. cbn [continued stream] in H1.
  pose proof (parse_top_terminated (b2 :: B2) [] None) as Hterm.
  pose proof (parse_self_prefix (S (length (b2 :: B2))) T1 [] (mkReader (b2 :: B2)) None)
    as Hpre.
  rewrite app_nil_r in Hpre.
  destruct (H1 _ _ Hpre) as [f Hf].
  { destruct (_parseFields _ [] _ None) as [[[? ?] ?]| |]; cbn; congruence. }
  apply parse_top_agree in Hf.
  2:{ destruct (_parseFields _ [] _ None) as [[[? ?] ?]| |]; cbn; congruence. }
  unfold ProtoBuf_of_bytes.
  destruct (Z.of_nat (length (B1 ++ b2 :: B2)) >? 0) eqn:E.
  2:{ rewrite length_app in E. cbn [length] in E. blia. }
  destruct (Z.of_nat (length (b2 :: B2)) >? 0) eqn:E2; [|cbn [length] in E2; blia].
  rewrite Hf.
  destruct (_parseFields _ [] (mkReader (b2 :: B2)) None) as [[[b' T2] r2]|e|];
    cbn [with_prefix bind]; try reflexivity.
  destruct e; reflexivity.
Qed.

Lemma parse_concat_witness :
  ProtoBuf_of_bytes (hex [0x08; 0x05] ++ hex [0x10; 0x07])
  = (T2 <- ProtoBuf_of_bytes (hex [0x10; 0x07]) ;;
     Ok ([mkField 1 VARINT (VInt 5)] ++ T2)).
Proof.
  apply (parse_concat (hex [0x08; 0x05]) (hex [0x10; 0x07])). reflexivity.
Defined.

(** ** Nested messages and dicts *)

Section Nested.

Lemma get_app_None self l i :
  get self i = None -> get (self ++ l) i = get l i.
Proof.
  induction self as [|f self IH]; cbn [get app]; [reflexivity|].
  destruct (idx f =? i); [discriminate|exact IH].
Qed.

Lemma get_put_fresh self i t v :
  get self i = None -> get (put self (mkField i t v)) i = Some (mkField i t v).
Proof.
  intros H. unfold put. rewrite get_app_None by exact H.
  cbn [get idx]. rewrite Z.eqb_refl. reflexivity.
Qed.

Lemma parseDict_item_put item self k self' :
  _parseDict_item item self k = Ok self' ->
  exists f, self' = self ++ [f] /\ idx f = k /\
            (type f = VARINT /\ (exists z, val f = VInt z) \/
             type f = STRING /\ (exists bs, val f = VBytes bs)).
Proof.
  destruct item as [z|str0|bs|items|l|pb|key| |]; cbn [_parseDict_item]; intros H;
    try discriminate.
  - injection H as <-. eexists. split; [reflexivity|]. cbn. eauto.
  - unfold putUtf8 in H. apply bind_Ok_inv in H as (bs & _ & H). injection H as <-.
    eexists. split; [reflexivity|]. cbn. eauto.
  - injection H as <-. eexists. split; [reflexivity|]. cbn. eauto.
  - apply bind_Ok_inv in H as (nested & _ & H). unfold putProtoBuf in H.
    apply bind_Ok_inv in H as (bs & _ & H). injection H as <-.
    eexists. split; [reflexivity|]. cbn. eauto.
  - unfold putProtoBuf in H.
    apply bind_Ok_inv in H as (bs & _ & H). injection H as <-.
    eexists. split; [reflexivity|]. cbn. eauto.
Qed.

Lemma parseDict_values_put l : forall self k self',
  0 < k -> _parseDict_values l self k = Ok self' ->
  exists fs, self' = self ++ fs /\ map idx fs = repeat k (length l) /\
             forallb flat_field fs = true.
Proof.
  induction l as [|item l IH]; intros self k self' Hk H; cbn [_parseDict_values] in H.
  - injection H as <-. exists []. rewrite app_nil_r. auto.
  - apply bind_Ok_inv in H as (self1 & H1 & H).
    apply parseDict_item_put in H1 as (f & -> & Hi & Hf).
    apply (IH _ _ _ Hk) in H as (fs & -> & Hm & Hflat).
    exists (f :: fs). rewrite <- app_assoc. split; [reflexivity|].
    cbn [map length repeat forallb]. rewrite Hi, Hm, Hflat. split; [reflexivity|].
    unfold flat_field. rewrite Hi.
    destruct Hf as [[-> [z ->]]|[-> [bs ->]]]; rewrite andb_true_r, andb_true_iff;
      split; try reflexivity; apply Z.ltb_lt; exact Hk.
Qed.

Lemma parseDict_values_single v self k :
  _parseDict_values [v] self k = _parseDict_item v self k.
Proof.
  cbn [_parseDict_values]. destruct (_parseDict_item v self k); reflexivity.
Qed.

Lemma parseDict_body v self k :
  match v with
  | PList values_to_process => _parseDict_values values_to_process self k
  | _ => _parseDict_item v self k
  end = _parseDict_values (values_of v) self k.
Proof.
  destruct v; cbn [values_of]; try (rewrite parseDict_values_single); reflexivity.
Qed.

Lemma parseDict_put d : forall self T,
  _parseDict d self = Ok T ->
  exists fs, T = self ++ fs /\
    map idx fs
    = flat_map (fun kv => repeat (fst kv) (length (values_of (snd kv)))) d /\
    forallb flat_field fs = true.
Proof.
  induction d as [|[k v] d IH]; intros self T H; cbn [_parseDict] in H.
  - injection H as <-. exists []. rewrite app_nil_r. auto.
  - destruct (k <=? 0) eqn:Ek; [discriminate|].
    rewrite parseDict_body in H.
    apply bind_Ok_inv in H as (self1 & H1 & H).
    apply parseDict_values_put in H1 as (fs1 & -> & Hm1 & Hf1); [|blia].
    apply IH in H as (fs2 & -> & Hm2 & Hf2).
    exists (fs1 ++ fs2). rewrite <- app_assoc. split; [reflexivity|].
    cbn [flat_map fst snd]. rewrite map_app, Hm1, Hm2, forallb_app, Hf1, Hf2. auto.
Qed.

Lemma parseDict_values_ints l : forall self k,
  forallb is_int l = true ->
  _parseDict_values l self k = Ok (self ++ varint_fields k l).
Proof.
  induction l as [|o l IH]; intros self k H; cbn [_parseDict_values varint_fields flat_map].
  - rewrite app_nil_r. reflexivity.
  - cbn [forallb] in H. apply andb_true_iff in H as [Ho Hl].
    destruct o; try discriminate. cbn [_parseDict_item bind].
    rewrite (IH _ _ Hl). unfold putVarint, put. rewrite <- app_assoc. reflexivity.
Qed.

Lemma int_value_values v :
  int_value v = true -> forallb is_int (values_of v) = true /\ values_of v <> [].
Proof.
  destruct v; try discriminate; cbn [int_value values_of].
  - intros _. split; [reflexivity|discriminate].
  - rewrite andb_true_iff. intros [Hlen Hl]. split; [exact Hl|].
    destruct l; [discriminate|discriminate].
Qed.

Lemma parseDict_ints d : forall self,
  forallb int_entry d = true ->
  _parseDict d self
  = Ok (self ++ flat_map (fun kv => varint_fields (fst kv) (values_of (snd kv))) d).
Proof.
  induction d as [|[k v] d IH]; intros self H; cbn [_parseDict flat_map].
  - rewrite app_nil_r. reflexivity.
  - cbn [forallb] in H. apply andb_true_iff in H as [Hkv Hd].
    unfold int_entry in Hkv. cbn [fst snd] in *.
    apply andb_true_iff in Hkv as [Hk Hv].
    destruct (k <=? 0) eqn:Ek; [blia|].
    rewrite parseDict_body.
    rewrite parseDict_values_ints by (apply int_value_values; exact Hv).
    cbn [bind]. rewrite (IH _ Hd), <- app_assoc. reflexivity.
Qed.

End Nested.

Section IntExport.

Variable unicode_isprintable : Z -> bool.
Variable unicode_isspace : Z -> bool.
Variable rec : ProtoBuf -> result PyObj.

Let loop := loop_with unicode_isprintable unicode_isspace rec.

Lemma loop_varint k z rest acc :
  loop (mkField k VARINT (VInt z) :: rest) acc
  = loop rest (dict_append acc k (PInt z)).
Proof. reflexivity. Qed.

Lemma dict_append_new acc k v :
  ~ In k (map fst acc) -> dict_append acc k v = acc ++ [(k, [v])].
Proof.
  induction acc as [|[k0 vs] acc IH]; intros Hk; cbn [dict_append app].
  - reflexivity.
  - cbn [map fst In] in Hk. destruct (k0 =? k) eqn:E.
    + exfalso. apply Hk. left. apply Z.eqb_eq. exact E.
    + rewrite IH by tauto. reflexivity.
Qed.

Lemma dict_append_last acc k vs v :
  ~ In k (map fst acc) ->
  dict_append (acc ++ [(k, vs)]) k v = acc ++ [(k, vs ++ [v])].
Proof.
  induction acc as [|[k0 vs0] acc IH]; intros Hk; cbn [dict_append app].
  - rewrite Z.eqb_refl. reflexivity.
  - cbn [map fst In] in Hk. destruct (k0 =? k) eqn:E.
    + exfalso. apply Hk. left. apply Z.eqb_eq. exact E.
    + rewrite IH by tauto. reflexivity.
Qed.

Lemma loop_more l : forall k vs rest acc,
  ~ In k (map fst acc) -> forallb is_int l = true ->
  loop (varint_fields k l ++ rest) (acc ++ [(k, vs)])
  = loop rest (acc ++ [(k, vs ++ l)]).
Proof.
  induction l as [|o l IH]; intros k vs rest acc Hk Hl; cbn [varint_fields flat_map app].
  - rewrite app_nil_r. reflexivity.
  - cbn [forallb] in Hl. apply andb_true_iff in Hl as [Ho Hl].
    destruct o; try discriminate. cbn [app].
    rewrite loop_varint, dict_append_last by exact Hk.
    fold (varint_fields k l). rewrite (IH _ _ _ _ Hk Hl), <- app_assoc. reflexivity.
Qed.

Lemma loop_key l k rest acc :
  ~ In k (map fst acc) -> forallb is_int l = true -> l <> [] ->
  loop (varint_fields k l ++ rest) acc = loop rest (acc ++ [(k, l)]).
Proof.
  intros Hk Hl Hne. destruct l as [|o l]; [congruence|].
  cbn [forallb] in Hl. apply andb_true_iff in Hl as [Ho Hl].
  destruct o; try discriminate. cbn [varint_fields flat_map app].
  rewrite loop_varint, dict_append_new by exact Hk.
  fold (varint_fields k l). apply (loop_more l k [PInt z] rest acc Hk Hl).
Qed.

Lemma loop_ints d : forall acc,
  NoDup (map fst acc ++ map fst d) -> forallb int_entry d = true ->
  loop (flat_map (fun kv => varint_fields (fst kv) (values_of (snd kv))) d) acc
  = Ok (acc ++ map (fun kv => (fst kv, values_of (snd kv))) d).
Proof.
  induction d as [|[k v] d IH]; intros acc Hnd Hd; cbn [flat_map map fst snd].
  - rewrite app_nil_r. reflexivity.
  - cbn [forallb] in Hd. apply andb_true_iff in Hd as [Hkv Hd].
    unfold int_entry in Hkv. cbn [fst snd] in Hkv.
    apply andb_true_iff in Hkv as [_ Hv].
    destruct (int_value_values v Hv) as [Hints Hne].
    cbn [map fst] in Hnd.
    assert (Hk : ~ In k (map fst acc)).
    { intros Hin. apply NoDup_remove_2 in Hnd. apply Hnd. apply in_or_app. auto. }
    rewrite (loop_key _ _ _ _ Hk Hints Hne).
    rewrite IH; [rewrite <- app_assoc; reflexivity| |exact Hd].
    rewrite map_app, <- app_assoc. exact Hnd.
Qed.

Lemma collapse_ints d :
  forallb int_entry d = true ->
  collapse (map (fun kv => (fst kv, values_of (snd kv))) d) = d.
Proof.
  induction d as [|[k v] d IH]; intros Hd; [reflexivity|].
  cbn [forallb] in Hd. apply andb_true_iff in Hd as [Hkv Hd].
  unfold collapse in *. cbn [map fst snd]. rewrite (IH Hd). f_equal.
  unfold int_entry in Hkv. cbn [fst snd] in Hkv.
  apply andb_true_iff in Hkv as [_ Hv].
  destruct v; try discriminate; [reflexivity|].
  cbn [int_value] in Hv. apply andb_true_iff in Hv as [Hlen _]. cbn [values_of].
  destruct l as [|a [|b l]]; [discriminate|discriminate|reflexivity].
Qed.

End IntExport.



(** X16: a dict that [ProtoBuf(dict)] accepts becomes one field per
    value, in the order of the dict and numbered by its key, a list
    giving one field per element; every field is a varint or a
    length-delimited field holding bytes, so nested dicts are stored
    serialized and no fixed-width or group field is ever created. *)
Theorem dict_import_fields d T :
  ProtoBuf_init (PDict d) = Ok T ->
  map idx T = flat_map (fun kv => repeat (fst kv) (length (values_of (snd kv)))) d /\
  forallb flat_field T = true.
Proof.
  cbn [ProtoBuf_init]. intros H.
  apply parseDict_put in H as (fs & -> & Hm & Hf). cbn [app]. auto.
Qed.

Lemma dict_import_fields_witness :
  map idx [mkField 4 VARINT (VInt (-1)); mkField 4 STRING (VBytes (hex [0x08; 0x01]));
           mkField 2 STRING (VBytes (hex [0x68]))]
  = flat_map (fun kv => repeat (fst kv) (length (values_of (snd kv))))
      [(4, PList [PInt (-1); PDict [(1, PInt 1)]]); (2, PStr [0x68])] /\
  forallb flat_field
    [mkField 4 VARINT (VInt (-1)); mkField 4 STRING (VBytes (hex [0x08; 0x01]));
     mkField 2 STRING (VBytes (hex [0x68]))] = true.
Proof.
  apply (dict_import_fields
           [(4, PList [PInt (-1); PDict [(1, PInt 1)]]); (2, PStr [0x68])]).
  reflexivity.
Defined.

(** X17: a dict of integers survives import and automatic export: when
    every key is positive and every value is an integer or a list of at
    least two integers, [ProtoBuf(dict)] succeeds and [toDictAuto] of
    the result is the dict again, negative integers included. *)
Theorem int_dict_roundtrip (unicode_isprintable unicode_isspace : Z -> bool) d :
  NoDup (map fst d) -> forallb int_entry d = true ->
  exists T, ProtoBuf_init (PDict d) = Ok T /\
            toDictAuto unicode_isprintable unicode_isspace T = Ok (PDict d).
Proof.
  intros Hnd Hd. eexists. split.
  - cbn [ProtoBuf_init]. rewrite (parseDict_ints d [] Hd). reflexivity.
  - cbn [app]. unfold toDictAuto. rewrite toDictAuto_fuel_S.
    rewrite loop_ints by assumption. cbn [bind app].
    rewrite collapse_ints by assumption. reflexivity.
Qed.

Lemma int_dict_roundtrip_witness :
  exists T,
    ProtoBuf_init (PDict [(3, PInt (-5)); (1, PList [PInt 7; PInt 7])]) = Ok T /\
    toDictAuto (fun _ => false) (fun _ => false) T
    = Ok (PDict [(3, PInt (-5)); (1, PList [PInt 7; PInt 7])]).
Proof.
  apply (int_dict_roundtrip (fun _ => false) (fun _ => false)
           [(3, PInt (-5)); (1, PList [PInt 7; PInt 7])]).
  - repeat constructor; cbn; intuition discriminate.
  - reflexivity.
Defined.

(** ** The automatic export of a parsed message *)

Section AutoTotal.

Variable unicode_isprintable : Z -> bool.
Variable unicode_isspace : Z -> bool.

Lemma ProtoBuf_of_bytes_raises_proto bs e :
  ProtoBuf_of_bytes bs = Raise e -> exists m, e = ProtoError m.
Proof.
  unfold ProtoBuf_of_bytes. destruct (_ >? 0); [|discriminate].
  destruct (_parseFields _ _ _ _) as [[[b T] r]|e0|]; try discriminate.
  destruct e0; intros H; injection H as <-; eauto.
Qed.

Lemma dict_append_keys acc k v k' :
  In k' (map fst (dict_append acc k v)) <-> In k' (map fst acc) \/ k' = k.
Proof.
  induction acc as [|[k0 vs] acc IH]; cbn [dict_append map fst In].
  - intuition congruence.
  - destruct (k0 =? k) eqn:E; cbn [map fst In].
    + apply Z.eqb_eq in E. subst k0. intuition congruence.
    + rewrite IH. tauto.
Qed.

Lemma dict_append_NoDup acc k v :
  NoDup (map fst acc) -> NoDup (map fst (dict_append acc k v)).
Proof.
  induction acc as [|[k0 vs] acc IH]; cbn [dict_append map fst]; intros H.
  - constructor; [intros []|constructor].
  - destruct (k0 =? k) eqn:E; cbn [map fst]; [exact H|].
    inversion H as [|? ? Hnin Hnd]; subst. constructor; [|apply IH; exact Hnd].
    rewrite dict_append_keys. intros [Hin|Heq]; [contradiction|].
    apply Z.eqb_neq in E. congruence.
Qed.

Lemma collapse_keys acc : map fst (collapse acc) = map fst acc.
Proof.
  unfold collapse. induction acc as [|[k vs] acc IH]; [reflexivity|].
  cbn [map]. rewrite IH. destruct vs as [|v [|w vs]]; reflexivity.
Qed.

Lemma in_weight f self : In f self -> (field_weight f <= weight self)%nat.
Proof.
  induction self as [|f0 self IH]; [contradiction|].
  rewrite weight_cons. intros [->|Hin]; [lia|]. specialize (IH Hin). lia.
Qed.

Lemma stack_toDictAuto_eq limit self :
  Stack.toDictAuto unicode_isprintable unicode_isspace limit self =
  (intermediate <-
     Stack.loop_with unicode_isprintable unicode_isspace (Stack.ProtoBuf_call limit)
       (Stack.toDictAuto_call unicode_isprintable unicode_isspace limit) self [] ;;
   Ok (PDict (collapse intermediate))).
Proof. destruct limit; reflexivity. Qed.

Lemma stack_auto_total limit : forall self,
  (weight self <= limit)%nat -> forallb wire_ok self = true ->
  exists d, Stack.toDictAuto unicode_isprintable unicode_isspace limit self
            = Ok (PDict d) /\
            NoDup (map fst d) /\
            forall k, In k (map fst d) <-> In k (map idx self).
Proof.
  induction limit as [|below IH]; intros self Hw Hok.
  { destruct self as [|f self].
    - exists []. split; [reflexivity|]. split; [constructor|]. intros k. tauto.
    - rewrite weight_cons in Hw. destruct f. cbn [field_weight] in Hw. lia. }
  rewrite stack_toDictAuto_eq.
  set (parse := Stack.ProtoBuf_call (S below)).
  set (rec := Stack.toDictAuto_call unicode_isprintable unicode_isspace (S below)).
  assert (Hrec : forall pb, (weight pb <= below)%nat -> forallb wire_ok pb = true ->
                   exists d, rec pb = Ok (PDict d)).
  { intros pb Hwp Hokp. destruct (IH pb Hwp Hokp) as (d & Hd & _).
    exists d. exact Hd. }
  assert (Hrep : forall bs, (length bs <= below)%nat ->
                   exists v, Stack.reparse_with parse rec bs = Ok (Some v)).
  { intros bs Hbs. unfold Stack.reparse_with, parse, Stack.ProtoBuf_call.
    destruct (Z.of_nat (length bs) >? 0); [|eauto].
    destruct below as [|room]; [eauto|].
    destruct (stack_ProtoBuf_cases room bs) as [E|E]; rewrite E; [|eauto].
    destruct (ProtoBuf_of_bytes bs) as [nested|e|] eqn:Ep.
    - destruct nested as [|f0 nested]; [eauto|].
      pose proof (parsed_weight _ _ Ep) as Hwn.
      destruct (Hrec (f0 :: nested) ltac:(lia) (ProtoBuf_of_bytes_wire_ok _ _ Ep))
        as (d & ->). cbn [bind]. eauto.
    - apply ProtoBuf_of_bytes_raises_proto in Ep as [m ->]. eauto.
    - exfalso. exact (ProtoBuf_of_bytes_fuel bs Ep). }
  assert (Hval : forall f, (field_weight f <= S below)%nat -> wire_ok f = true ->
                   exists v, Stack.value_with unicode_isprintable unicode_isspace
                               parse rec f = Ok (Some v)).
  { intros [i t v] Hwf Hf. cbn [wire_ok] in Hf. apply andb_true_iff in Hf as [_ Hf].
    unfold Stack.value_with. cbn [type val idx].
    destruct t, v as [z|bs|pb]; try discriminate; eauto.
    - cbn [field_weight] in Hwf.
      destruct (utf8_decode bs) as [decoded|]; [|apply Hrep; lia].
      destruct (forallb _ decoded); [eauto|apply Hrep; lia].
    - rewrite field_weight_group in Hwf.
      destruct (Hrec pb ltac:(lia) Hf) as (d & ->). cbn [bind]. eauto. }
  enough (Hloop : forall fields acc,
             (forall f, In f fields ->
                        (field_weight f <= S below)%nat /\ wire_ok f = true) ->
             NoDup (map fst acc) ->
             exists acc',
               Stack.loop_with unicode_isprintable unicode_isspace parse rec fields acc
               = Ok acc' /\ NoDup (map fst acc') /\
               forall k, In k (map fst acc') <->
                         In k (map fst acc) \/ In k (map idx fields)).
  { destruct (Hloop self []) as (acc' & -> & Hnd & Hkeys).
    - intros f Hin. split.
      + pose proof (in_weight f self Hin). lia.
      + rewrite forallb_forall in Hok. apply Hok. exact Hin.
    - constructor.
    - exists (collapse acc'). cbn [bind]. rewrite collapse_keys.
      split; [reflexivity|]. split; [exact Hnd|].
      intros k. rewrite Hkeys. cbn [map In]. tauto. }
  induction fields as [|f fields IHf]; intros acc Hf Hnd.
  { exists acc. split; [reflexivity|]. split; [exact Hnd|]. cbn [map In]. tauto. }
  change (Stack.loop_with unicode_isprintable unicode_isspace parse rec (f :: fields) acc)
    with (value <- Stack.value_with unicode_isprintable unicode_isspace parse rec f ;;
          match value with
          | Some value =>
              Stack.loop_with unicode_isprintable unicode_isspace parse rec fields
                (dict_append acc (idx f) value)
          | None =>
              Stack.loop_with unicode_isprintable unicode_isspace parse rec fields acc
          end).
  destruct (Hf f (or_introl eq_refl)) as [Hwf Hokf].
  destruct (Hval f Hwf Hokf) as [v ->]. cbn [bind].
  destruct (IHf (dict_append acc (idx f) v)) as (acc' & Hacc & Hnd' & Hkeys).
  - intros f' Hin. apply Hf. right. exact Hin.
  - apply dict_append_NoDup. exact Hnd.
  - exists acc'. split; [exact Hacc|]. split; [exact Hnd'|].
    intros k. rewrite Hkeys, dict_append_keys. cbn [map In].
    intuition congruence.
Qed.

Lemma stack_export_overflow limit : forall n,
  (limit < n)%nat ->
  Stack.toDictAuto unicode_isprintable unicode_isspace limit (nest_tree n)
  = Raise RecursionError.
Proof.
  induction limit as [|below IH]; intros n Hn; (destruct n as [|n]; [lia|]);
    rewrite stack_toDictAuto_eq;
    cbn [nest_tree Stack.loop_with Stack.value_with type val idx
         Stack.toDictAuto_call].
  - reflexivity.
  - rewrite IH by lia. reflexivity.
Qed.

End AutoTotal.

(** X18: on a tree in wire range whose size, one per field and one per
    byte it holds, does not exceed the number of nested calls the stack
    holds, [toDictAuto] returns a dict whose keys are exactly the field
    numbers of the message, each once; groups nested deeper than the
    stack make it raise [RecursionError]. *)
Theorem export_total (unicode_isprintable unicode_isspace : Z -> bool) limit :
  (forall T,
     forallb wire_ok T = true -> (weight T <= limit)%nat ->
     exists d, Stack.toDictAuto unicode_isprintable unicode_isspace limit T
               = Ok (PDict d) /\
               NoDup (map fst d) /\
               forall k, In k (map fst d) <-> In k (map idx T)) /\
  (forall n, (limit < n)%nat ->
     Stack.toDictAuto unicode_isprintable unicode_isspace limit (nest_tree n)
     = Raise RecursionError).
Proof.
  split.
  - intros T Hok Hw. apply stack_auto_total; assumption.
  - apply stack_export_overflow.
Qed.

Lemma export_total_witness :
  exists d,
    Stack.toDictAuto (fun _ => false) (fun _ => false) 4
      [mkField 1 STRING (VBytes (hex [0x08; 0x01])); mkField 1 VARINT (VInt 2)]
    = Ok (PDict d) /\
    NoDup (map fst d) /\
    forall k, In k (map fst d) <->
              In k (map idx [mkField 1 STRING (VBytes (hex [0x08; 0x01]));
                             mkField 1 VARINT (VInt 2)]).
Proof.
  apply (proj1 (export_total (fun _ => false) (fun _ => false) 4)
           [mkField 1 STRING (VBytes (hex [0x08; 0x01])); mkField 1 VARINT (VInt 2)]).
  - reflexivity.
  - cbn. lia.
Defined.

(** ** The export along a template *)

Section TemplateExport.

Variable py_str : PyVal -> str.

Lemma get_Some self k pf : get self k = Some pf -> In pf self /\ idx pf = k.
Proof.
  induction self as [|f self IH]; cbn [get]; [discriminate|].
  destruct (idx f =? k) eqn:E.
  - intros H. injection H as <-. split; [left; reflexivity|apply Z.eqb_eq; exact E].
  - intros H. destruct (IH H). split; [right|]; assumption.
Qed.

Lemma get_wire_ok self k pf :
  forallb wire_ok self = true -> get self k = Some pf -> wire_ok pf = true.
Proof.
  intros Hok H. rewrite forallb_forall in Hok. apply Hok. apply (get_Some _ _ _ H).
Qed.

Lemma getInt_returns self k : returns_or_ProtoError (getInt self k).
Proof.
  unfold getInt. destruct (get self k) as [pf|]; [|exact I].
  destruct (type pf); exact I.
Qed.

Lemma getBytes_returns self k :
  forallb wire_ok self = true -> returns_or_ProtoError (getBytes py_str self k).
Proof.
  intros Hok. unfold getBytes. destruct (get self k) as [pf|] eqn:E; [|exact I].
  pose proof (get_wire_ok _ _ _ Hok E) as Hpf. destruct pf as [i t v].
  cbn [wire_ok] in Hpf. apply andb_true_iff in Hpf as [_ Hpf]. cbn [type val].
  destruct t, v as [z|bs|pb]; try discriminate; try exact I.
  destruct (serialized_toBuf pb Hpf) as [-> _]. exact I.
Qed.

Lemma getUtf8_returns self k :
  forallb wire_ok self = true -> returns_or_ProtoError (getUtf8 py_str self k).
Proof.
  intros Hok. unfold getUtf8. pose proof (getBytes_returns self k Hok) as H.
  destruct (getBytes py_str self k) as [[bs|]|e|]; cbn [bind]; try exact H; try exact I.
  destruct (utf8_decode bs); exact I.
Qed.

Lemma getProtoBuf_returns self k :
  forallb wire_ok self = true ->
  match getProtoBuf self k with
  | Ok (Some pb) => forallb wire_ok pb = true
  | Ok None => True
  | Raise (ProtoError _) => True
  | _ => False
  end.
Proof.
  intros Hok. unfold getProtoBuf. destruct (get self k) as [pf|] eqn:E; [|exact I].
  pose proof (get_wire_ok _ _ _ Hok E) as Hpf. destruct pf as [i t v].
  cbn [wire_ok] in Hpf. apply andb_true_iff in Hpf as [_ Hpf]. cbn [type val].
  destruct t, v as [z|bs|pb]; try discriminate; try exact I; try exact Hpf.
  cbn [obj_of_val ProtoBuf_init].
  destruct (ProtoBuf_of_bytes bs) as [pb|e|] eqn:Ep.
  - apply (ProtoBuf_of_bytes_wire_ok _ _ Ep).
  - apply ProtoBuf_of_bytes_raises_proto in Ep as [m ->]. exact I.
  - exact (ProtoBuf_of_bytes_fuel bs Ep).
Qed.

Lemma toDict_value_dict template self k :
  toDict_value py_str (PDict template) self k
  = (nested_pb <- getProtoBuf self k ;;
     match nested_pb with
     | Some nested_pb => out <- toDict py_str nested_pb template ;; Ok (PDict out)
     | None => Ok (PDict template)
     end).
Proof.
  cbn [toDict_value]. destruct (getProtoBuf self k) as [[pb|]|e|]; try reflexivity.
  cbn [bind]. f_equal.
  induction template as [|[k0 template_v] template IH]; [reflexivity|].
  cbn [toDict]. rewrite <- IH. reflexivity.
Qed.

Lemma keep_template_returns template_v m :
  returns_or_ProtoError m -> exists v, keep_template template_v m = Ok v.
Proof.
  destruct m as [v|e|]; cbn [returns_or_ProtoError keep_template].
  - eauto.
  - destruct e; try contradiction; eauto.
  - contradiction.
Qed.

Lemma returns_bind {A B} (m : result A) (k : A -> result B) :
  returns_or_ProtoError m -> (forall a, m = Ok a -> returns_or_ProtoError (k a)) ->
  returns_or_ProtoError (bind m k).
Proof.
  destruct m as [a|e|]; cbn [bind]; intros Hm Hk; [apply Hk; reflexivity|exact Hm|exact Hm].
Qed.

Lemma toDict_entries self : forall template
  (IH : Forall (fun kv => forall self k, forallb wire_ok self = true ->
                  returns_or_ProtoError (toDict_value py_str (snd kv) self k)) template),
  forallb wire_ok self = true ->
  exists out, toDict py_str self template = Ok out /\
              Forall2 (template_entry self) template out.
Proof.
  induction template as [|[k template_v] template IHt]; intros IH Hok.
  - exists []. split; [reflexivity|constructor].
  - inversion IH as [|? ? Hv Hrest]; subst. cbn [snd] in Hv.
    destruct (IHt Hrest Hok) as (out & Hout & Hall).
    cbn [toDict]. rewrite Hout.
    destruct (k <=? 0) eqn:Ek.
    + cbn [bind]. eexists. split; [reflexivity|]. constructor; [|exact Hall].
      split; reflexivity.
    + destruct (get self k) as [pf|] eqn:Eg.
      * destruct (keep_template_returns template_v _ (Hv self k Hok)) as [v ->].
        cbn [bind]. eexists. split; [reflexivity|]. constructor; [|exact Hall].
        split; [reflexivity|]. cbn [fst snd]. intros [Hk|Hg]; [blia|congruence].
      * cbn [bind]. eexists. split; [reflexivity|]. constructor; [|exact Hall].
        split; reflexivity.
Qed.

Lemma toDict_value_returns template_v : forall self k,
  forallb wire_ok self = true ->
  returns_or_ProtoError (toDict_value py_str template_v self k).
Proof.
  induction template_v as [z|s|bs|items IH|l _|pb|key| |] using PyObj_tree_ind;
    intros self k Hok; try exact I.
  - cbn [toDict_value]. apply returns_bind; [apply getInt_returns|]. intros; exact I.
  - cbn [toDict_value]. apply returns_bind; [apply getUtf8_returns; exact Hok|].
    intros; exact I.
  - cbn [toDict_value]. apply returns_bind; [apply getBytes_returns; exact Hok|].
    intros; exact I.
  - rewrite toDict_value_dict. pose proof (getProtoBuf_returns self k Hok) as Hp.
    destruct (getProtoBuf self k) as [[nested|]|e|]; cbn [bind]; try exact Hp;
      try exact I.
    destruct (toDict_entries nested items IH Hp) as (out & -> & _). exact I.
  - cbn [toDict_value]. pose proof (getProtoBuf_returns self k Hok) as Hp.
    destruct (getProtoBuf self k) as [[nested|]|e|]; cbn [bind]; try exact Hp;
      exact I.
Qed.

End TemplateExport.



(** ** Text fields *)

Section Utf8.

Ltac divmod := bool2prop; Z.div_mod_to_equations; lia.

Lemma unsigned_small z : 0 <= z < 256 -> byte.unsigned (byte.of_Z z) = z.
Proof.
  intros H. rewrite byte.unsigned_of_Z. unfold byte.wrap. apply Z.mod_small. lia.
Qed.

Lemma lor_add a k x :
  0 <= k -> 0 <= x < 2 ^ k -> Z.lor (Z.shiftl a k) x = a * 2 ^ k + x.
Proof.
  intros Hk Hx. rewrite Z.or_to_plus; [rewrite Z.shiftl_mul_pow2 by lia; reflexivity|].
  apply Z.bits_inj'. intros i Hi. rewrite Z.land_spec, Z.bits_0.
  destruct (Z.lt_ge_cases i k).
  - rewrite Z.shiftl_spec_low by lia. reflexivity.
  - rewrite <- (Z.mod_small x (2 ^ k)) by lia.
    rewrite Z.mod_pow2_bits_high by lia. apply andb_false_r.
Qed.

Lemma cont_unsigned c shift :
  0 <= shift -> byte.unsigned (utf8_cont c shift) = 128 + (c / 2 ^ shift) mod 64.
Proof.
  intros Hs. unfold utf8_cont.
  pose proof (Z.mod_pos_bound (c / 2 ^ shift) 64 ltac:(lia)) as Hm.
  assert (E : Z.lor 0x80 (Z.land (Z.shiftr c shift) 0x3F)
              = 128 + (c / 2 ^ shift) mod 64).
  { change 0x3F with (Z.ones 6).
    rewrite Z.land_ones, Z.shiftr_div_pow2 by lia. change (2 ^ 6) with 64.
    apply (lor_add 2 6); change (2 ^ 6) with 64; lia. }
  rewrite E. apply unsigned_small. lia.
Qed.

Lemma lead_unsigned L a k c n :
  L = a * 2 ^ k -> 0 <= k -> 0 <= n -> 0 <= c / 2 ^ n < 2 ^ k -> 0 <= a ->
  L + 2 ^ k <= 256 ->
  byte.unsigned (byte.of_Z (Z.lor L (Z.shiftr c n))) = L + c / 2 ^ n.
Proof.
  intros -> Hk Hn Hc Ha Hb. rewrite Z.shiftr_div_pow2 by lia.
  rewrite <- (Z.shiftl_mul_pow2 a k) by lia.
  rewrite lor_add by lia. rewrite Z.shiftl_mul_pow2 by lia.
  apply unsigned_small. nia.
Qed.

Lemma tail_value r : 0 <= r < 64 -> Z.land (128 + r) 0x3F = r.
Proof.
  intros H. change 0x3F with (Z.ones 6). rewrite Z.land_ones by lia.
  change (2 ^ 6) with 64. divmod.
Qed.

Lemma lead_value a k x :
  0 <= k -> 0 <= x < 2 ^ k -> Z.land (a * 2 ^ k + x) (Z.ones k) = x.
Proof.
  intros Hk Hx. rewrite Z.land_ones by lia.
  rewrite Z.add_comm, Z.mod_add by lia. apply Z.mod_small. lia.
Qed.

Lemma decode1 b0 rest c :
  byte.unsigned b0 = c -> 0 <= c < 128 ->
  utf8_decode (b0 :: rest) = option_map (cons c) (utf8_decode rest).
Proof.
  intros H0 Hc. cbn [utf8_decode]. rewrite H0.
  destruct (c <? 128) eqn:E; [reflexivity|blia].
Qed.

Lemma in_range_true lo hi x : lo <= x <= hi -> in_range lo hi x = true.
Proof.
  intros H. unfold in_range. apply andb_true_iff. split; apply Z.leb_le; lia.
Qed.

Lemma in_range_false lo hi x : x < lo \/ hi < x -> in_range lo hi x = false.
Proof.
  intros H. unfold in_range. apply andb_false_iff.
  destruct H; [left|right]; apply Z.leb_gt; lia.
Qed.

Lemma decode2 b0 b1 rest q r :
  byte.unsigned b0 = 192 + q -> byte.unsigned b1 = 128 + r ->
  2 <= q < 32 -> 0 <= r < 64 ->
  utf8_decode (b0 :: b1 :: rest) = option_map (cons (64 * q + r)) (utf8_decode rest).
Proof.
  intros H0 H1 Hq Hr. cbn [utf8_decode]. unfold utf8_tail. rewrite H0, H1.
  replace (192 + q <? 128) with false by (symmetry; apply Z.ltb_ge; lia).
  rewrite (in_range_true 194 223) by lia.
  rewrite (in_range_true 128 191) by lia.
  rewrite tail_value by lia.
  change 31 with (Z.ones 5). change 192 with (6 * 2 ^ 5).
  rewrite lead_value by (change (2 ^ 5) with 32; lia).
  rewrite lor_add by (change (2 ^ 6) with 64; lia).
  change (2 ^ 6) with 64. rewrite (Z.mul_comm q 64). reflexivity.
Qed.

Lemma decode3 b0 b1 b2 rest p q r :
  byte.unsigned b0 = 224 + p -> byte.unsigned b1 = 128 + q ->
  byte.unsigned b2 = 128 + r ->
  0 <= p < 16 -> 0 <= q < 64 -> 0 <= r < 64 ->
  (p = 0 -> 32 <= q) -> (p = 13 -> q < 32) ->
  utf8_decode (b0 :: b1 :: b2 :: rest)
  = option_map (cons (4096 * p + 64 * q + r)) (utf8_decode rest).
Proof.
  intros H0 H1 H2 Hp Hq Hr Hlo Hhi. cbn [utf8_decode]. unfold utf8_tail.
  rewrite H0, H1, H2.
  replace (224 + p <? 128) with false by (symmetry; apply Z.ltb_ge; lia).
  rewrite (in_range_false 194 223) by lia.
  rewrite (in_range_true 224 239) by lia.
  assert (E1 : in_range (if 224 + p =? 224 then 160 else 128)
                 (if 224 + p =? 237 then 159 else 191) (128 + q) = true).
  { apply in_range_true.
    destruct (224 + p =? 224) eqn:Ea; destruct (224 + p =? 237) eqn:Eb; blia. }
  rewrite E1, (in_range_true 128 191) by lia. cbn [andb].
  rewrite !tail_value by lia.
  change 15 with (Z.ones 4). change 224 with (14 * 2 ^ 4).
  rewrite lead_value by (change (2 ^ 4) with 16; lia).
  rewrite (lor_add q 6) by (change (2 ^ 6) with 64; lia).
  change (2 ^ 6) with 64.
  rewrite lor_add by (change (2 ^ 12) with 4096; lia).
  change (2 ^ 12) with 4096.
  replace (p * 4096 + (q * 64 + r)) with (4096 * p + 64 * q + r) by lia.
  reflexivity.
Qed.

Lemma decode4 b0 b1 b2 b3 rest o p q r :
  byte.unsigned b0 = 240 + o -> byte.unsigned b1 = 128 + p ->
  byte.unsigned b2 = 128 + q -> byte.unsigned b3 = 128 + r ->
  0 <= o <= 4 -> 0 <= p < 64 -> 0 <= q < 64 -> 0 <= r < 64 ->
  (o = 0 -> 16 <= p) -> (o = 4 -> p < 16) ->
  utf8_decode (b0 :: b1 :: b2 :: b3 :: rest)
  = option_map (cons (262144 * o + 4096 * p + 64 * q + r)) (utf8_decode rest).
Proof.
  intros H0 H1 H2 H3 Ho Hp Hq Hr Hlo Hhi. cbn [utf8_decode]. unfold utf8_tail.
  rewrite H0, H1, H2, H3.
  replace (240 + o <? 128) with false by (symmetry; apply Z.ltb_ge; lia).
  rewrite (in_range_false 194 223) by lia.
  rewrite (in_range_false 224 239) by lia.
  rewrite (in_range_true 240 244) by lia.
  assert (E1 : in_range (if 240 + o =? 240 then 144 else 128)
                 (if 240 + o =? 244 then 143 else 191) (128 + p) = true).
  { apply in_range_true.
    destruct (240 + o =? 240) eqn:Ea; destruct (240 + o =? 244) eqn:Eb; blia. }
  rewrite E1, !(in_range_true 128 191) by lia. cbn [andb].
  rewrite !tail_value by lia.
  change 7 with (Z.ones 3). change 240 with (30 * 2 ^ 3).
  rewrite lead_value by (change (2 ^ 3) with 8; lia).
  rewrite (lor_add q 6) by (change (2 ^ 6) with 64; lia).
  change (2 ^ 6) with 64.
  rewrite (lor_add p 12) by (change (2 ^ 12) with 4096; lia).
  change (2 ^ 12) with 4096.
  rewrite lor_add by (change (2 ^ 18) with 262144; lia).
  change (2 ^ 18) with 262144.
  replace (o * 262144 + (p * 4096 + (q * 64 + r)))
    with (262144 * o + 4096 * p + 64 * q + r) by lia.
  reflexivity.
Qed.

Lemma some_eq {A} (a b : A) : Some a = Some b -> a = b.
Proof. congruence. Qed.

Lemma utf8_char_roundtrip c bs rest :
  utf8_encode_char c = Some bs ->
  utf8_decode (bs ++ rest) = option_map (cons c) (utf8_decode rest).
Proof.
  unfold utf8_encode_char, in_range.
  destruct ((0 <=? c) && (c <=? 127)) eqn:E1.
  { apply andb_true_iff in E1 as [Ea Eb]. intros H. apply some_eq in H. subst bs.
    cbn [app]. apply decode1; [apply unsigned_small; blia|blia]. }
  destruct ((128 <=? c) && (c <=? 2047)) eqn:E2.
  { apply andb_true_iff in E2 as [Ea Eb]. intros H. apply some_eq in H. subst bs.
    cbn [app]. replace c with (64 * (c / 64) + c mod 64) at 3 by divmod.
    apply decode2.
    - apply (lead_unsigned 192 3 6 c 6); try reflexivity; try lia.
      change (2 ^ 6) with 64. divmod.
    - rewrite cont_unsigned by lia. change (2 ^ 0) with 1. rewrite Z.div_1_r.
      reflexivity.
    - divmod.
    - divmod. }
  destruct ((55296 <=? c) && (c <=? 57343)) eqn:E3; [discriminate|].
  destruct ((2048 <=? c) && (c <=? 65535)) eqn:E4.
  { apply andb_true_iff in E4 as [Ea Eb]. apply andb_false_iff in E3.
    intros H. apply some_eq in H. subst bs. cbn [app].
    replace c with (4096 * (c / 4096) + 64 * ((c / 64) mod 64) + c mod 64) at 4
      by divmod.
    apply decode3.
    - apply (lead_unsigned 224 7 5 c 12); try reflexivity; try lia.
      change (2 ^ 5) with 32. change (2 ^ 12) with 4096. divmod.
    - rewrite cont_unsigned by lia. reflexivity.
    - rewrite cont_unsigned by lia. change (2 ^ 0) with 1. rewrite Z.div_1_r.
      reflexivity.
    - divmod.
    - change (2 ^ 6) with 64. divmod.
    - divmod.
    - change (2 ^ 6) with 64. divmod.
    - change (2 ^ 6) with 64. destruct E3; divmod. }
  destruct ((65536 <=? c) && (c <=? 1114111)) eqn:E5; [|discriminate].
  apply andb_true_iff in E5 as [Ea Eb].
  intros H. apply some_eq in H. subst bs. cbn [app].
  replace c with (262144 * (c / 262144) + 4096 * ((c / 4096) mod 64)
                  + 64 * ((c / 64) mod 64) + c mod 64) at 5 by divmod.
  apply decode4.
  - apply (lead_unsigned 240 15 4 c 18); try reflexivity; try lia.
    change (2 ^ 4) with 16. change (2 ^ 18) with 262144. divmod.
  - rewrite cont_unsigned by lia. reflexivity.
  - rewrite cont_unsigned by lia. reflexivity.
  - rewrite cont_unsigned by lia. change (2 ^ 0) with 1. rewrite Z.div_1_r.
    reflexivity.
  - divmod.
  - change (2 ^ 12) with 4096. divmod.
  - change (2 ^ 6) with 64. divmod.
  - divmod.
  - change (2 ^ 12) with 4096. divmod.
  - change (2 ^ 12) with 4096. divmod.
Qed.

Lemma utf8_roundtrip s : forall bs,
  utf8_encode s = Ok bs -> utf8_decode bs = Some s.
Proof.
  induction s as [|c s IH]; intros bs H; cbn [utf8_encode] in H.
  - injection H as <-. reflexivity.
  - destruct (utf8_encode_char c) as [cb|] eqn:Ec; [|discriminate].
    apply bind_Ok_inv in H as (tl & Htl & H). injection H as <-.
    rewrite (utf8_char_roundtrip c cb tl Ec), (IH tl Htl). reflexivity.
Qed.

Lemma in_range_spec lo hi x : in_range lo hi x = true <-> lo <= x <= hi.
Proof.
  unfold in_range. rewrite andb_true_iff, !Z.leb_le. tauto.
Qed.

Lemma in_range_not lo hi x : in_range lo hi x = false <-> x < lo \/ hi < x.
Proof.
  unfold in_range. rewrite andb_false_iff, !Z.leb_gt. tauto.
Qed.

Lemma scalar_value_spec c :
  scalar_value c = true <-> 0 <= c <= 0xD7FF \/ 0xE000 <= c <= 0x10FFFF.
Proof.
  unfold scalar_value. rewrite orb_true_iff, !in_range_spec. tauto.
Qed.

Lemma utf8_encode_char_scalar c :
  if scalar_value c then exists bs, utf8_encode_char c = Some bs
  else utf8_encode_char c = None.
Proof.
  destruct (scalar_value c) eqn:Es.
  - apply scalar_value_spec in Es. unfold utf8_encode_char.
    destruct (in_range 0 127 c) eqn:E1; [eauto|].
    destruct (in_range 128 2047 c) eqn:E2; [eauto|].
    destruct (in_range 55296 57343 c) eqn:E3; [apply in_range_spec in E3; lia|].
    destruct (in_range 2048 65535 c) eqn:E4; [eauto|].
    destruct (in_range 65536 1114111 c) eqn:E5; [eauto|].
    apply in_range_not in E1, E2, E4, E5. lia.
  - assert (Hn : ~ (0 <= c <= 0xD7FF \/ 0xE000 <= c <= 0x10FFFF))
      by (rewrite <- scalar_value_spec; congruence).
    unfold utf8_encode_char.
    destruct (in_range 0 127 c) eqn:E1; [apply in_range_spec in E1; lia|].
    destruct (in_range 128 2047 c) eqn:E2; [apply in_range_spec in E2; lia|].
    destruct (in_range 55296 57343 c) eqn:E3; [reflexivity|].
    destruct (in_range 2048 65535 c) eqn:E4;
      [apply in_range_spec in E4; apply in_range_not in E3; lia|].
    destruct (in_range 65536 1114111 c) eqn:E5; [apply in_range_spec in E5; lia|].
    reflexivity.
Qed.

Lemma utf8_encode_scalars s :
  if forallb scalar_value s then exists bs, utf8_encode s = Ok bs
  else utf8_encode s = Raise UnicodeEncodeError.
Proof.
  induction s as [|c s IH]; cbn [forallb utf8_encode]; [eauto|].
  pose proof (utf8_encode_char_scalar c) as Hc.
  destruct (scalar_value c); cbn [andb].
  - destruct Hc as [cb ->]. destruct (forallb scalar_value s).
    + destruct IH as [tl ->]. cbn [bind]. eauto.
    + rewrite IH. reflexivity.
  - rewrite Hc. reflexivity.
Qed.

End Utf8.

(** X20: text survives [putUtf8] and [getUtf8]: a string without
    surrogate code points, stored under a number not yet used, is read
    back unchanged; a string holding a surrogate is refused by [putUtf8]
    with [UnicodeEncodeError], which is not a [ProtoError]. *)
Theorem text_roundtrip (py_str : PyVal -> str) self i s :
  get self i = None ->
  if forallb scalar_value s
  then exists self', putUtf8 self i s = Ok self' /\
                     getUtf8 py_str self' i = Ok (Some s)
  else putUtf8 self i s = Raise UnicodeEncodeError.
Proof.
  intros Hfresh. pose proof (utf8_encode_scalars s) as He. unfold putUtf8.
  destruct (forallb scalar_value s).
  - destruct He as [bs He]. rewrite He. cbn [bind]. eexists. split; [reflexivity|].
    unfold getUtf8, getBytes. rewrite (get_put_fresh self i STRING (VBytes bs) Hfresh).
    cbn [type val bind]. rewrite (utf8_roundtrip s bs He). reflexivity.
  - rewrite He. reflexivity.
Qed.

Lemma text_roundtrip_witness :
  exists self',
    putUtf8 [mkField 7 VARINT (VInt 1)] 2 [0x68; 0xE9; 0x20AC; 0x1F600] = Ok self' /\
    getUtf8 (fun _ => []) self' 2 = Ok (Some [0x68; 0xE9; 0x20AC; 0x1F600]).
Proof.
  apply (text_roundtrip (fun _ => []) [mkField 7 VARINT (VInt 1)] 2
           [0x68; 0xE9; 0x20AC; 0x1F600]).
  reflexivity.
Defined.

(** ** ASCII text *)

Section Ascii.

Variable unicode_isprintable : Z -> bool.
Variable unicode_isspace : Z -> bool.

Lemma ascii_decode bs :
  forallb (fun b => byte.unsigned b <? 0x80) bs = true ->
  utf8_decode bs = Some (map byte.unsigned bs).
Proof.
  induction bs as [|b bs IH]; cbn [forallb map]; [reflexivity|].
  rewrite andb_true_iff. intros [Hb Hbs].
  pose proof (byte.unsigned_range b) as Hr.
  rewrite (decode1 b bs (byte.unsigned b) eq_refl) by blia.
  rewrite (IH Hbs). reflexivity.
Qed.

Lemma ascii_printable bs :
  forallb (fun b => byte.unsigned b <? 0x80) bs = true ->
  forallb (fun b =>
             let c := byte.unsigned b in
             in_range 0x20 0x7E c || (c =? 0x0A) || (c =? 0x0D) || (c =? 0x09)) bs
  = true ->
  forallb (fun c => isprintable unicode_isprintable c || isspace unicode_isspace c)
    (map byte.unsigned bs) = true.
Proof.
  induction bs as [|b bs IH]; cbn [forallb map]; [reflexivity|].
  rewrite !andb_true_iff. intros [Hb Hbs] [Hc Hcs]. split; [|apply IH; assumption].
  unfold isprintable, isspace. rewrite Hb.
  destruct (in_range 32 126 (byte.unsigned b)); [reflexivity|].
  cbn [orb] in Hc |- *. apply orb_true_iff. left. apply in_range_spec.
  apply orb_true_iff in Hc as [Hc|Hc]; [apply orb_true_iff in Hc as [Hc|Hc]|]; blia.
Qed.

End Ascii.

(** X21: a length-delimited field that [isAsciiStr] accepts is text for
    the rest of the codec: [getUtf8] returns its characters, one per
    byte, and [toDictAuto] exports it as that string, never as a nested
    message or as raw bytes. *)
Theorem ascii_field_is_text
  (py_str : PyVal -> str) (unicode_isprintable unicode_isspace : Z -> bool) f :
  isAsciiStr f = true -> type f = STRING ->
  exists bs, val f = VBytes bs /\
    getUtf8 py_str [f] (idx f) = Ok (Some (map byte.unsigned bs)) /\
    toDictAuto unicode_isprintable unicode_isspace [f]
    = Ok (PDict [(idx f, PStr (map byte.unsigned bs))]).
Proof.
  destruct f as [i t v]. unfold isAsciiStr. cbn [val type idx]. intros Ha ->.
  destruct v as [z|bs|pb]; try discriminate.
  destruct (forallb (fun b => byte.unsigned b <? 128) bs) eqn:E1; [|discriminate].
  exists bs. split; [reflexivity|]. split.
  - unfold getUtf8, getBytes. cbn [get idx]. rewrite Z.eqb_refl. cbn [type val bind].
    rewrite (ascii_decode bs E1). reflexivity.
  - unfold toDictAuto. rewrite toDictAuto_fuel_S.
    change (loop_with unicode_isprintable unicode_isspace ?rec [?f] [])
      with (value <- value_with unicode_isprintable unicode_isspace rec f ;;
            match value with
            | Some value => Ok (dict_append [] (idx f) value)
            | None => Ok []
            end).
    unfold value_with. cbn [type val idx].
    rewrite (ascii_decode bs E1).
    rewrite (ascii_printable unicode_isprintable unicode_isspace bs E1 Ha).
    reflexivity.
Qed.

Lemma ascii_field_is_text_witness :
  exists bs, val (mkField 3 STRING (VBytes (hex [0x48; 0x41; 0x0A]))) = VBytes bs /\
    getUtf8 (fun _ => []) [mkField 3 STRING (VBytes (hex [0x48; 0x41; 0x0A]))]
      (idx (mkField 3 STRING (VBytes (hex [0x48; 0x41; 0x0A]))))
    = Ok (Some (map byte.unsigned bs)) /\
    toDictAuto (fun _ => false) (fun _ => false)
      [mkField 3 STRING (VBytes (hex [0x48; 0x41; 0x0A]))]
    = Ok (PDict [(idx (mkField 3 STRING (VBytes (hex [0x48; 0x41; 0x0A]))),
                  PStr (map byte.unsigned bs))]).
Proof.
  apply (ascii_field_is_text (fun _ => []) (fun _ => false) (fun _ => false)
           (mkField 3 STRING (VBytes (hex [0x48; 0x41; 0x0A])))); reflexivity.
Defined.

(** ** Serializing an imported dict *)

Lemma flat_fields_toBuf T :
  forallb flat_field T = true -> exists B, toBuf T = Ok B.
Proof.
  induction T as [|[i t v] T IH]; cbn [forallb].
  - intros _. rewrite toBuf_nil. eauto.
  - rewrite andb_true_iff. intros [Hf HT]. destruct (IH HT) as [B HB].
    rewrite toBuf_cons, field_bytes_eq, HB.
    unfold flat_field in Hf. cbn [idx type val] in Hf.
    apply andb_true_iff in Hf as [_ Hf].
    destruct t, v as [z|bs|pb]; try discriminate; cbn [bind]; eauto.
Qed.

(** X22: whatever [ProtoBuf(dict)] accepts, [toBuf] serializes: import
    followed by serialization never raises, negative integers and
    arbitrarily large keys included. *)
Theorem imported_dict_serializes d T :
  ProtoBuf_init (PDict d) = Ok T -> exists B, toBuf T = Ok B.
Proof.
  cbn [ProtoBuf_init]. intros H.
  apply parseDict_put in H as (fs & -> & _ & Hf). cbn [app].
  apply flat_fields_toBuf. exact Hf.
Qed.

Lemma imported_dict_serializes_witness :
  exists B,
    toBuf [mkField 4 VARINT (VInt (-1)); mkField 2 STRING (VBytes (hex [0x68]))]
    = Ok B.
Proof.
  apply (imported_dict_serializes [(4, PInt (-1)); (2, PStr [0x68])]).
  reflexivity.
Defined.
